(** * Crew availability constraints: a shallow embedding of
      [crew_availability_constraints.cpp]

    The program reads, for every instance of a batch, the list of bases and
    the schedule of a previous solution ([solution_0]), counts the duties
    per base and per day, adds slack to these counts and rounds them, and
    writes the table [crew_avail_const.csv].

    All of the program lives in [main] (and the reader [baseName]); the
    definitions below follow [main] block by block and keep the names of its
    variables.

    Conventions of the embedding.
    - [float] and [double] are IEEE-754 binary32 and binary64, computed with
      the executable specification [SpecFloat] of the kernel's floats, every
      operation rounded once in the format C++ gives it (no excess
      precision).
    - [int] values are integers of [Z], and the sums and increments of
      [int] are those of [Z]: the counts of a run stay far from the bounds
      of [int], and signed overflow is not modelled.  The cast [(int) x] of
      a float is partial: NaN, infinities and values outside the range of
      [int] have no defined result.
    - A computation that has no defined result (an uncaught
      [std::out_of_range] of [substr], an index outside a vector, a cast
      without value, [% 0]) is [None].
    - An input file is the string of its characters, read with [getline]
      and [>>] as the program does; the files that can be opened are given
      by a predicate on their names.  The numbers of the parameter file,
      read as [float], and the text of the output file are not part of the
      embedding: the two percentages are parameters of [main], and a table
      written is kept as its entries. *)

From Stdlib Require Import ZArith Lia Ascii String Floats.SpecFloat.
From stdpp Require Import base option list strings sorting pretty.

Local Open Scope Z_scope.

(** ** Floating point *)

Definition float := spec_float.

Module F32.
Definition prec : Z := 24.
Definition emax : Z := 128.
Definition add := SFadd prec emax.
Definition sub := SFsub prec emax.
Definition mul := SFmul prec emax.
Definition div := SFdiv prec emax.
(** conversion of an [int] (or [size_t]) to [float] *)
Definition of_int (n : Z) : float := binary_normalize prec emax n 0 false.
(** conversion of a [double] to [float] (assignment to a [float]) *)
Definition of_double (x : float) : float :=
  match x with
  | S754_finite s m e => binary_normalize prec emax (cond_Zopp s (Zpos m)) e s
  | _ => x
  end.
Definition zero : float := S754_zero false.
End F32.

Module F64.
Definition prec : Z := 53.
Definition emax : Z := 1024.
Definition add := SFadd prec emax.
Definition sub := SFsub prec emax.
Definition mul := SFmul prec emax.
Definition div := SFdiv prec emax.
Definition of_int (n : Z) : float := binary_normalize prec emax n 0 false.
(** promotion of a [float] to [double]; exact, the mantissa is only
    re-aligned to 53 bits *)
Definition of_float (x : float) : float :=
  match x with
  | S754_finite s m e => binary_normalize prec emax (cond_Zopp s (Zpos m)) e s
  | _ => x
  end.
(** the literals [1.], [100.] and [0.00001] *)
Definition one : float := of_int 1.
Definition hundred : float := of_int 100.
Definition tolerance : float := div (of_int 1) (of_int 100000).
End F64.

(** comparisons; every comparison with a NaN is false *)
Definition fgt (a b : float) : bool := SFltb b a.
Definition fge (a b : float) : bool := SFleb b a.
Definition flt (a b : float) : bool := SFltb a b.
Definition feq (a b : float) : bool := SFeqb a b.

Definition INT_MIN : Z := - 2 ^ 31.
Definition INT_MAX : Z := 2 ^ 31 - 1.

(** [(int) x]: truncation toward zero, defined when the truncated value is
    an [int] *)
Definition to_int (x : float) : option Z :=
  match x with
  | S754_zero _ => Some 0
  | S754_finite s m e =>
      let n := cond_Zopp s (Z.shiftl (Zpos m) e) in
      if (INT_MIN <=? n) && (n <=? INT_MAX) then Some n else None
  | _ => None
  end.

(** ** Strings *)

(** [s.substr(pos, n)]: throws [std::out_of_range] when [pos > s.size()] *)
Definition substr (s : string) (pos n : nat) : option string :=
  if (pos <=? String.length s)%nat then Some (String.substring pos n s) else None.

(** [s.substr(pos)] *)
Definition substr_from (s : string) (pos : nat) : option string :=
  substr s pos (String.length s).

(** [s.find(c)]; [None] is [string::npos] *)
Fixpoint find (c : ascii) (s : string) : option nat :=
  match s with
  | EmptyString => None
  | String a s' => if Ascii.eqb a c then Some 0%nat else S <$> find c s'
  end.

Definition is_space (c : ascii) : bool :=
  let n := Ascii.nat_of_ascii c in
  (n =? 32)%nat || ((9 <=? n)%nat && (n <=? 13)%nat).

Definition digit_val (c : ascii) : option Z :=
  let n := Ascii.nat_of_ascii c in
  if (48 <=? n)%nat && (n <=? 57)%nat then Some (Z.of_nat n - 48) else None.

Fixpoint skipws (s : string) : string :=
  match s with
  | String c s' => if is_space c then skipws s' else s
  | EmptyString => s
  end.

Fixpoint read_digits (acc : Z) (s : string) : Z :=
  match s with
  | String c s' =>
      match digit_val c with
      | Some d => read_digits (10 * acc + d) s'
      | None => acc
      end
  | EmptyString => acc
  end.

Definition starts_with_digit (s : string) : bool :=
  match s with
  | String c _ => bool_decide (is_Some (digit_val c))
  | EmptyString => false
  end.

(** the decimal integer that [>>] and [atoi] find at the start of a short
    field: leading white space is skipped, then an optional sign and decimal
    digits are read; [None] when no digit is found *)
Definition leading_int (s : string) : option Z :=
  match skipws s with
  | EmptyString => None
  | String c s' =>
      if Ascii.eqb c "-"%char then
        if starts_with_digit s' then Some (- read_digits 0 s') else None
      else if Ascii.eqb c "+"%char then
        if starts_with_digit s' then Some (read_digits 0 s') else None
      else if starts_with_digit (String c s') then Some (read_digits 0 (String c s'))
      else None
  end.

(** [std::stringstream convert(s); int v; convert >> v;] for the short field
    the program reads.  When no digit is found the extraction fails and 0
    is stored in [v] (C++11, and the library of the compiler in every
    mode); the program does not test the stream and goes on with this 0. *)
Definition read_int (s : string) : Z := default 0 (leading_int s).

(** ** Counting the duties of the initial solution *)

(** [v[i][j]++] on a vector of vectors; an index outside the vectors is
    undefined *)
Definition incr (v : list (list Z)) (i j : nat) : option (list (list Z)) :=
  row ← v !! i;
  c ← row !! j;
  Some (<[i := <[j := c + 1]> row]> v).

(** State of the loop over the tasks of one employee.  [events] is a ghost
    field: the days for which the loop has added a duty, most recent first;
    the program itself only increments [initialDutiesPerBasePerDay]. *)
Record tasks_state := {
  schedule : string;
  day : Z;
  initialDutiesPerBasePerDay : list (list Z);
  events : list Z
}.

(** the test of line 225: [task] is an airleg (neither a vacation, a post
    nor a deadhead) *)
Definition is_airleg (task : string) : option bool :=
  p4 ← substr task 0 4;
  p3 ← substr task 0 3;
  Some (negb (String.eqb task "VACATION") && negb (String.eqb p4 "POST")
        && negb (String.eqb p3 "TDH")).

(** lines 227-229: the prefix of a preferred airleg is removed *)
Definition strip_PAL (task : string) : option string :=
  p3 ← substr task 0 3;
  if String.eqb p3 "PAL" then substr_from task 4 else Some task.

(** lines 231-233: the day of the flight, read from the characters 4 and 5
    of the flight number *)
Definition leg_day (task : string) : option Z :=
  field ← substr task 4 2;
  Some (read_int field).

(** lines 235-238: a duty is added when [taskDay] is a new day *)
Definition count_day (baseIndex : nat) (taskDay : Z) (st : tasks_state)
  : option tasks_state :=
  if day st <? taskDay then
    m ← incr (initialDutiesPerBasePerDay st) baseIndex (Z.to_nat (taskDay - 1));
    Some {| schedule := schedule st; day := taskDay;
            initialDutiesPerBasePerDay := m; events := taskDay :: events st |}
  else Some st.

(** lines 230-238 for the airleg [task] *)
Definition count_leg (baseIndex : nat) (task : string) (st : tasks_state)
  : option tasks_state :=
  taskDay ← leg_day task;
  count_day baseIndex taskDay st.

(** the part of the loop body that classifies [task] (lines 225-239) *)
Definition count_task (baseIndex : nat) (task : string) (st : tasks_state)
  : option tasks_state :=
  airleg ← is_airleg task;
  if airleg : bool then
    task ← strip_PAL task;
    count_leg baseIndex task st
  else Some st.

(** one iteration of [while(next)] (lines 210-240); the boolean is [next] *)
Definition tasks_step (baseIndex : nat) (st : tasks_state)
  : option (tasks_state * bool) :=
  match find "-"%char (schedule st) with
  | Some pos =>
      task ← substr (schedule st) 0 pos;
      rest ← substr_from (schedule st) (pos + 4);
      st' ← count_task baseIndex task
              {| schedule := rest; day := day st;
                 initialDutiesPerBasePerDay := initialDutiesPerBasePerDay st;
                 events := events st |};
      Some (st', true)
  | None =>
      task ← substr (schedule st) 0 (String.length (schedule st) - 1);
      st' ← count_task baseIndex task st;
      Some (st', false)
  end.

(** [while(next)]: every iteration but the last removes at least four
    characters from [schedule], so [S (length schedule)] iterations are
    enough (lemma [tasks_loop_fuel]) *)
Fixpoint tasks_loop (fuel : nat) (baseIndex : nat) (st : tasks_state)
  : option tasks_state :=
  match fuel with
  | O => None
  | S fuel' =>
      match tasks_step baseIndex st with
      | Some (st', true) => tasks_loop fuel' baseIndex st'
      | Some (st', false) => Some st'
      | None => None
      end
  end.

(** index of [baseString] in [baseNames] (lines 184-191); [None] is -1 *)
Fixpoint find_base (baseString : string) (baseNames : list string) : option nat :=
  match baseNames with
  | [] => None
  | b :: bs => if String.eqb baseString b then Some 0%nat
               else S <$> find_base baseString bs
  end.

(** One record of [solution_0], as [>>] and [getline] deliver it: the
    fourth word, the base in parentheses, and the rest of the line after the
    fifth word. *)
Record employee := { baseString : string; line : string }.

(** body of the loop over the schedules (lines 175-242); the result carries
    the ghost events of this employee as pairs (base index, day), in the
    order of the schedule *)
Definition count_employee (baseNames : list string) (emp : employee)
    (duties : list (list Z)) : option (list (list Z) * list (nat * Z)) :=
  base ← substr (baseString emp) 1 (String.length (baseString emp) - 2);
  sched ← substr_from (line emp) 1;
  match find_base base baseNames with
  | Some baseIndex =>
      st ← tasks_loop (S (String.length sched)) baseIndex
             {| schedule := sched; day := 0;
                initialDutiesPerBasePerDay := duties; events := [] |};
      Some (initialDutiesPerBasePerDay st, (λ d, (baseIndex, d)) <$> rev (events st))
  | None => Some (duties, [])
  end.

Fixpoint count_duties (baseNames : list string) (emps : list employee)
    (duties : list (list Z)) : option (list (list Z) * list (nat * Z)) :=
  match emps with
  | [] => Some (duties, [])
  | emp :: emps' =>
      '(duties1, evs1) ← count_employee baseNames emp duties;
      '(duties2, evs2) ← count_duties baseNames emps' duties1;
      Some (duties2, evs1 ++ evs2)
  end.

(** the matrix of zeros of lines 128-135 *)
Definition zero_duties (numBases numDays : nat) : list (list Z) :=
  replicate numBases (replicate numDays 0).

(** ** First output: the duties of the initial solution, with slack *)

(** [v[j]] for every row [v] of a table kept by base: the entries of day [j] *)
Definition column {A : Type} (j : nat) (m : list (list A)) : option (list A) :=
  mapM (λ row : list A, row !! j) m.

(** [m[i][j] = x] *)
Definition set_entry {A : Type} (i j : nat) (x : A) (m : list (list A))
  : list (list A) :=
  alter (λ row : list A, <[j := x]> row) i m.

(** [1.*initial*(1.+percentSlack/100)] stored in a [float] (line 280): the
    quotient is a [float], the sum and the products are [double] *)
Definition with_slack (percentSlack : float) (c : Z) : float :=
  F32.of_double
    (F64.mul (F64.mul F64.one (F64.of_int c))
       (F64.add F64.one (F64.of_float (F32.div percentSlack (F32.of_int 100))))).

(** [sumDutiesPerDay[j]] (line 281), accumulated in base order from 0 *)
Definition sum_floats (xs : list float) : float := fold_left F32.add xs F32.zero.

(** [sumRoundedDownDutiesPerDay[j]] (line 282) *)
Fixpoint sum_ints (xs : list float) : option Z :=
  match xs with
  | [] => Some 0
  | x :: xs' => n ← to_int x; s ← sum_ints xs'; Some (n + s)
  end.

(** [x - (int) x] for a [float] [x] *)
Definition decimal (x : float) : option float :=
  n ← to_int x; Some (F32.sub x (F32.of_int n)).

(** the loop of lines 298-303 *)
Fixpoint addedOneCrew (cs : list Z) (xs : list float) : option bool :=
  match cs, xs with
  | c :: cs', x :: xs' =>
      n ← to_int x;
      if c <? n then Some true else addedOneCrew cs' xs'
  | _, _ => Some false
  end.

(** lines 288-307, from the entries of one day: the raw counts [cs], the
    counts with slack [xs] of which lines 278-284 took the two sums, and the
    entries [now] of [dutiesPerBasePerDay] when the day is reached *)
Definition numberRoundUp (cs : list Z) (xs now : list float) : option Z :=
  total ← to_int (sum_floats xs);
  roundedDown ← sum_ints xs;
  let n := (total + 1) - roundedDown in
  if n =? 0 then
    added ← addedOneCrew cs now;
    Some (if added : bool then 0 else 1)
  else Some n.

(** body of the loop over [k] (lines 316-335); the state is
    [(indexHighestDecimal, highestDecimal)] *)
Definition highest_step (k : nat) (x : float) (st : list nat * float)
  : option (list nat * float) :=
  d ← decimal x;
  if fgt d st.2 then Some ([k], d)
  else if flt (F64.of_float (F32.sub d st.2)) F64.tolerance
          && fgt (F64.of_float (F32.sub d st.2)) (SFopp F64.tolerance)
       then Some (st.1 ++ [k], st.2)
       else Some st.

Fixpoint highest_scan (k : nat) (xs : list float) (st : list nat * float)
  : option (list nat * float) :=
  match xs with
  | [] => Some st
  | x :: xs' => st' ← highest_step k x st; highest_scan (S k) xs' st'
  end.

(** lines 313-335 on the entries [xs] of the day *)
Definition indexHighestDecimal (xs : list float) : option (list nat) :=
  fst <$> highest_scan 0 xs ([], F32.zero).

(** lines 337-338 on the entries of the day: [r] is the value of [rand()];
    the result is the chosen base and its new entry *)
Definition choose (r : nat) (xs : list float) : option (nat * float) :=
  idx ← indexHighestDecimal xs;
  if decide (idx = []) then None
  else
    Chosen ← idx !! (r `mod` length idx)%nat;
    x ← xs !! Chosen;
    n ← to_int x;
    Some (Chosen, F32.of_int (n + 1)).

(** The random source: [rand k] is the value of the [k]-th call of
    [rand()] in the run; the state carries the number of calls made. *)
Definition random := nat → nat.

(** one iteration of the loop of line 311, for day [j] *)
Definition round_up_one (rand : random) (j : nat)
    (st : list (list float) * nat) : option (list (list float) * nat) :=
  xs ← column j st.1;
  '(Chosen, x) ← choose (rand st.2) xs;
  Some (set_entry Chosen j x st.1, S st.2).

Fixpoint round_up (rand : random) (j : nat) (n : nat)
    (st : list (list float) * nat) : option (list (list float) * nat) :=
  match n with
  | O => Some st
  | S n' => st' ← round_up_one rand j st; round_up rand j n' st'
  end.

(** body of the loop over the days (lines 286-340); [slack] is the table
    [dutiesPerBasePerDay] as lines 278-284 leave it, from which the two sums
    of the day were taken *)
Definition round_day (rand : random) (initial : list (list Z))
    (slack : list (list float)) (j : nat) (st : list (list float) * nat)
  : option (list (list float) * nat) :=
  cs ← column j initial;
  xs ← column j slack;
  now ← column j st.1;
  n ← numberRoundUp cs xs now;
  round_up rand j (Z.to_nat n) st.

Fixpoint round_days (rand : random) (initial : list (list Z))
    (slack : list (list float)) (days : list nat)
    (st : list (list float) * nat) : option (list (list float) * nat) :=
  match days with
  | [] => Some st
  | j :: days' =>
      st' ← round_day rand initial slack j st;
      round_days rand initial slack days' st'
  end.

(** lines 257-340: the table [dutiesPerBasePerDay] after rounding, and the
    number of calls of [rand()] *)
Definition dutiesPerBasePerDay (rand : random) (calls : nat)
    (percentSlack : float) (numDays : nat) (initial : list (list Z))
  : option (list (list float) * nat) :=
  let slack := map (map (with_slack percentSlack)) initial in
  round_days rand initial slack (seq 0 numDays) (slack, calls).

(** sum of the entries cast to [int], accumulated in a [float], by base and
    then by day (lines 352-359) *)
Fixpoint sum_cast {A : Type} (cast : A → option Z) (acc : float) (xs : list A)
  : option float :=
  match xs with
  | [] => Some acc
  | x :: xs' => n ← cast x; sum_cast cast (F32.add acc (F32.of_int n)) xs'
  end.

(** line 362 *)
Definition percentSlackAdded_A (final : list (list float))
    (initial : list (list Z)) : option float :=
  sumFinal ← sum_cast to_int F32.zero (concat final);
  sumInitial ← sum_cast Some F32.zero (concat initial);
  Some (F32.of_double
          (F64.mul (F64.sub (F64.of_float (F32.div sumFinal sumInitial)) F64.one)
             F64.hundred)).

(** ** Second output: the average over the period, skewed to the main base *)

(** State of the loop over the bases of lines 433-448.  [mainBaseIndex] is
    an [int] that starts at -1. *)
Record averages_state := {
  mainBaseIndex : Z;
  mainBaseAvailability : Z;
  averages : list float;
  sumAverages : float;
  sumAveragesWithoutSlack : float
}.

Definition averages_init : averages_state :=
  {| mainBaseIndex := -1; mainBaseAvailability := 0; averages := [];
     sumAverages := F32.zero; sumAveragesWithoutSlack := F32.zero |}.

(** [sum] of lines 436-439; a row of the table has [numDays] entries *)
Definition period_sum (row : list Z) : Z := fold_left Z.add row 0.

(** [1.*sum/numDays], a [double] *)
Definition average (numDays : nat) (sum : Z) : float :=
  F64.div (F64.mul F64.one (F64.of_int sum)) (F64.of_int (Z.of_nat numDays)).

(** [1.*sum/numDays*(1.+percentSlack/100.)], a [double] *)
Definition average_with_slack (percentSlack : float) (numDays : nat) (sum : Z)
  : float :=
  F64.mul (average numDays sum)
    (F64.add F64.one (F64.div (F64.of_float percentSlack) F64.hundred)).

(** body of the loop of lines 435-448 for base [i] *)
Definition averages_step (percentSlack : float) (numDays : nat)
    (st : averages_state) (i : nat) (row : list Z) : averages_state :=
  let sum := period_sum row in
  let greater := mainBaseAvailability st <? sum in
  {| mainBaseIndex := if greater then Z.of_nat i else mainBaseIndex st;
     mainBaseAvailability := if greater then sum else mainBaseAvailability st;
     averages :=
       averages st ++ [F32.of_double (average_with_slack percentSlack numDays sum)];
     sumAverages :=
       F32.of_double (F64.add (F64.of_float (sumAverages st))
                        (average_with_slack percentSlack numDays sum));
     sumAveragesWithoutSlack :=
       F32.of_double (F64.add (F64.of_float (sumAveragesWithoutSlack st))
                        (average numDays sum)) |}.

Fixpoint averages_loop (percentSlack : float) (numDays : nat)
    (st : averages_state) (i : nat) (initial : list (list Z)) : averages_state :=
  match initial with
  | [] => st
  | row :: rows =>
      averages_loop percentSlack numDays
        (averages_step percentSlack numDays st i row) (S i) rows
  end.

(** [sumAverages*percentMainBase/100.] stored in a [float] (line 453) *)
Definition main_share (percentMainBase sumAverages : float) : float :=
  F32.of_double
    (F64.div (F64.of_float (F32.mul sumAverages percentMainBase)) F64.hundred).

(** [baseNames.size()-1], a [size_t] *)
Definition size_minus_one (numBases : nat) : Z :=
  (Z.of_nat numBases - 1) mod 2 ^ 64.

(** [sumAverages*(1-percentMainBase/100)/(baseNames.size()-1)] (line 456),
    computed in [float] *)
Definition other_share (percentMainBase sumAverages : float) (numBases : nat)
  : float :=
  F32.div
    (F32.mul sumAverages
       (F32.sub (F32.of_int 1) (F32.div percentMainBase (F32.of_int 100))))
    (F32.of_int (size_minus_one numBases)).

(** lines 451-458 *)
Definition distribute (percentMainBase : float) (numBases : nat)
    (st : averages_state) : list float :=
  imap (λ (i : nat) (_ : float),
          if Z.of_nat i =? mainBaseIndex st
          then main_share percentMainBase (sumAverages st)
          else other_share percentMainBase (sumAverages st) numBases)
       (averages st).

(** [int roundedSumAverages = sumAverages+1] (line 462) *)
Definition roundedSumAverages (sumAverages : float) : option Z :=
  to_int (F32.add sumAverages (F32.of_int 1)).

(** lines 471-474 *)
Definition numberRoundedUp (sumAverages : float) (avgs : list float) : option Z :=
  rounded ← roundedSumAverages sumAverages;
  floors ← sum_ints avgs;
  Some (rounded - floors).

(** the loop over [j] of lines 481-487; the state is [(index, decimal)] *)
Fixpoint best_scan (j : nat) (avgs : list float) (st : nat * float)
  : option (nat * float) :=
  match avgs with
  | [] => Some st
  | x :: avgs' =>
      d ← decimal x;
      best_scan (S j) avgs' (if fge d st.2 then (j, d) else st)
  end.

(** lines 478-487 *)
Definition best_index (avgs : list float) : option nat :=
  fst <$> best_scan 0 avgs (0%nat, F32.zero).

(** one iteration of the loop of line 477 *)
Definition round_best (avgs : list float) : option (list float) :=
  index ← best_index avgs;
  x ← avgs !! index;
  n ← to_int x;
  Some (<[index := F32.of_int (n + 1)]> avgs).

Fixpoint round_best_n (n : nat) (avgs : list float) : option (list float) :=
  match n with
  | O => Some avgs
  | S n' => avgs' ← round_best avgs; round_best_n n' avgs'
  end.

(** [averages[i] = (int) averages[i]] for every base (line 495) *)
Definition round_down (avgs : list float) : option (list float) :=
  mapM (λ x : float, F32.of_int <$> to_int x) avgs.

(** lines 427-497: the vector [averages] at the end *)
Definition rounded_averages (percentSlack percentMainBase : float)
    (numDays : nat) (initial : list (list Z)) : option (list float) :=
  let st := averages_loop percentSlack numDays averages_init 0 initial in
  let avgs := distribute percentMainBase (length initial) st in
  n ← numberRoundedUp (sumAverages st) avgs;
  avgs' ← round_best_n (Z.to_nat n) avgs;
  round_down avgs'.

(** line 498 *)
Definition percentSlackAdded_B (final : list float) (sumWithoutSlack : float)
  : float :=
  let sumAveragesAfterRounding := fold_left F32.add final F32.zero in
  F32.of_double
    (F64.mul
       (F64.sub
          (F64.div (F64.mul F64.one (F64.of_float sumAveragesAfterRounding))
             (F64.of_float sumWithoutSlack))
          (F64.of_int 1))
       (F64.of_int 100)).

(** ** The output table and the loop over the instances *)

(** An entry of the table: the first output writes [(int) x], the second
    writes the [float] [averages[j]] itself. *)
Inductive cell :=
  | IntCell (n : Z)
  | FloatCell (x : float).

(** The file [crew_avail_const.csv]: the percentage of the comment line, the
    names of the header, and for every day its number and its entries in
    base order. *)
Record table := {
  slackAdded : float;
  header : list string;
  dayRows : list (nat * list cell)
}.

(** lines 399-414 *)
Definition rows_A (numDays : nat) (final : list (list float))
  : option (list (nat * list cell)) :=
  mapM (λ i : nat,
          xs ← column i final;
          ns ← mapM to_int xs;
          Some (S i, IntCell <$> ns))
       (seq 0 numDays).

(** lines 537-550 *)
Definition rows_B (numDays : nat) (avgs : list float) : list (nat * list cell) :=
  (λ i : nat, (S i, FloatCell <$> avgs)) <$> seq 0 numDays.

(** What the program finds in the folder of an instance: [listOfBases] is
    the result of [baseName] ([None] when [listOfBases.csv] cannot be opened,
    otherwise the names it collects), [dayFiles] the number of consecutive
    files [day_1.csv], [day_2.csv], ... found, [solution_0] the records of
    the schedule file after its two header lines ([None] when it cannot be
    opened), [output_opens] whether [crew_avail_const.csv] can be opened for
    writing. *)
Record instance := {
  name : string;
  listOfBases : option (list string);
  dayFiles : nat;
  solution_0 : option (list employee);
  output_opens : bool
}.

(** the error messages written to [cout] *)
Inductive message :=
  | ListOfBasesNotFound (instanceName : string)
  | SolutionNotFound (instanceName : string)
  | OutputNotOpened (instanceName : string)
  | OutputAvgNotOpened (instanceName : string).

Record run_state := {
  instanceNb : nat;
  cout : list message;
  written : list (string * table);
  calls : nat
}.

Definition say (msg : message) (st : run_state) : run_state :=
  {| instanceNb := instanceNb st; cout := cout st ++ [msg];
     written := written st; calls := calls st |}.

Definition write (instanceName : string) (t : table) (calls' : nat)
    (st : run_state) : run_state :=
  {| instanceNb := instanceNb st; cout := cout st;
     written := written st ++ [(instanceName, t)]; calls := calls' |}.

Definition with_calls (calls' : nat) (st : run_state) : run_state :=
  {| instanceNb := instanceNb st; cout := cout st;
     written := written st; calls := calls' |}.

Definition next_instance (st : run_state) : run_state :=
  {| instanceNb := S (instanceNb st); cout := cout st;
     written := written st; calls := calls st |}.

(** lines 248-418 *)
Definition first_output (rand : random) (percentSlack : float)
    (inst : instance) (baseNames : list string) (initial : list (list Z))
    (st : run_state) : option run_state :=
  '(final, calls') ← dutiesPerBasePerDay rand (calls st) percentSlack
                       (dayFiles inst) initial;
  added ← percentSlackAdded_A final initial;
  if output_opens inst then
    rows ← rows_A (dayFiles inst) final;
    Some (write (name inst)
            {| slackAdded := added; header := baseNames; dayRows := rows |}
            calls' st)
  else Some (say (OutputNotOpened (name inst)) (with_calls calls' st)).

(** lines 419-555 *)
Definition second_output (percentSlack percentMainBase : float)
    (inst : instance) (baseNames : list string) (initial : list (list Z))
    (st : run_state) : option run_state :=
  avgs ← rounded_averages percentSlack percentMainBase (dayFiles inst) initial;
  let sumWithoutSlack :=
    sumAveragesWithoutSlack
      (averages_loop percentSlack (dayFiles inst) averages_init 0 initial) in
  if output_opens inst then
    Some (write (name inst)
            {| slackAdded := percentSlackAdded_B avgs sumWithoutSlack;
               header := baseNames;
               dayRows := rows_B (dayFiles inst) avgs |}
            (calls st) st)
  else Some (say (OutputAvgNotOpened (name inst)) st).

(** the [else] branch of lines 91-557, for an instance whose bases were
    read *)
Definition generate (rand : random) (percentSlack percentMainBase : float)
    (inst : instance) (baseNames : list string) (st : run_state)
  : option run_state :=
  match solution_0 inst with
  | None => Some (say (SolutionNotFound (name inst)) st)
  | Some emps =>
      '(initial, _) ← count_duties baseNames emps
                        (zero_duties (length baseNames) (dayFiles inst));
      if feq percentMainBase (F32.of_int (-1))
      then first_output rand percentSlack inst baseNames initial st
      else second_output percentSlack percentMainBase inst baseNames initial st
  end.

(** body of [while(instanceNb < (int) instanceNames.size())] (lines 82-561);
    [instanceNb++] is the last statement of the [else] branch *)
Definition main_step (rand : random) (percentSlack percentMainBase : float)
    (instances : list instance) (st : run_state) : option run_state :=
  inst ← instances !! instanceNb st;
  match listOfBases inst with
  | None => Some (say (ListOfBasesNotFound (name inst)) st)
  | Some baseNames =>
      st' ← generate rand percentSlack percentMainBase inst baseNames st;
      Some (next_instance st')
  end.

(** Result of running the loop for at most [fuel] iterations: [main] has
    returned, or the run has no defined result, or the loop is still
    running. *)
Inductive outcome :=
  | Returned (st : run_state)
  | NoResult
  | Running (st : run_state).

Fixpoint main_loop (rand : random) (percentSlack percentMainBase : float)
    (instances : list instance) (fuel : nat) (st : run_state) : outcome :=
  if (instanceNb st <? length instances)%nat then
    match fuel with
    | O => Running st
    | S fuel' =>
        match main_step rand percentSlack percentMainBase instances st with
        | Some st' =>
            main_loop rand percentSlack percentMainBase instances fuel' st'
        | None => NoResult
        end
    end
  else Returned st.

Definition start : run_state :=
  {| instanceNb := 0; cout := []; written := []; calls := 0 |}.

Definition main (rand : random) (percentSlack percentMainBase : float)
    (instances : list instance) (fuel : nat) : outcome :=
  main_loop rand percentSlack percentMainBase instances fuel start.

(** ** Reading the input files

    An input stream is the string of the characters that are left to read.
    A file that cannot be opened is [None]. *)

Definition newline : ascii := "010"%char.

(** the characters up to the first newline, and those after it *)
Fixpoint split_line (s : string) : string * string :=
  match s with
  | EmptyString => (EmptyString, EmptyString)
  | String c s' =>
      if Ascii.eqb c newline then (EmptyString, s')
      else let '(l, r) := split_line s' in (String c l, r)
  end.

(** [getline(in, line)]: fails ([None]) when no character is left; the
    newline that ends the line is taken from the stream and dropped *)
Definition getline (s : string) : option (string * string) :=
  match s with
  | EmptyString => None
  | _ => Some (split_line s)
  end.

(** the lines that [while(getline(in, line))] goes through (lemma
    [lines_getline]) *)
Fixpoint lines (s : string) : list string :=
  match s with
  | EmptyString => []
  | String c s' =>
      if Ascii.eqb c newline then EmptyString :: lines s'
      else match lines s' with
           | [] => [String c EmptyString]
           | l :: ls => String c l :: ls
           end
  end.

(** [s.find_first_not_of(c)]; [None] is [string::npos] *)
Fixpoint find_first_not_of (c : ascii) (s : string) : option nat :=
  match s with
  | EmptyString => None
  | String a s' =>
      if Ascii.eqb a c then S <$> find_first_not_of c s' else Some 0%nat
  end.

(** [atoi(s)] for the one-character field it is given: white space, then
    an optional sign and digits; 0 when there is no digit *)
Definition atoi (s : string) : Z := default 0 (leading_int s).

(** body of the loop of [baseName] (lines 588-598).  [substr(0, npos)] is
    the whole line, and [find_first_of(",") + 2] wraps around to 1 when
    there is no comma ([npos + 2] in [size_t]). *)
Definition baseName_line (line : string) (baseNames : list string)
  : option (list string) :=
  match find_first_not_of " " line with
  | Some _ =>
      name ← substr line 0 (default (String.length line) (find " " line));
      field ← substr line
                 (match find "," line with Some p => p + 2 | None => 1 end)%nat 1;
      let isbase := negb (atoi field =? 0) in
      Some (if isbase then baseNames ++ [name] else baseNames)
  | None => Some baseNames
  end.

(** [while(getline(bases,line))] on the lines that are left in the file *)
Fixpoint baseName_loop (ls : list string) (baseNames : list string)
  : option (list string) :=
  match ls with
  | [] => Some baseNames
  | line :: ls' =>
      names ← baseName_line line baseNames; baseName_loop ls' names
  end.

(** [baseName(instanceName, &baseNames)] (lines 567-601) on the file
    [listOfBases.csv] of the instance: the value returned and the names in
    [baseNames]; the first line is read and dropped *)
Definition baseName (file : option string) (baseNames : list string)
  : option (bool * list string) :=
  match file with
  | None => Some (false, baseNames)
  | Some content =>
      names ← baseName_loop (tail (lines content)) baseNames;
      Some (true, names)
  end.

(** *** The parameter file: the names of the instances (lines 46-55) *)

(** [while(getline(params,paramLine) && !paramLine.compare(marker)==0){}]:
    the lines left after the first line equal to [marker] *)
Fixpoint skip_to (marker : string) (ls : list string) : list string :=
  match ls with
  | [] => []
  | l :: ls' => if String.eqb l marker then ls' else skip_to marker ls'
  end.

(** the second loop: the lines up to the first empty one are the names *)
Fixpoint names_until_empty (ls : list string) : list string :=
  match ls with
  | [] => []
  | l :: ls' =>
      if String.eqb l EmptyString then [] else l :: names_until_empty ls'
  end.

(** [instanceNames] after the two loops, from the content of the parameter
    file (a file that cannot be opened reads as an empty one) *)
Definition instanceNames (params : string) : list string :=
  names_until_empty (skip_to "instances" (lines params)).

(** *** The file [solution_0] (lines 160-242) *)

(** the characters of a word, up to the next white space, and the rest *)
Fixpoint split_word (s : string) : string * string :=
  match s with
  | EmptyString => (EmptyString, EmptyString)
  | String c s' =>
      if is_space c then (EmptyString, s)
      else let '(w, r) := split_word s' in (String c w, r)
  end.

(** [in >> word] for a [string]: white space is skipped, then the
    characters up to the next white space are taken, which stays in the
    stream; the extraction fails ([None]) when only white space is left *)
Definition read_word (s : string) : option (string * string) :=
  match skipws s with
  | EmptyString => None
  | String c s' => Some (split_word (String c s'))
  end.

(** [solutionFile >>a>>a>>a>>baseString>>a]: the fourth word and the
    stream after the fifth, or [None] when an extraction fails *)
Definition read_record (s : string) : option (string * string) :=
  '(_, s1) ← read_word s;
  '(_, s2) ← read_word s1;
  '(_, s3) ← read_word s2;
  '(baseString, s4) ← read_word s3;
  '(_, s5) ← read_word s4;
  Some (baseString, s5).

(** body of the loop over the schedules (lines 175-242) on the stream
    [rest] left after the five words; [previous] is the variable [schedule]
    as the iteration before has left it, which [getline] does not change
    when it fails.  The result is the stream, [schedule], the table and the
    ghost events of this employee. *)
Definition solution_body (baseNames : list string)
    (baseString rest previous : string) (duties : list (list Z))
  : option (string * string * list (list Z) * list (nat * Z)) :=
  base ← substr baseString 1 (String.length baseString - 2);
  let '(text, rest') := match getline rest with
                        | Some (l, r) => (l, r)
                        | None => (previous, rest)
                        end in
  sched ← substr_from text 1;
  match find_base base baseNames with
  | Some baseIndex =>
      st ← tasks_loop (S (String.length sched)) baseIndex
             {| schedule := sched; day := 0;
                initialDutiesPerBasePerDay := duties; events := [] |};
      Some (rest', schedule st, initialDutiesPerBasePerDay st,
            (λ d, (baseIndex, d)) <$> rev (events st))
  | None => Some (rest', sched, duties, [])
  end.

(** [while( solutionFile >>a>>a>>a>>baseString>>a)]: every iteration takes
    characters from the stream, so [S (length stream)] iterations are
    enough *)
Fixpoint solution_loop (fuel : nat) (baseNames : list string)
    (stream previous : string) (duties : list (list Z))
  : option (list (list Z) * list (nat * Z)) :=
  match fuel with
  | O => None
  | S fuel' =>
      match read_record stream with
      | None => Some (duties, [])
      | Some (baseString, rest) =>
          '(rest', previous', duties1, evs1) ←
            solution_body baseNames baseString rest previous duties;
          '(duties2, evs2) ←
            solution_loop fuel' baseNames rest' previous' duties1;
          Some (duties2, evs1 ++ evs2)
      end
  end.

(** [getline(solutionFile,a)] for a line that is not used *)
Definition skip_line (s : string) : string :=
  match getline s with
  | Some (_, r) => r
  | None => s
  end.

(** lines 160-242 on the content of [solution_0]: the two first lines are
    dropped, then the schedules are counted *)
Definition count_solution (baseNames : list string) (content : string)
    (duties : list (list Z)) : option (list (list Z) * list (nat * Z)) :=
  let stream := skip_line (skip_line content) in
  solution_loop (S (String.length stream)) baseNames stream EmptyString duties.

(** *** The number of days of the period (lines 95-119) *)

(** the name [instanceName/day_<day>.csv] *)
Definition dayFileName (instanceName : string) (day : nat) : string :=
  instanceName +:+ "/day_" +:+ pretty day +:+ ".csv".

(** [while(nextDay)]: [opens] tells which files can be opened; the loop
    stops at the first day file that cannot, and [fuel] bounds the number of
    its iterations ([None] when more day files than that open) *)
Fixpoint count_days (fuel : nat) (opens : string → bool)
    (instanceName : string) (numDays : nat) : option nat :=
  match fuel with
  | O => None
  | S fuel' =>
      if opens (dayFileName instanceName (numDays + 1))
      then count_days fuel' opens instanceName (S numDays)
      else Some numDays
  end.

(** ** The running maximum of the days, as the specification words it

    A day is kept when it is strictly greater than [maxDaySeen], which it
    then replaces. *)
Fixpoint emitted (maxDaySeen : Z) (days : list Z) : list Z :=
  match days with
  | [] => []
  | d :: days' =>
      if maxDaySeen <? d then d :: emitted d days' else emitted maxDaySeen days'
  end.

(** a schedule line: the tasks separated by [--->], the last one followed
    by [;] *)
Fixpoint schedule_of (task : string) (tasks : list string) : string :=
  match tasks with
  | [] => task +:+ ";"
  | task' :: tasks' => task +:+ "--->" +:+ schedule_of task' tasks'
  end.

(** what lines 225-233 make of a task: [Some d] for an airleg of day [d],
    [None] for a task that is not an airleg *)
Definition task_day (task : string) : option (option Z) :=
  airleg ← is_airleg task;
  if airleg : bool then
    task ← strip_PAL task;
    taskDay ← leg_day task;
    Some (Some taskDay)
  else Some None.

(** a task without [-] and what the loop makes of it *)
Definition task_of_day (task : string) (d : option Z) : Prop :=
  find "-" task = None ∧ task_day task = Some d.

(** the days of the airlegs of a schedule, in order *)
Definition airleg_days (days : list (option Z)) : list Z := omap id days.

(** ** Definitions used in the statements and in the proofs *)

(** the sum of the entries of a day *)
Definition total (ns : list Z) : Z := foldr Z.add 0 ns.

(** the total of a day as the specification gives it: the integer part of
    the sum of the counts with slack, plus one unless the integer part of
    the count with slack of some base exceeds its raw count *)
Definition target_as_specified (cs : list Z) (xs : list float) : option Z :=
  t ← to_int (sum_floats xs);
  fs ← mapM to_int xs;
  Some (if existsb (λ cf : Z * Z, cf.1 <? cf.2) (zip cs fs) then t else t + 1).

(** the floor of a count with slack as the specification gives it: the
    integer part of [raw × (1 + percent / 100)] in exact arithmetic, for a
    slack of [percent] percent, an integer *)
Definition floor_as_specified (raw percent : Z) : Z :=
  raw * (100 + percent) / 100.

(** the integer part of the count with slack that the program computes is
    the floor of the specification *)
Definition floor_agrees (percent raw : Z) : bool :=
  match to_int (with_slack (F32.of_int percent) raw) with
  | Some f => f =? floor_as_specified raw percent
  | None => false
  end.

(** the tie-break of the second output as the specification words it:
    the first base, in base order, whose decimal part is at least every
    decimal part *)
Fixpoint first_highest_from (j : nat) (all ds : list float) : option nat :=
  match ds with
  | [] => None
  | d :: ds' =>
      if forallb (fge d) all then Some j else first_highest_from (S j) all ds'
  end.

Definition first_highest (ds : list float) : option nat :=
  first_highest_from 0 ds ds.

(** the entries of a day, cast to [int], before and after some roundings:
    no entry has decreased and their sum has grown by [k] *)
Definition raised (k : Z) (fs fs' : list Z) : Prop :=
  Forall2 Z.le fs fs' ∧ total fs' = total fs + k.

(** the integer part of [m * 2^e] for a mantissa [0 ≤ m] *)
Definition int_part (m e : Z) : Z :=
  if e <? 0 then m / 2 ^ (- e) else m * 2 ^ e.

(** [above c x]: the float [x] is not negative and, when it is finite, it is
    at least the integer [c]; NaN and +infinity are accepted, the casts
    reject them. *)
Definition above (c : Z) (x : float) : Prop :=
  match x with
  | S754_zero _ => c ≤ 0
  | S754_finite false m e => c ≤ int_part (Z.pos m) e
  | S754_finite true _ _ => False
  | S754_infinity s => s = false
  | S754_nan => True
  end.

(** the entries of a day that the roundings can take: not negative, with an
    integer part below 2^24 *)
Definition roundable (xs : list float) : Prop :=
  Forall (λ x, above 0 x ∧ ∃ n, to_int x = Some n ∧ n < 2 ^ 24) xs.

(** a day of the first output in the range where [float] holds every
    integer: at least one base, raw counts that are not negative and below
    2^24, counts with slack that have an integer part, and a float sum whose
    integer part is below 2^23 *)
Definition day_in_range (percentSlack : float) (cs : list Z) : Prop :=
  cs ≠ []
  ∧ Forall (λ c, 0 ≤ c < 2 ^ 24) cs
  ∧ is_Some (mapM to_int (map (with_slack percentSlack) cs))
  ∧ ∃ t, to_int (sum_floats (map (with_slack percentSlack) cs)) = Some t
         ∧ t < 2 ^ 23.

(** a period of the second output in range: at least one base, averages
    whose integer parts exist and are not negative, and a rounded sum below
    2^24 *)
Definition period_in_range (percentSlack percentMainBase : float)
    (numDays : nat) (initial : list (list Z)) : Prop :=
  let st := averages_loop percentSlack numDays averages_init 0 initial in
  initial ≠ []
  ∧ ∃ (r : Z) (fs : list Z),
      roundedSumAverages (sumAverages st) = Some r
      ∧ mapM to_int (distribute percentMainBase (length initial) st) = Some fs
      ∧ Forall (λ f, 0 ≤ f) fs
      ∧ r < 2 ^ 24.

(** a key in the lexicographic order of [Z * Z * Z] that [SFcompare]
    follows on floats that are not NaN *)
Definition key (x : float) : Z * Z * Z :=
  match x with
  | S754_zero _ | S754_nan => (0, 0, 0)
  | S754_infinity false => (2, 0, 0)
  | S754_infinity true => (-2, 0, 0)
  | S754_finite false m e => (1, e, Z.pos m)
  | S754_finite true m e => (-1, - e, - Z.pos m)
  end.

Definition lex_le (a b : Z * Z * Z) : Prop :=
  a.1.1 < b.1.1
  ∨ (a.1.1 = b.1.1 ∧ (a.1.2 < b.1.2 ∨ (a.1.2 = b.1.2 ∧ a.2 ≤ b.2))).

(** [m[i][j]], when both indices are within the vectors *)
Definition entry (m : list (list Z)) (i j : nat) : option Z :=
  row ← m !! i; row !! j.

(** the number of duties that the events [evs] hold for base [i] and the
    day of index [j] (day [j + 1]) *)
Definition occurrences (i j : nat) (evs : list (nat * Z)) : Z :=
  Z.of_nat (length (filter (λ ev, ev = (i, Z.of_nat j + 1)) evs)).

(** what the loop over the tasks has done between two of its states: the
    days [new] counted for base [b], most recent first *)
Definition counted (b : nat) (new : list Z) (st st' : tasks_state) : Prop :=
  events st' = new ++ events st
  ∧ day st ≤ day st'
  ∧ Forall (λ d, day st < d ≤ day st') new
  ∧ StronglySorted (λ d d', d' < d) new
  ∧ Forall (λ d, is_Some (entry (initialDutiesPerBasePerDay st) b
                            (Z.to_nat (d - 1)))) new
  ∧ ∀ i j,
      entry (initialDutiesPerBasePerDay st') i j
      = (λ c, c + occurrences i j ((λ d, (b, d)) <$> new))
          <$> entry (initialDutiesPerBasePerDay st) i j.

(** the state of the loop over the tasks after [n] iterations that all go
    on ([next] stays true); [None] when one of them throws or is the last *)
Fixpoint tasks_after (n : nat) (baseIndex : nat) (st : tasks_state)
  : option tasks_state :=
  match n with
  | O => Some st
  | S n' =>
      match tasks_step baseIndex st with
      | Some (st', true) => tasks_after n' baseIndex st'
      | _ => None
      end
  end.

(** the loop over the schedules after [n] records read and counted: the
    stream, [schedule], the table and the events of these records *)
Fixpoint solution_after (n : nat) (baseNames : list string)
    (stream previous : string) (duties : list (list Z))
  : option (string * string * list (list Z) * list (nat * Z)) :=
  match n with
  | O => Some (stream, previous, duties, [])
  | S n' =>
      '(baseString, rest) ← read_record stream;
      '(rest', previous', duties1, evs1) ←
        solution_body baseNames baseString rest previous duties;
      '(stream', previous'', duties2, evs2) ←
        solution_after n' baseNames rest' previous' duties1;
      Some (stream', previous'', duties2, evs1 ++ evs2)
  end.

(** the number of messages and tables that a run has left *)
Definition reports (st : run_state) : nat :=
  (length (cout st) + length (written st))%nat.

(** an infinity or a NaN *)
Definition not_finite (x : float) : Prop :=
  match x with
  | S754_infinity _ | S754_nan => True
  | _ => False
  end.

(** the main base after the bases [seen]: none, with all the totals at
    most 0, or the first base whose total is the greatest *)
Definition main_base_of (seen : list (list Z)) (st : averages_state) : Prop :=
  (mainBaseIndex st = -1 ∧ mainBaseAvailability st = 0
   ∧ Forall (λ row, period_sum row ≤ 0) seen)
  ∨ ∃ (i : nat) (row : list Z),
      mainBaseIndex st = Z.of_nat i
      ∧ seen !! i = Some row
      ∧ mainBaseAvailability st = period_sum row
      ∧ 0 < period_sum row
      ∧ Forall (λ row', period_sum row' ≤ period_sum row) seen
      ∧ ∀ (k : nat) (row' : list Z),
          (k < i)%nat → seen !! k = Some row' →
          period_sum row' < period_sum row.

(** a text file with the lines [ls], each one ended by a newline *)
Fixpoint unlines (ls : list string) : string :=
  match ls with
  | [] => EmptyString
  | l :: ls' => l +:+ String newline (unlines ls')
  end.

(** [k] spaces *)
Fixpoint spaces (k : nat) : string :=
  match k with
  | O => EmptyString
  | S k' => String " " (spaces k')
  end.

(** a row of [listOfBases.csv] as the file is laid out: a blank line, or
    the name of an airport, [ , ] and the character that flags a base *)
Inductive registry_row :=
  | Blank (k : nat)
  | Airport (name : string) (flag : ascii).

Definition row_text (r : registry_row) : string :=
  match r with
  | Blank k => spaces k
  | Airport name flag => name +:+ " , " +:+ String flag EmptyString
  end.

(** the flag of a base: a digit from 1 to 9 *)
Definition is_base (flag : ascii) : bool :=
  match digit_val flag with
  | Some v => negb (v =? 0)
  | None => false
  end.

Definition bases_of (rows : list registry_row) : list string :=
  omap (λ r, match r with
             | Airport name flag => if is_base flag then Some name else None
             | Blank _ => None
             end) rows.

(** a name without space, comma or newline *)
Definition plain (s : string) : Prop :=
  find " " s = None ∧ find "," s = None ∧ find newline s = None.

Definition row_ok (r : registry_row) : Prop :=
  match r with
  | Blank _ => True
  | Airport name flag => plain name ∧ flag ≠ newline
  end.

Fixpoint no_space (s : string) : bool :=
  match s with
  | EmptyString => true
  | String c s' => negb (is_space c) && no_space s'
  end.

(** a word as [>>] reads it: not empty, without white space *)
Definition word (w : string) : Prop := w ≠ EmptyString ∧ no_space w = true.

(** the line of [solution_0] for an employee, in the format of the comment
    of lines 150-159 *)
Definition record_text (rec : string * employee) : string :=
  "schedule 1 " +:+ rec.1 +:+ " " +:+ baseString rec.2 +:+ " :" +:+ line rec.2.

Definition record_ok (rec : string * employee) : Prop :=
  word rec.1 ∧ word (baseString rec.2)
  ∧ find newline (line rec.2) = None
  ∧ match line rec.2 with
    | EmptyString => True
    | String c _ => is_space c = true
    end.

(** ** Sample inputs *)

Module Sample.
(** three employees of the one base of the instance, each on duty on
    days 1 and 3 *)
Definition crew : list employee :=
  replicate 3 {| baseString := "(BASE1)";
                 line := " LEG_01_00960_0--->LEG_03_00961_0;" |}.

Definition one_base : instance :=
  {| name := "one_base"; listOfBases := Some ["BASE1"]; dayFiles := 3;
     solution_0 := Some crew; output_opens := true |}.

Definition no_registry : instance :=
  {| name := "no_registry"; listOfBases := None; dayFiles := 3;
     solution_0 := Some crew; output_opens := true |}.

Definition no_solution : instance :=
  {| name := "no_solution"; listOfBases := Some ["BASE1"]; dayFiles := 3;
     solution_0 := None; output_opens := true |}.

Definition ten_percent : float := F32.of_int 10.
Definition all_to_main : float := F32.of_int 100.
Definition half_to_main : float := F32.of_int 50.
Definition no_rand : random := λ _, 0%nat.

(** tasks after a first airleg of day 1: airlegs flown on days 1, 2, 2, 2
    and 3, with a deadhead and a vacation between them *)
Definition more_tasks : list string :=
  ["LEG_01_00961_0"; "TDH_01_00777_0"; "LEG_02_00962_0"; "PAL_LEG_02_00963_0";
   "VACATION"; "LEG_02_00964_0"; "LEG_03_00965_0"].

(** a schedule whose days are 1, 3 and 2, in this order *)
Definition out_of_order : employee :=
  {| baseString := "(BASE1)";
     line := " LEG_01_00960_0--->LEG_03_00961_0--->LEG_02_00962_0;" |}.

(** a schedule with a deadhead, a vacation and a post only *)
Definition no_airleg : employee :=
  {| baseString := "(BASE1)"; line := " TDH_X--->VACATION--->POST_Y;" |}.

(** two bases on one day, with 8 and 2 duties, and the table after the
    first output with 10% of slack *)
Definition duties_8_2 : list (list Z) := [[8]; [2]].
Definition rounded_8_2 : list (list float) := [[F32.of_int 9]; [F32.of_int 3]].

(** 10 duties and none: with 10% of slack the first base has 11 *)
Definition duties_10_0 : list (list Z) := [[10]; [0]].

(** one day of a large base and 24 small ones, with 212% of slack *)
Definition percent_212 : float := F32.of_int 212.
Definition duties_300000_8 : list (list Z) := [300000] :: replicate 24 [8].

(** two bases on two days; all the duties are on the first day *)
Definition duties_one_day : list (list Z) := [[10; 0]; [0; 0]].

(** three bases on one day; the two smaller bases tie *)
Definition duties_7_2_2 : list (list Z) := [[7]; [2]; [2]].

Definition three_bases : instance :=
  {| name := "three_bases"; listOfBases := Some ["BASE1"; "BASE2"; "BASE3"];
     dayFiles := 1; solution_0 := Some []; output_opens := true |}.

(** a schedule whose second airleg has no digit at the place of its day *)
Definition day_without_digit : employee :=
  {| baseString := "(BASE1)";
     line := " LEG_01_00960_0--->LEG_xx_00961_0--->LEG_03_00962_0;" |}.
End Sample.

(** * Properties *)

(** ** Strings *)

Lemma substring_all (s : string) (n : nat) :
  (String.length s ≤ n)%nat → String.substring 0 n s = s.
Proof.
  revert n. induction s as [|c s IH]; intros [|n] Hn; simpl in *; try done; try lia.
  f_equal. apply IH. lia.
Qed.

Lemma substring_skip (a b : string) (n : nat) :
  String.substring (String.length a) n (a +:+ b) = String.substring 0 n b.
Proof. induction a as [|c a IH]; simpl; [done|]. apply IH. Qed.

Lemma substring_prefix (a b : string) :
  String.substring 0 (String.length a) (a +:+ b) = a.
Proof.
  induction a as [|c a IH]; simpl.
  - by destruct b.
  - by rewrite IH.
Qed.

Lemma length_append (a b : string) :
  String.length (a +:+ b) = (String.length a + String.length b)%nat.
Proof. induction a as [|c a IH]; simpl; [done|]. by rewrite IH. Qed.

Lemma substr_prefix (a b : string) (n : nat) :
  n = String.length a → substr (a +:+ b) 0 n = Some a.
Proof. intros ->. unfold substr. simpl. by rewrite substring_prefix. Qed.

Lemma substr_from_suffix (a b : string) (n : nat) :
  n = String.length a → substr_from (a +:+ b) n = Some b.
Proof.
  intros ->. unfold substr_from, substr. rewrite length_append.
  destruct (Nat.leb_spec (String.length a) (String.length a + String.length b)); [|lia].
  rewrite substring_skip, substring_all; [done|lia].
Qed.

Lemma find_append (c : ascii) (a b : string) :
  find c a = None → find c (a +:+ b) = (λ n, (String.length a + n)%nat) <$> find c b.
Proof.
  induction a as [|x a IH].
  - intros _. change (EmptyString +:+ b) with b. destruct (find c b); reflexivity.
  - change (String x a +:+ b) with (String x (a +:+ b)). simpl.
    destruct (Ascii.eqb x c); [done|].
    destruct (find c a) eqn:Ha; [done|]. intros _.
    rewrite IH by done. destruct (find c b); reflexivity.
Qed.

(** ** The classification of the tasks *)

Lemma count_task_vacation baseIndex st :
  count_task baseIndex "VACATION" st = Some st.
Proof. reflexivity. Qed.

Lemma count_task_post baseIndex st (s : string) :
  count_task baseIndex ("POST" +:+ s) st = Some st.
Proof.
  unfold count_task, is_airleg. rewrite (substr_prefix "POST" _ 4) by done.
  change ("POST" +:+ s) with ("POS" +:+ ("T" +:+ s)).
  by rewrite (substr_prefix "POS" _ 3).
Qed.

Lemma count_task_deadhead baseIndex st (s : string) :
  count_task baseIndex ("TDH" +:+ s) st = Some st.
Proof.
  unfold count_task, is_airleg. rewrite (substr_prefix "TDH" _ 3) by done.
  unfold substr. by simpl.
Qed.

Lemma count_task_preferred baseIndex st (s : string) :
  count_task baseIndex ("PAL_" +:+ s) st = count_leg baseIndex s st.
Proof.
  unfold count_task, is_airleg, strip_PAL.
  rewrite (substr_prefix "PAL_" _ 4) by done.
  change ("PAL_" +:+ s) with ("PAL" +:+ ("_" +:+ s)).
  rewrite (substr_prefix "PAL" _ 3) by done.
  change ("PAL" +:+ ("_" +:+ s)) with ("PAL_" +:+ s).
  by rewrite (substr_from_suffix "PAL_" s 4).
Qed.

Lemma digit_val_plain (c : ascii) (v : Z) :
  digit_val c = Some v →
  is_space c = false ∧ Ascii.eqb c "-" = false ∧ Ascii.eqb c "+" = false
  ∧ 0 ≤ v ≤ 9.
Proof.
  destruct c as [[] [] [] [] [] [] [] []]; vm_compute; intros [= <-];
    repeat split; congruence.
Qed.

Lemma leg_day_digits (p rest : string) (c1 c2 : ascii) (v1 v2 : Z) :
  String.length p = 4%nat →
  digit_val c1 = Some v1 → digit_val c2 = Some v2 →
  leg_day (p +:+ String c1 (String c2 rest)) = Some (10 * v1 + v2).
Proof.
  intros Hp H1 H2. unfold leg_day, substr.
  rewrite length_append, Hp. simpl.
  rewrite <- Hp, substring_skip. simpl.
  replace (String.substring 0 0 rest) with EmptyString by (by destruct rest).
  destruct (digit_val_plain _ _ H1) as (Hs1 & Hm1 & Hp1 & _).
  unfold read_int, leading_int. simpl. rewrite Hs1, Hm1, Hp1, H1. simpl.
  rewrite H2. done.
Qed.

(** ** The loop over the tasks *)

Lemma append_assoc (a b c : string) : (a +:+ b) +:+ c = a +:+ (b +:+ c).
Proof.
  induction a as [|x a IH]; [done|].
  change (String x ((a +:+ b) +:+ c) = String x (a +:+ (b +:+ c))).
  by rewrite IH.
Qed.

Lemma substring_length (s : string) (n m : nat) :
  (String.length (String.substring n m s) ≤ String.length s - n)%nat.
Proof.
  revert n m. induction s as [|c s IH]; intros [|n] [|m]; simpl; try lia.
  - specialize (IH 0%nat m). lia.
  - apply IH.
  - apply IH.
Qed.

Lemma count_day_schedule baseIndex d st st' :
  count_day baseIndex d st = Some st' → schedule st' = schedule st.
Proof.
  unfold count_day. destruct (day st <? d); [|by intros [= <-]].
  destruct (incr _ _ _); simpl; [|done]. by intros [= <-].
Qed.

Lemma count_task_schedule baseIndex task st st' :
  count_task baseIndex task st = Some st' → schedule st' = schedule st.
Proof.
  unfold count_task, count_leg.
  destruct (is_airleg task) as [[]|]; simpl; try done; [|by intros [= <-]].
  destruct (strip_PAL task) as [task'|]; simpl; [|done].
  destruct (leg_day task') as [d|]; simpl; [|done].
  apply count_day_schedule.
Qed.

Lemma tasks_step_shorter baseIndex st st' :
  tasks_step baseIndex st = Some (st', true) →
  (String.length (schedule st') + 4 ≤ String.length (schedule st))%nat.
Proof.
  unfold tasks_step. destruct (find "-" (schedule st)) as [pos|].
  - destruct (substr (schedule st) 0 pos) as [task|]; simpl; [|done].
    unfold substr_from, substr.
    destruct (Nat.leb_spec (pos + 4) (String.length (schedule st))); simpl; [|done].
    destruct (count_task _ _ _) as [st1|] eqn:H1; simpl; [|done].
    intros [= <-]. apply count_task_schedule in H1. rewrite H1. simpl.
    pose proof (substring_length (schedule st) (pos + 4)
                  (String.length (schedule st))). lia.
  - destruct (substr _ _ _); simpl; [|done].
    destruct (count_task _ _ _); simpl; done.
Qed.

(** [S (length schedule)] iterations are enough: more fuel does not change
    the result. *)
Lemma tasks_loop_fuel baseIndex (n : nat) :
  ∀ st fuel,
    (String.length (schedule st) ≤ n)%nat →
    (String.length (schedule st) < fuel)%nat →
    tasks_loop fuel baseIndex st
    = tasks_loop (S (String.length (schedule st))) baseIndex st.
Proof.
  induction n as [|n IH]; intros st fuel Hn Hfuel.
  - destruct fuel as [|fuel]; [lia|]. simpl.
    destruct (tasks_step baseIndex st) as [[st' []]|] eqn:Hstep; try done.
    apply tasks_step_shorter in Hstep. lia.
  - destruct fuel as [|fuel]; [lia|]. simpl.
    destruct (tasks_step baseIndex st) as [[st' []]|] eqn:Hstep; try done.
    apply tasks_step_shorter in Hstep.
    rewrite (IH st' fuel) by lia.
    by rewrite (IH st' (String.length (schedule st))) by lia.
Qed.

Lemma count_task_day baseIndex task (d : option Z) st :
  task_day task = Some d →
  count_task baseIndex task st
  = match d with Some d => count_day baseIndex d st | None => Some st end.
Proof.
  unfold task_day, count_task, count_leg.
  destruct (is_airleg task) as [[]|]; simpl; [| |done].
  - destruct (strip_PAL task) as [task'|]; simpl; [|done].
    destruct (leg_day task') as [d'|]; simpl; [|done]. by intros [= <-].
  - by intros [= <-].
Qed.

Lemma incr_row (v : list (list Z)) (i j : nat) (row : list Z) :
  v !! i = Some row → (j < length row)%nat →
  ∃ v' row', incr v i j = Some v' ∧ v' !! i = Some row'
             ∧ length row' = length row.
Proof.
  intros Hrow Hj. unfold incr. rewrite Hrow. simpl.
  destruct (lookup_lt_is_Some_2 row j Hj) as [c Hc]. rewrite Hc. simpl.
  eexists _, _. split; [done|]. split.
  - apply list_lookup_insert_eq. by eapply lookup_lt_Some.
  - by rewrite length_insert.
Qed.

Lemma count_day_emitted baseIndex d st (row : list Z) :
  initialDutiesPerBasePerDay st !! baseIndex = Some row →
  0 ≤ day st → d ≤ Z.of_nat (length row) →
  ∃ st' row',
    count_day baseIndex d st = Some st'
    ∧ schedule st' = schedule st
    ∧ day st' = (if day st <? d then d else day st)
    ∧ events st' = (if day st <? d then d :: events st else events st)
    ∧ initialDutiesPerBasePerDay st' !! baseIndex = Some row'
    ∧ length row' = length row.
Proof.
  intros Hrow Hday Hd. unfold count_day.
  destruct (Z.ltb_spec (day st) d) as [Hlt|Hge].
  - destruct (incr_row _ baseIndex (Z.to_nat (d - 1)) row Hrow)
      as (v' & row' & -> & Hrow' & Hlen); [lia|].
    simpl. eexists _, row'. by repeat split.
  - exists st, row. by repeat split.
Qed.

Lemma tasks_step_last baseIndex st (task : string) :
  find "-" task = None →
  schedule st = task +:+ ";" →
  tasks_step baseIndex st
  = (st' ← count_task baseIndex task st; Some (st', false)).
Proof.
  intros Hdash Hsched. unfold tasks_step.
  rewrite Hsched, (find_append _ _ _ Hdash).
  change (find "-" ";") with (@None nat).
  cbn [fmap option_fmap option_map].
  rewrite substr_prefix; [done|]. rewrite length_append. simpl. lia.
Qed.

Lemma tasks_step_next baseIndex st (task rest : string) :
  find "-" task = None →
  schedule st = task +:+ "--->" +:+ rest →
  tasks_step baseIndex st
  = (st' ← count_task baseIndex task
             {| schedule := rest; day := day st;
                initialDutiesPerBasePerDay := initialDutiesPerBasePerDay st;
                events := events st |};
     Some (st', true)).
Proof.
  intros Hdash Hsched. unfold tasks_step.
  rewrite Hsched, (find_append _ _ _ Hdash).
  change (find "-" ("--->" +:+ rest)) with (Some 0%nat).
  cbn [fmap option_fmap option_map].
  rewrite substr_prefix by lia. cbn [mbind option_bind].
  rewrite <- append_assoc.
  rewrite substr_from_suffix; [done|]. rewrite length_append. simpl. lia.
Qed.

Lemma tasks_loop_schedule_of baseIndex :
  ∀ (tasks : list string) (task : string) (days : list (option Z))
    (fuel : nat) (st : tasks_state) (row : list Z),
    Forall2 task_of_day (task :: tasks) days →
    schedule st = schedule_of task tasks →
    0 ≤ day st →
    initialDutiesPerBasePerDay st !! baseIndex = Some row →
    Forall (λ d, d ≤ Z.of_nat (length row)) (airleg_days days) →
    (length tasks < fuel)%nat →
    ∃ st',
      tasks_loop fuel baseIndex st = Some st'
      ∧ rev (events st')
        = rev (events st) ++ emitted (day st) (airleg_days days).
Proof.
  assert (∀ (d : option Z) (days : list (option Z)) (st : tasks_state)
            (row : list Z),
    0 ≤ day st →
    initialDutiesPerBasePerDay st !! baseIndex = Some row →
    Forall (λ d, d ≤ Z.of_nat (length row)) (airleg_days (d :: days)) →
    ∃ st1 row1,
      match d with Some d => count_day baseIndex d st | None => Some st end
      = Some st1
      ∧ schedule st1 = schedule st ∧ 0 ≤ day st1
      ∧ initialDutiesPerBasePerDay st1 !! baseIndex = Some row1
      ∧ length row1 = length row
      ∧ Forall (λ d, d ≤ Z.of_nat (length row)) (airleg_days days)
      ∧ rev (events st) ++ emitted (day st) (airleg_days (d :: days))
        = rev (events st1) ++ emitted (day st1) (airleg_days days)) as Hone.
  { intros [d|] days st row Hday Hrow Hdays; unfold airleg_days in *;
      simpl in *.
    - apply Forall_cons in Hdays as [Hd_le Hdays].
      destruct (count_day_emitted baseIndex d st row Hrow Hday Hd_le)
        as (st1 & row1 & -> & Hs1 & Hd1 & Hev1 & Hrow1 & Hlen1).
      exists st1, row1. rewrite Hd1, Hev1.
      destruct (Z.ltb_spec (day st) d); simpl; repeat split; try done; try lia.
      by rewrite <- app_assoc.
    - by exists st, row. }
  induction tasks as [|task' tasks IH];
    intros task days fuel st row Htasks Hsched Hday Hrow Hdays Hfuel;
    (destruct fuel as [|fuel]; [simpl in Hfuel; lia|]);
    apply Forall2_cons_inv_l in Htasks
      as (d & days' & (Hdash & Hd) & Htasks & ->).
  - apply Forall2_nil_inv_l in Htasks as ->.
    cbn [tasks_loop]. rewrite (tasks_step_last _ _ task) by done.
    rewrite (count_task_day _ _ _ _ Hd).
    destruct (Hone d [] st row Hday Hrow Hdays)
      as (st1 & row1 & -> & _ & _ & _ & _ & _ & Hev).
    exists st1. split; [done|]. rewrite Hev. unfold airleg_days.
    simpl. by rewrite app_nil_r.
  - cbn [tasks_loop].
    rewrite (tasks_step_next _ _ task (schedule_of task' tasks)) by done.
    rewrite (count_task_day _ _ _ _ Hd).
    set (st0 := {| schedule := schedule_of task' tasks; day := day st;
                   initialDutiesPerBasePerDay := initialDutiesPerBasePerDay st;
                   events := events st |}).
    destruct (Hone d days' st0 row Hday Hrow Hdays)
      as (st1 & row1 & -> & Hs1 & Hd1 & Hrow1 & Hlen1 & Hdays' & Hev).
    cbn [mbind option_bind].
    destruct (IH task' days' fuel st1 row1) as (st' & Hloop & Hev');
      try done.
    + by rewrite Hlen1.
    + simpl in Hfuel. lia.
    + exists st'. split; [done|]. rewrite Hev'. by rewrite <- Hev.
Qed.

Lemma schedule_of_length (tasks : list string) :
  ∀ task, (length tasks < String.length (schedule_of task tasks))%nat.
Proof.
  induction tasks as [|task' tasks IH]; intros task; simpl.
  - rewrite length_append. simpl. lia.
  - rewrite !length_append. specialize (IH task'). simpl. lia.
Qed.

(** ** What the loop over the tasks adds to the table *)

Lemma entry_incr (m m' : list (list Z)) (i j : nat) :
  incr m i j = Some m' →
  ∀ i' j',
    entry m' i' j'
    = (λ c, c + (if bool_decide (i' = i ∧ j' = j) then 1 else 0))
        <$> entry m i' j'.
Proof.
  unfold incr. intros H i' j'.
  destruct (m !! i) as [row|] eqn:Hrow; simpl in H; [|done].
  destruct (row !! j) as [c|] eqn:Hc; simpl in H; [|done].
  injection H as <-. unfold entry.
  pose proof (lookup_lt_Some _ _ _ Hrow) as Hi.
  pose proof (lookup_lt_Some _ _ _ Hc) as Hj.
  destruct (decide (i' = i)) as [->|Hne].
  - rewrite list_lookup_insert_eq by done. rewrite Hrow. simpl.
    destruct (decide (j' = j)) as [->|Hne].
    + rewrite list_lookup_insert_eq by done. rewrite Hc. simpl.
      by rewrite bool_decide_eq_true_2.
    + rewrite list_lookup_insert_ne by done.
      rewrite bool_decide_eq_false_2 by (intros [_ ?]; done).
      destruct (row !! j'); simpl; [f_equal; lia|done].
  - rewrite list_lookup_insert_ne by done.
    rewrite bool_decide_eq_false_2 by (intros [? _]; done).
    destruct (m !! i'); simpl; [|done].
    destruct (_ !! j'); simpl; [f_equal; lia|done].
Qed.

Lemma occurrences_app (i j : nat) (evs1 evs2 : list (nat * Z)) :
  occurrences i j (evs1 ++ evs2) = occurrences i j evs1 + occurrences i j evs2.
Proof. unfold occurrences. rewrite filter_app, length_app. lia. Qed.

Lemma occurrences_nil (i j : nat) : occurrences i j [] = 0.
Proof. reflexivity. Qed.

Lemma occurrences_one (i j b : nat) (d : Z) :
  1 ≤ d →
  occurrences i j [(b, d)]
  = if bool_decide (i = b ∧ j = Z.to_nat (d - 1)) then 1 else 0.
Proof.
  intros Hd. unfold occurrences. rewrite filter_cons, filter_nil.
  destruct (decide ((b, d) = (i, Z.of_nat j + 1))) as [[= -> ->]|Hne].
  - rewrite bool_decide_eq_true_2; [done|]. split; [done|lia].
  - rewrite bool_decide_eq_false_2; [done|].
    intros [-> ->]. apply Hne. f_equal. lia.
Qed.

Lemma occurrences_rev (i j : nat) (evs : list (nat * Z)) :
  occurrences i j (rev evs) = occurrences i j evs.
Proof.
  induction evs as [|ev evs IH]; [done|]. simpl.
  rewrite occurrences_app, IH.
  change (ev :: evs) with ([ev] ++ evs). rewrite occurrences_app. lia.
Qed.

Lemma counted_refl (b : nat) (st st' : tasks_state) :
  events st' = events st → day st' = day st →
  initialDutiesPerBasePerDay st' = initialDutiesPerBasePerDay st →
  counted b [] st st'.
Proof.
  intros He Hd Ht. unfold counted. rewrite He, Hd, Ht.
  split; [done|]. split; [lia|]. split; [constructor|].
  split; [constructor|]. split; [constructor|]. intros i j. simpl.
  destruct (entry _ i j); simpl; [f_equal|done].
  rewrite occurrences_nil. lia.
Qed.

Lemma counted_trans (b : nat) (n1 n2 : list Z) (st st1 st2 : tasks_state) :
  counted b n1 st st1 → counted b n2 st1 st2 → counted b (n2 ++ n1) st st2.
Proof.
  intros (He1 & Hd1 & Hr1 & Hs1 & Hi1 & Ht1) (He2 & Hd2 & Hr2 & Hs2 & Hi2 & Ht2).
  split; [by rewrite He2, He1, app_assoc|]. split; [lia|].
  split; [|split; [|split]].
  - apply Forall_app. split.
    + eapply Forall_impl; [exact Hr2|]. simpl. lia.
    + eapply Forall_impl; [exact Hr1|]. simpl. lia.
  - apply StronglySorted_app_2; [|done|done].
    intros d2 d1 H2 H1.
    pose proof (proj1 (Forall_forall _ _) Hr2 d2 H2) as Hb2.
    pose proof (proj1 (Forall_forall _ _) Hr1 d1 H1) as Hb1.
    simpl in *. lia.
  - apply Forall_app. split; [|done].
    eapply Forall_impl; [exact Hi2|]. simpl. intros d. rewrite Ht1.
    by rewrite fmap_is_Some.
  - intros i j. rewrite Ht2, Ht1, fmap_app, occurrences_app.
    destruct (entry _ i j); simpl; [f_equal; lia|done].
Qed.

Lemma count_day_counted (b : nat) (d : Z) (st st' : tasks_state) :
  count_day b d st = Some st' → 0 ≤ day st →
  ∃ new, counted b new st st' ∧ schedule st' = schedule st.
Proof.
  unfold count_day. intros H Hday.
  destruct (Z.ltb_spec (day st) d) as [Hlt|Hge].
  - destruct (incr _ b _) as [m|] eqn:Hm; simpl in H; [|done].
    injection H as <-. exists [d]. split; [|done].
    split; [done|]. simpl. split; [lia|]. split; [|split; [|split]].
    + repeat constructor; lia.
    + repeat constructor.
    + repeat constructor. unfold incr in Hm. unfold entry.
      destruct (_ !! b) as [row|]; simpl in *; [|done].
      destruct (row !! _); simpl in *; [eauto|done].
    + intros i j. rewrite (entry_incr _ _ _ _ Hm).
      rewrite occurrences_one by lia.
      destruct (entry _ i j); simpl; done.
  - injection H as <-. exists []. split; [|done]. by apply counted_refl.
Qed.

Lemma count_task_counted (b : nat) (task : string) (st st' : tasks_state) :
  count_task b task st = Some st' → 0 ≤ day st →
  ∃ new, counted b new st st' ∧ schedule st' = schedule st.
Proof.
  unfold count_task, count_leg. intros H Hday.
  destruct (is_airleg task) as [[]|]; simpl in H; [| |done].
  - destruct (strip_PAL task) as [task'|]; simpl in H; [|done].
    destruct (leg_day task') as [d|]; simpl in H; [|done].
    by eapply count_day_counted.
  - injection H as <-. exists []. split; [|done]. by apply counted_refl.
Qed.

Lemma tasks_step_counted (b : nat) (st st' : tasks_state) (next : bool) :
  tasks_step b st = Some (st', next) → 0 ≤ day st →
  ∃ new, counted b new st st'.
Proof.
  unfold tasks_step. intros H Hday.
  destruct (find "-" (schedule st)) as [pos|].
  - destruct (substr _ 0 pos) as [task|]; simpl in H; [|done].
    destruct (substr_from _ _) as [rest|]; simpl in H; [|done].
    destruct (count_task b task _) as [st1|] eqn:H1; simpl in H; [|done].
    injection H as <- <-.
    destruct (count_task_counted _ _ _ _ H1 Hday) as (new & Hc & _).
    exists new. exact Hc.
  - destruct (substr _ 0 _) as [task|]; simpl in H; [|done].
    destruct (count_task b task st) as [st1|] eqn:H1; simpl in H; [|done].
    injection H as <- <-.
    destruct (count_task_counted _ _ _ _ H1 Hday) as (new & Hc & _).
    by exists new.
Qed.

(** whatever the schedule holds, a loop over the tasks that ends has counted
    days that increase strictly, each of them once *)
Lemma tasks_loop_counted (b : nat) (fuel : nat) :
  ∀ st st',
    tasks_loop fuel b st = Some st' → 0 ≤ day st →
    ∃ new, counted b new st st'.
Proof.
  induction fuel as [|fuel IH]; intros st st' H Hday; [done|].
  simpl in H.
  destruct (tasks_step b st) as [[st1 next]|] eqn:Hstep; [|done].
  destruct (tasks_step_counted _ _ _ _ Hstep Hday) as (n1 & Hc1).
  destruct next.
  - destruct (IH st1 st' H) as (n2 & Hc2).
    { destruct Hc1 as (_ & ? & _). lia. }
    exists (n2 ++ n1). by eapply counted_trans.
  - injection H as <-. by exists n1.
Qed.

Lemma occurrences_NoDup (i j : nat) (evs : list (nat * Z)) :
  NoDup evs →
  occurrences i j evs
  = if bool_decide ((i, Z.of_nat j + 1) ∈ evs) then 1 else 0.
Proof.
  induction 1 as [|ev evs Hev _ IH].
  - rewrite bool_decide_eq_false_2; [done|]. apply not_elem_of_nil.
  - change (ev :: evs) with ([ev] ++ evs). rewrite occurrences_app, IH.
    unfold occurrences at 1. rewrite filter_cons, filter_nil.
    destruct (decide (ev = (i, Z.of_nat j + 1))) as [->|Hne]; simpl.
    + rewrite (bool_decide_eq_false_2 _ Hev).
      rewrite bool_decide_eq_true_2; [done|]. left.
    + destruct (decide ((i, Z.of_nat j + 1) ∈ evs)) as [Hin|Hout].
      * rewrite !bool_decide_eq_true_2; [done| |done]. by right.
      * rewrite !bool_decide_eq_false_2; [done| |done].
        intros [Heq|Hin]%elem_of_cons; [by apply Hne|by apply Hout].
Qed.

Lemma elem_of_rev {A : Type} (x : A) (l : list A) : x ∈ rev l ↔ x ∈ l.
Proof. rewrite !list_elem_of_In. symmetry. apply in_rev. Qed.

Lemma count_day_cases baseIndex d st st' :
  count_day baseIndex d st = Some st' →
  (day st < d ∧ day st' = d ∧ events st' = d :: events st
   ∧ incr (initialDutiesPerBasePerDay st) baseIndex (Z.to_nat (d - 1))
     = Some (initialDutiesPerBasePerDay st'))
  ∨ (d ≤ day st ∧ st' = st).
Proof.
  unfold count_day. destruct (Z.ltb_spec (day st) d) as [Hlt|Hge].
  - destruct (incr _ _ _) as [m|] eqn:Hm; simpl; [|done]. intros [= <-].
    left. by repeat split.
  - intros [= <-]. by right.
Qed.

Lemma decreasing_NoDup (days : list Z) :
  StronglySorted (λ d d', d' < d) days → NoDup days.
Proof.
  induction 1 as [|d days _ IH Hd]; constructor; [|done].
  intros Hin. pose proof (proj1 (Forall_forall _ _) Hd d Hin) as Hlt.
  simpl in Hlt. lia.
Qed.

(** the entries of the table after the loop over the tasks, from the days
    that the loop has counted *)
Lemma tasks_loop_table (b : nat) (fuel : nat) (st st' : tasks_state) :
  tasks_loop fuel b st = Some st' → 0 ≤ day st → events st = [] →
  ∀ i j,
    entry (initialDutiesPerBasePerDay st') i j
    = (λ c, if bool_decide (i = b ∧ Z.of_nat j + 1 ∈ rev (events st'))
            then c + 1 else c)
        <$> entry (initialDutiesPerBasePerDay st) i j.
Proof.
  intros Hloop Hday Hev i j.
  destruct (tasks_loop_counted _ _ _ _ Hloop Hday)
    as (new & He & _ & _ & Hs & _ & Ht).
  rewrite Hev, app_nil_r in He. rewrite He, Ht.
  rewrite occurrences_NoDup.
  - destruct (entry _ i j) as [c|]; simpl; [|done]. f_equal.
    destruct (decide (i = b ∧ Z.of_nat j + 1 ∈ rev new)) as [[-> Hin]|Hout].
    + rewrite !bool_decide_eq_true_2; [done|done|].
      apply list_elem_of_fmap. exists (Z.of_nat j + 1). split; [done|].
      by apply (proj1 (elem_of_rev _ _)).
    + rewrite !bool_decide_eq_false_2; [lia|done|].
      intros (d & [= Hi Hd] & Hin)%list_elem_of_fmap. apply Hout.
      split; [done|]. rewrite Hd. by apply (proj2 (elem_of_rev _ _)).
  - apply NoDup_fmap_2; [|by apply decreasing_NoDup].
    intros d1 d2 [= ->]. done.
Qed.

(** C3. The tasks of an employee are taken in the order of the schedule,
    with [day] starting at 0: a duty is counted for a task exactly when it
    is an airleg whose day is strictly greater than [day], which then becomes
    that day, and counting it is [initialDutiesPerBasePerDay[baseIndex]
    [taskDay-1]++].  The days counted are those the running maximum of the
    specification keeps of the days of the airlegs, and the table changes
    by them only: the entry of the base of the employee is one more for
    each of these days, every other entry is as before.  Days 1,1,2,2,2,3
    give three duties and days 1,3,2 give the duties of days 1 and 3,
    without any failure. *)
Theorem duty_events_follow_running_max baseIndex (duties : list (list Z))
    (row : list Z) (task : string) (tasks : list string)
    (days : list (option Z)) :
  Forall2 task_of_day (task :: tasks) days →
  duties !! baseIndex = Some row →
  Forall (λ d, d ≤ Z.of_nat (length row)) (airleg_days days) →
  (∃ st',
     tasks_loop (S (String.length (schedule_of task tasks))) baseIndex
       {| schedule := schedule_of task tasks; day := 0;
          initialDutiesPerBasePerDay := duties; events := [] |} = Some st'
     ∧ rev (events st') = emitted 0 (airleg_days days)
     ∧ ∀ i j,
         entry (initialDutiesPerBasePerDay st') i j
         = (λ c, if bool_decide
                      (i = baseIndex
                       ∧ Z.of_nat j + 1 ∈ emitted 0 (airleg_days days))
                 then c + 1 else c)
             <$> entry duties i j)
  ∧ (∀ d st st', count_day baseIndex d st = Some st' →
       (day st < d ∧ day st' = d ∧ events st' = d :: events st
        ∧ incr (initialDutiesPerBasePerDay st) baseIndex (Z.to_nat (d - 1))
          = Some (initialDutiesPerBasePerDay st'))
       ∨ (d ≤ day st ∧ st' = st))
  ∧ emitted 0 [1; 1; 2; 2; 2; 3] = [1; 2; 3]
  ∧ emitted 0 [1; 3; 2] = [1; 3].
Proof.
  intros Htasks Hrow Hdays. split; [|split; [|done]].
  - destruct (tasks_loop_schedule_of baseIndex tasks task days
                (S (String.length (schedule_of task tasks)))
                {| schedule := schedule_of task tasks; day := 0;
                   initialDutiesPerBasePerDay := duties; events := [] |} row)
      as (st' & Hloop & Hev); try done.
    + pose proof (schedule_of_length tasks task). lia.
    + exists st'. split; [done|]. split; [done|].
      intros i j. simpl in Hev. rewrite <- Hev.
      by apply (tasks_loop_table _ _ _ _ Hloop).
  - intros d st st'. apply count_day_cases.
Qed.

Lemma duty_events_follow_running_max_witness :
  ∃ st',
    tasks_loop
      (S (String.length (schedule_of "LEG_01_00959_0" Sample.more_tasks))) 0
      {| schedule := schedule_of "LEG_01_00959_0" Sample.more_tasks; day := 0;
         initialDutiesPerBasePerDay := [[0; 0; 0; 0]; [5; 5; 5; 5]];
         events := [] |} = Some st'
    ∧ rev (events st') = [1; 2; 3]
    ∧ entry (initialDutiesPerBasePerDay st') 0 2 = Some 1
    ∧ entry (initialDutiesPerBasePerDay st') 0 3 = Some 0
    ∧ entry (initialDutiesPerBasePerDay st') 1 2 = Some 5.
Proof.
  destruct (duty_events_follow_running_max 0 [[0; 0; 0; 0]; [5; 5; 5; 5]]
              [0; 0; 0; 0] "LEG_01_00959_0" Sample.more_tasks
              [Some 1; Some 1; None; Some 2; Some 2; None; Some 2; Some 3])
    as [(st' & Hloop & Hev & Ht) _].
  - repeat constructor.
  - reflexivity.
  - repeat constructor; simpl; lia.
  - exists st'. split; [exact Hloop|]. split; [exact Hev|].
    split; [exact (Ht 0%nat 2%nat)|].
    split; [exact (Ht 0%nat 3%nat) | exact (Ht 1%nat 2%nat)].
Defined.

(** the two schedules of the specification, through the whole of the loop
    body for an employee *)
Lemma days_1_3_2_count_two_duties :
  count_employee ["BASE0"; "BASE1"] Sample.out_of_order (zero_duties 2 3)
  = Some ([[0; 0; 0]; [1; 0; 1]], [(1%nat, 1); (1%nat, 3)]).
Proof. reflexivity. Qed.

Lemma no_airleg_counts_nothing :
  count_employee ["BASE0"; "BASE1"] Sample.no_airleg (zero_duties 2 3)
  = Some ([[0; 0; 0]; [0; 0; 0]], []).
Proof. reflexivity. Qed.

(** an airleg without digit at the place of its day has day 0: no duty is
    counted for it and the loop goes on *)
Lemma day_without_digit_counts_nothing :
  leg_day "LEG_xx_00961_0" = Some 0
  ∧ count_employee ["BASE1"] Sample.day_without_digit (zero_duties 1 3)
    = Some ([[1; 0; 1]], [(0%nat, 1); (0%nat, 3)]).
Proof. split; reflexivity. Qed.

(** C7. A task that is [VACATION], or starts with [POST] or with [TDH],
    leaves the state as it is: no duty is counted.  A task that starts with
    [PAL_] loses these four characters and is counted as an airleg; the day
    of an airleg is the number written at its characters 4 and 5. *)
Theorem task_classification baseIndex st (s p rest : string) (c1 c2 : ascii)
    (v1 v2 : Z) :
  String.length p = 4%nat →
  digit_val c1 = Some v1 → digit_val c2 = Some v2 →
  count_task baseIndex "VACATION" st = Some st
  ∧ count_task baseIndex ("POST" +:+ s) st = Some st
  ∧ count_task baseIndex ("TDH" +:+ s) st = Some st
  ∧ count_task baseIndex ("PAL_" +:+ s) st = count_leg baseIndex s st
  ∧ count_leg baseIndex (p +:+ String c1 (String c2 rest)) st
    = count_day baseIndex (10 * v1 + v2) st.
Proof.
  intros Hp H1 H2. split; [apply count_task_vacation|].
  split; [apply count_task_post|]. split; [apply count_task_deadhead|].
  split; [apply count_task_preferred|].
  unfold count_leg. by rewrite (leg_day_digits p rest c1 c2 v1 v2).
Qed.

Lemma task_classification_witness :
  count_task 0 "PAL_LEG_07_00960_0"
    {| schedule := EmptyString; day := 3;
       initialDutiesPerBasePerDay := [replicate 7 0]; events := [3] |}
  = Some {| schedule := EmptyString; day := 7;
            initialDutiesPerBasePerDay := [[0; 0; 0; 0; 0; 0; 1]];
            events := [7; 3] |}.
Proof.
  destruct (task_classification 0
              {| schedule := EmptyString; day := 3;
                 initialDutiesPerBasePerDay := [replicate 7 0]; events := [3] |}
              "LEG_07_00960_0" "LEG_" "_00960_0" "0" "7" 0 7)
    as (_ & _ & _ & Hpal & Hleg).
  - reflexivity.
  - reflexivity.
  - reflexivity.
  - exact (eq_trans Hpal Hleg).
Defined.

(** ** Rounding *)

Lemma shiftl_int_part (m e : Z) : Z.shiftl m e = int_part m e.
Proof.
  unfold int_part. destruct (Z.ltb_spec e 0).
  - rewrite <- (Z.opp_involutive e) at 1. rewrite Z.shiftl_opp_r.
    apply Z.shiftr_div_pow2. lia.
  - by apply Z.shiftl_mul_pow2.
Qed.

Lemma int_part_mono (m m' e : Z) : m ≤ m' → int_part m e ≤ int_part m' e.
Proof.
  intros Hm. unfold int_part. destruct (Z.ltb_spec e 0).
  - apply Z.div_le_mono; [|done]. apply Z.pow_pos_nonneg; lia.
  - apply Z.mul_le_mono_nonneg_r; [|done]. apply Z.pow_nonneg. lia.
Qed.

Lemma shr_1_m (mrs : shr_record) :
  0 ≤ shr_m mrs → shr_m (shr_1 mrs) = shr_m mrs / 2.
Proof.
  destruct mrs as [m r s]. simpl. intros Hm.
  destruct m as [|[p|p|]|p]; simpl; try lia; try reflexivity.
  - apply Z.div_unique with 1; lia.
  - apply Z.div_unique with 0; lia.
Qed.

Lemma iter_shr_1_m (p : positive) :
  ∀ mrs, 0 ≤ shr_m mrs →
    shr_m (SpecFloat.iter_pos shr_1 p mrs) = shr_m mrs / 2 ^ Z.pos p.
Proof.
  assert (∀ mrs, 0 ≤ shr_m mrs → 0 ≤ shr_m (shr_1 mrs)) as Hnn.
  { intros mrs Hm. rewrite shr_1_m by done. by apply Z.div_pos. }
  induction p as [p IH|p IH|]; intros mrs Hm; simpl.
  - rewrite !IH, shr_1_m; try done.
    + assert (0 < 2 ^ Z.pos p) by (apply Z.pow_pos_nonneg; lia).
      rewrite !Z.div_div by lia. f_equal.
      replace (Z.pos p~1) with (1 + Z.pos p + Z.pos p) by lia.
      rewrite !Z.pow_add_r by lia. lia.
    + by apply Hnn.
    + rewrite IH by (by apply Hnn). apply Z.div_pos; [by apply Hnn|].
      apply Z.pow_pos_nonneg; lia.
  - rewrite !IH; try done.
    + assert (0 < 2 ^ Z.pos p) by (apply Z.pow_pos_nonneg; lia).
      rewrite Z.div_div by lia. f_equal.
      replace (Z.pos p~0) with (Z.pos p + Z.pos p) by lia.
      by rewrite Z.pow_add_r by lia.
    + rewrite IH by done. apply Z.div_pos; [done|].
      apply Z.pow_pos_nonneg; lia.
  - rewrite shr_1_m by done. by rewrite Z.pow_1_r.
Qed.

Lemma digits2_pos_bounds (m : positive) :
  2 ^ (Z.pos (digits2_pos m) - 1) ≤ Z.pos m < 2 ^ Z.pos (digits2_pos m).
Proof.
  induction m as [m IH|m IH|]; simpl; [| |done].
  - rewrite Pos2Z.inj_succ.
    replace (Z.succ (Z.pos (digits2_pos m)) - 1)
      with (Z.succ (Z.pos (digits2_pos m) - 1)) by lia.
    rewrite !Z.pow_succ_r by lia. lia.
  - rewrite Pos2Z.inj_succ.
    replace (Z.succ (Z.pos (digits2_pos m)) - 1)
      with (Z.succ (Z.pos (digits2_pos m) - 1)) by lia.
    rewrite !Z.pow_succ_r by lia. lia.
Qed.

Lemma iter_xO_pos (m k : positive) :
  Z.pos (Pos.iter xO m k) = Z.pos m * 2 ^ Z.pos k.
Proof.
  change (Pos.iter xO m k) with (shift_pos k m).
  rewrite shift_pos_correct, Z.pow_pos_fold. lia.
Qed.

Lemma digits2_pos_iter_xO (m k : positive) :
  digits2_pos (Pos.iter xO m k) = (digits2_pos m + k)%positive.
Proof.
  induction k as [|k IH] using Pos.peano_ind.
  - simpl. lia.
  - rewrite Pos.iter_succ. simpl. rewrite IH. lia.
Qed.

(** [c ≤ int_part m e] says that [c ≤ m * 2^e]; with a common scale [k]: *)
Lemma int_part_ge (m e c k : Z) :
  0 ≤ k → 0 ≤ e + k →
  (c ≤ int_part m e ↔ c * 2 ^ k ≤ m * 2 ^ (e + k)).
Proof.
  intros Hk Hek. unfold int_part.
  assert (0 < 2 ^ k) by (apply Z.pow_pos_nonneg; lia).
  destruct (Z.ltb_spec e 0) as [He|He].
  - assert (0 < 2 ^ (- e)) as Hpe by (apply Z.pow_pos_nonneg; lia).
    assert (0 < 2 ^ (e + k)) as Hpk by (apply Z.pow_pos_nonneg; lia).
    assert (2 ^ k = 2 ^ (- e) * 2 ^ (e + k)) as ->
      by (rewrite <- Z.pow_add_r by lia; f_equal; lia).
    split; intros Hc.
    + assert (c * 2 ^ (- e) ≤ m).
      { etrans; [|apply (Z.mul_div_le m (2 ^ (- e))); lia]. nia. }
      nia.
    + apply Z.div_le_lower_bound; [done|]. nia.
  - assert (0 < 2 ^ e) as Hpe by (apply Z.pow_pos_nonneg; lia).
    rewrite Z.pow_add_r by lia. nia.
Qed.

Lemma int_part_nonneg (m e : Z) : 0 ≤ m → 0 ≤ int_part m e.
Proof.
  intros Hm. unfold int_part. destruct (Z.ltb_spec e 0).
  - apply Z.div_pos; [done|]. apply Z.pow_pos_nonneg; lia.
  - apply Z.mul_nonneg_nonneg; [done|]. apply Z.pow_nonneg. lia.
Qed.

Lemma int_part_0 (e : Z) : int_part 0 e = 0.
Proof.
  unfold int_part. destruct (Z.ltb_spec e 0); [|lia].
  apply Z.div_0_l. apply Z.pow_nonzero; lia.
Qed.

Lemma int_part_shift (m e k : Z) :
  0 ≤ k → int_part (m * 2 ^ k) (e - k) = int_part m e.
Proof.
  intros Hk.
  assert (∀ c, c ≤ int_part (m * 2 ^ k) (e - k) ↔ c ≤ int_part m e) as Hiff.
  { intros c. set (j := k + Z.max 0 (- e)).
    rewrite (int_part_ge (m * 2 ^ k) (e - k) c j) by lia.
    rewrite (int_part_ge m e c j) by lia.
    replace (e + j) with (k + (e - k + j)) by lia.
    rewrite (Z.pow_add_r 2 k) by lia. 
    by rewrite Z.mul_assoc. }
  apply Z.le_antisymm; apply Hiff; lia.
Qed.

Lemma int_part_add (m1 m2 e a b : Z) :
  a ≤ int_part m1 e → b ≤ int_part m2 e → a + b ≤ int_part (m1 + m2) e.
Proof.
  set (k := Z.max 0 (- e)).
  rewrite (int_part_ge m1 e a k), (int_part_ge m2 e b k),
    (int_part_ge (m1 + m2) e (a + b) k) by lia.
  lia.
Qed.

Lemma int_part_mul (m1 m2 e1 e2 a b : Z) :
  0 ≤ a → 0 ≤ b → 
  a ≤ int_part m1 e1 → b ≤ int_part m2 e2 →
  a * b ≤ int_part (m1 * m2) (e1 + e2).
Proof.
  intros Ha Hb.
  set (k1 := Z.max 0 (- e1)). set (k2 := Z.max 0 (- e2)).
  rewrite (int_part_ge m1 e1 a k1), (int_part_ge m2 e2 b k2),
    (int_part_ge (m1 * m2) (e1 + e2) (a * b) (k1 + k2)) by lia.
  intros H1 H2.
  replace (e1 + e2 + (k1 + k2)) with ((e1 + k1) + (e2 + k2)) by lia.
  rewrite !Z.pow_add_r by lia.
  assert (0 ≤ 2 ^ k1) by (apply Z.pow_nonneg; lia).
  assert (0 ≤ 2 ^ k2) by (apply Z.pow_nonneg; lia).
  assert (0 ≤ a * 2 ^ k1) as Hak by nia.
  assert (0 ≤ b * 2 ^ k2) as Hbk by nia.
  pose proof (Z.mul_le_mono_nonneg _ _ _ _ Hak H1 Hbk H2). nia.
Qed.

Lemma above_weaken (c c' : Z) (x : float) : above c x → c' ≤ c → above c' x.
Proof. destruct x as [| | |[] m e]; simpl; try done; lia. Qed.

Lemma to_int_above (c n : Z) (x : float) :
  above c x → to_int x = Some n → c ≤ n.
Proof.
  destruct x as [s|s| |[] m e]; simpl; try done.
  - intros Hc [= <-]. done.
  - intros Hc. rewrite shiftl_int_part.
    destruct (_ && _); [|done]. by intros [= <-].
Qed.

Section Format.
Variables prec emax : Z.
Hypothesis prec_pos : 0 < prec.
Hypothesis prec_emax : prec ≤ emax.
Hypothesis emax_min : 3 ≤ emax.

Lemma fexp_small (d : Z) : 0 < d ≤ prec → fexp prec emax d = d - prec.
Proof. unfold fexp, emin. lia. Qed.

Lemma shr_fexp_above (m e c : Z) (l : location) :
  0 ≤ m → 0 ≤ c < 2 ^ prec → c ≤ int_part m e →
  0 ≤ shr_m (shr_fexp prec emax m e l).1
  ∧ c ≤ int_part (shr_m (shr_fexp prec emax m e l).1)
                 (shr_fexp prec emax m e l).2.
Proof.
  intros Hm Hc Hle. unfold shr_fexp, shr.
  assert (shr_m (shr_record_of_loc m l) = m) as Hrec
    by (by destruct l as [|[]]).
  destruct (fexp prec emax (Zdigits2 m + e) - e) as [|p|p] eqn:Hn; simpl;
    rewrite ?Hrec; try done.
  rewrite iter_shr_1_m, Hrec by (by rewrite Hrec).
  assert (0 < 2 ^ Z.pos p) as Hpp by (apply Z.pow_pos_nonneg; lia).
  split; [by apply Z.div_pos|].
  destruct m as [|m|m]; [| |lia].
  { rewrite Z.div_0_l, int_part_0 by lia. by rewrite int_part_0 in Hle. }
  destruct (Z.le_gt_cases (e + Z.pos p) 0) as [Hneg|Hpos].
  - (* the result still has a fractional part, or none: same integer part *)
    set (k := - e).
    apply (int_part_ge _ _ _ (- (e + Z.pos p))); [lia|lia|].
    apply (int_part_ge _ _ _ k) in Hle; [|lia|lia].
    replace (e + k) with 0 in Hle by lia.
    replace (e + Z.pos p + - (e + Z.pos p)) with 0 by lia.
    rewrite Z.pow_0_r, Z.mul_1_r in *.
    apply Z.div_le_lower_bound; [done|].
    replace k with (Z.pos p + - (e + Z.pos p)) in Hle by lia.
    rewrite Z.pow_add_r in Hle by lia. lia.
  - (* the result is a multiple of 2: it has [prec] digits and exceeds [c] *)
    simpl in Hn. unfold fexp, emin in Hn.
    pose proof (digits2_pos_bounds m) as [Hlow _].
    set (d := Z.pos (digits2_pos m)) in *.
    assert (Z.pos p = d - prec) as Hp by lia.
    assert (2 ^ (prec - 1) ≤ Z.pos m / 2 ^ Z.pos p) as Hdiv.
    { apply Z.div_le_lower_bound; [done|].
      rewrite Z.mul_comm, <- Z.pow_add_r by lia.
      by replace (prec - 1 + Z.pos p) with (d - 1) by lia. }
    unfold int_part. destruct (Z.ltb_spec (e + Z.pos p) 0); [lia|].
    assert (2 ^ 1 ≤ 2 ^ (e + Z.pos p)) as H2
      by (apply Z.pow_le_mono_r; lia).
    assert (2 ^ prec = 2 ^ (prec - 1) * 2 ^ 1) as Hprec
      by (rewrite <- Z.pow_add_r by lia; f_equal; lia).
    assert (0 < 2 ^ (prec - 1)) by (apply Z.pow_pos_nonneg; lia).
    nia.
Qed.

Lemma round_nearest_even_ge (m : Z) (l : location) :
  m ≤ round_nearest_even m l.
Proof. destruct l as [|[]]; simpl; try lia. destruct (Z.even m); lia. Qed.

Lemma binary_round_aux_above (m e c : Z) (l : location) :
  0 ≤ m → 0 ≤ c < 2 ^ prec → c ≤ int_part m e →
  above c (binary_round_aux prec emax false m e l).
Proof.
  intros Hm Hc Hle. unfold binary_round_aux.
  destruct (shr_fexp_above m e c l Hm Hc Hle) as [Hm1 Hle1].
  destruct (shr_fexp prec emax m e l) as [mrs' e']. simpl in *.
  set (m2 := round_nearest_even (shr_m mrs') (loc_of_shr_record mrs')).
  assert (shr_m mrs' ≤ m2) as Hm2 by apply round_nearest_even_ge.
  destruct (shr_fexp_above m2 e' c loc_Exact) as [Hm3 Hle3]; [lia|done| |].
  { etrans; [done|]. by apply int_part_mono. }
  destruct (shr_fexp prec emax m2 e' loc_Exact) as [mrs'' e'']. simpl in *.
  destruct (shr_m mrs'') as [|m3|m3]; simpl; try done.
  - by rewrite int_part_0 in Hle3.
  - by destruct (e'' <=? emax - prec).
Qed.

Lemma binary_round_aux_nonneg (m e : Z) (l : location) :
  0 ≤ m → above 0 (binary_round_aux prec emax false m e l).
Proof.
  intros Hm. apply binary_round_aux_above; [done| |by apply int_part_nonneg].
  split; [done|]. apply Z.pow_pos_nonneg; lia.
Qed.

Lemma shl_align_int_part (m : positive) (e e' : Z) :
  int_part (Z.pos (shl_align m e e').1) (shl_align m e e').2
  = int_part (Z.pos m) e.
Proof.
  unfold shl_align. destruct (e' - e) as [|d|d] eqn:Hd; simpl; try done.
  rewrite iter_xO_pos. replace e' with (e - Z.pos d) by lia.
  by apply int_part_shift.
Qed.

Lemma shl_align_min (m : positive) (e e' : Z) :
  e' ≤ e → int_part (Z.pos (shl_align m e e').1) e' = int_part (Z.pos m) e.
Proof.
  intros Hle. rewrite <- (shl_align_int_part m e e'). f_equal.
  unfold shl_align. destruct (e' - e) as [|d|d] eqn:Hd; simpl; lia.
Qed.

Lemma binary_round_above (m : positive) (e c : Z) :
  0 ≤ c < 2 ^ prec → c ≤ int_part (Z.pos m) e →
  above c (binary_round prec emax false m e).
Proof.
  intros Hc Hle. unfold binary_round.
  pose proof (shl_align_int_part m e
                (fexp prec emax (Z.pos (digits2_pos m) + e))) as Hal.
  destruct (shl_align _ _ _) as [mz ez]. simpl in Hal.
  apply binary_round_aux_above; [done|done|]. by rewrite Hal.
Qed.

Lemma binary_normalize_above (m e c : Z) (s : bool) :
  0 ≤ m → 0 ≤ c < 2 ^ prec → c ≤ int_part m e →
  above c (binary_normalize prec emax m e s).
Proof.
  intros Hm Hc Hle. destruct m as [|m|m]; simpl; [|by apply binary_round_above|lia].
  by rewrite int_part_0 in Hle.
Qed.

Lemma SFadd_above (a b : Z) (x y : float) :
  0 ≤ a → 0 ≤ b → a + b < 2 ^ prec →
  above a x → above b y → above (a + b) (SFadd prec emax x y).
Proof.
  intros Ha Hb Hab Hx Hy.
  destruct x as [sx|sx| |[] mx ex], y as [sy|sy| |[] my ey];
    simpl in Hx, Hy; subst; try done;
    try (simpl; lia); try (by destruct sx; simpl; lia).
  - destruct sx, sy; simpl; lia.
  - unfold SFadd. apply binary_normalize_above; [simpl; lia|lia|].
    simpl. apply int_part_add.
    + by rewrite shl_align_min by lia.
    + by rewrite shl_align_min by lia.
Qed.

Lemma SFmul_above (a b : Z) (x y : float) :
  0 ≤ a → 0 ≤ b → a * b < 2 ^ prec →
  above a x → above b y → above (a * b) (SFmul prec emax x y).
Proof.
  intros Ha Hb Hab Hx Hy.
  destruct x as [sx|sx| |[] mx ex], y as [sy|sy| |[] my ey];
    simpl in Hx, Hy; subst; try done; try (simpl; nia).
  unfold SFmul. simpl. apply binary_round_aux_above; [lia|nia|].
  rewrite Pos2Z.inj_mul. by apply int_part_mul.
Qed.

Lemma SFdiv_nonneg (x : float) (my : positive) (ey : Z) :
  above 0 x → above 0 (SFdiv prec emax x (S754_finite false my ey)).
Proof.
  intros Hx.
  destruct x as [sx|sx| |[] mx ex];
    simpl in Hx; subst; try done; try (simpl; lia).
  unfold SFdiv.
  destruct (SFdiv_core_binary prec emax (Z.pos mx) ex (Z.pos my) ey)
    as [[mz ez] lz] eqn:Hcore. simpl.
  apply binary_round_aux_nonneg.
  unfold SFdiv_core_binary in Hcore.
  destruct (Z.div_eucl _ (Z.pos my)) as [q r] eqn:Hqr.
  injection Hcore as <- _ _.
  match type of Hqr with Z.div_eucl ?n _ = _ =>
    assert (0 ≤ n) as Hn end.
  { destruct (ex - ey - _) eqn:?; try lia. apply Z.shiftl_nonneg. lia. }
  match type of Hqr with Z.div_eucl ?n _ = _ =>
    pose proof (Z_div_mod n (Z.pos my) ltac:(lia)) as Hdm end.
  rewrite Hqr in Hdm. nia.
Qed.

(** conversion to the format, as in [F32.of_double] and [F64.of_float] *)
Lemma conversion_above (c : Z) (x : float) :
  0 ≤ c < 2 ^ prec → above c x →
  above c match x with
          | S754_finite s m e =>
              binary_normalize prec emax (cond_Zopp s (Z.pos m)) e s
          | _ => x
          end.
Proof.
  intros Hc Hx. destruct x as [sx|sx| |[] mx ex]; simpl in Hx; try done.
  by apply binary_round_above.
Qed.

Lemma of_int_above (c : Z) :
  0 ≤ c < 2 ^ prec → above c (binary_normalize prec emax c 0 false).
Proof.
  intros Hc. apply binary_normalize_above; [lia|done|].
  unfold int_part. simpl. lia.
Qed.

Lemma binary_round_aux_exact (s : bool) (m : positive) (e : Z) :
  Z.pos (digits2_pos m) = prec → 3 - emax - prec ≤ e ≤ emax - prec →
  binary_round_aux prec emax s (Z.pos m) e loc_Exact = S754_finite s m e.
Proof.
  intros Hd He. unfold binary_round_aux, shr_fexp, shr. simpl.
  assert (fexp prec emax (Z.pos (digits2_pos m) + e) - e = 0) as ->
    by (unfold fexp, emin; lia).
  simpl.
  assert (fexp prec emax (Z.pos (digits2_pos m) + e) - e = 0) as ->
    by (unfold fexp, emin; lia).
  simpl. destruct (Z.leb_spec e (emax - prec)); [done|lia].
Qed.

Lemma binary_round_exact (s : bool) (n : positive) :
  Z.pos n < 2 ^ prec →
  ∃ m e, binary_round prec emax s n 0 = S754_finite s m e
         ∧ int_part (Z.pos m) e = Z.pos n.
Proof.
  intros Hn. unfold binary_round.
  pose proof (digits2_pos_bounds n) as [Hlow _].
  set (d := Z.pos (digits2_pos n)) in *.
  assert (d ≤ prec) as Hd.
  { destruct (Z.le_gt_cases d prec); [done|].
    assert (2 ^ prec ≤ 2 ^ (d - 1)) by (apply Z.pow_le_mono_r; lia). lia. }
  rewrite Z.add_0_r, fexp_small by lia.
  unfold shl_align. destruct (d - prec - 0) as [|k|k] eqn:Hk; try lia.
  - exists n, 0. split; [apply binary_round_aux_exact; lia|].
    unfold int_part. simpl. lia.
  - exists (Pos.iter xO n k), (d - prec). split.
    + apply binary_round_aux_exact; [|lia].
      rewrite digits2_pos_iter_xO. lia.
    + rewrite iter_xO_pos. replace (d - prec) with (0 - Z.pos k) by lia.
      rewrite int_part_shift by lia. unfold int_part. simpl. lia.
Qed.

Lemma binary_round_aux_not_nan (s : bool) (m e : Z) (l : location) :
  0 ≤ m → binary_round_aux prec emax s m e l ≠ S754_nan.
Proof.
  intros Hm. unfold binary_round_aux.
  assert (0 ≤ 0 < 2 ^ prec) as H0
    by (split; [done|apply Z.pow_pos_nonneg; lia]).
  destruct (shr_fexp_above m e 0 l Hm H0 (int_part_nonneg m e Hm))
    as [Hm1 _].
  destruct (shr_fexp prec emax m e l) as [mrs' e']. simpl in *.
  set (m2 := round_nearest_even (shr_m mrs') (loc_of_shr_record mrs')).
  assert (0 ≤ m2) as Hm2
    by (pose proof (round_nearest_even_ge (shr_m mrs')
                      (loc_of_shr_record mrs')); unfold m2; lia).
  destruct (shr_fexp_above m2 e' 0 loc_Exact Hm2 H0
              (int_part_nonneg m2 e' Hm2)) as [Hm3 _].
  destruct (shr_fexp prec emax m2 e' loc_Exact) as [mrs'' e'']. simpl in *.
  destruct (shr_m mrs'') as [|m3|m3]; try done; try lia.
  by destruct (e'' <=? emax - prec).
Qed.

Lemma binary_normalize_not_nan (m e : Z) (s : bool) :
  binary_normalize prec emax m e s ≠ S754_nan.
Proof.
  destruct m as [|m|m]; simpl; [done| |]; unfold binary_round;
    destruct (shl_align _ _ _) as [mz ez];
    by apply binary_round_aux_not_nan.
Qed.
End Format.

Lemma F64_one_above : above 1 F64.one.
Proof. vm_compute. discriminate. Qed.

Lemma fge_zero_above (x : float) : fge x F32.zero = true → above 0 x.
Proof.
  destruct x as [s|[]| |[] m e]; simpl; try done.
  intros _. apply int_part_nonneg. lia.
Qed.

(** the factor [1.+percentSlack/100] is at least 1 when [percentSlack] is
    not negative *)
Lemma slack_factor_above (percentSlack : float) :
  above 0 percentSlack →
  above 1 (F64.add F64.one
             (F64.of_float (F32.div percentSlack (F32.of_int 100)))).
Proof.
  intros Hp.
  assert (above 0 (F32.div percentSlack (F32.of_int 100))) as Hq.
  { change (F32.of_int 100) with (S754_finite false 13107200 (-17)).
    apply SFdiv_nonneg; try done; unfold F32.prec, F32.emax; lia. }
  apply (conversion_above F64.prec F64.emax) in Hq;
    [|unfold F64.prec, F64.emax; lia..|by vm_compute].
  apply (SFadd_above F64.prec F64.emax ltac:(done) ltac:(done) ltac:(done)
           1 0 _ _ ltac:(lia) ltac:(lia) ltac:(by vm_compute)
           F64_one_above Hq).
Qed.

Lemma with_slack_above (percentSlack : float) (c : Z) :
  above 0 percentSlack → 0 ≤ c < 2 ^ 24 →
  above c (with_slack percentSlack c).
Proof.
  intros Hp Hc. unfold with_slack.
  assert (2 ^ 24 < 2 ^ 53) as Hpow by (by vm_compute).
  assert (0 < F64.prec ∧ F64.prec ≤ F64.emax ∧ 3 ≤ F64.emax)
    as (Hf1 & Hf2 & Hf3) by (by vm_compute).
  assert (above c (F64.of_int c)) as H1.
  { apply of_int_above; try done. unfold F64.prec. lia. }
  assert (above (1 * c) (F64.mul F64.one (F64.of_int c))) as H2.
  { apply SFmul_above; try done; try lia; try apply F64_one_above.
    unfold F64.prec. lia. }
  assert (above (1 * c * 1)
            (F64.mul (F64.mul F64.one (F64.of_int c))
               (F64.add F64.one
                  (F64.of_float (F32.div percentSlack (F32.of_int 100))))))
    as H3.
  { apply SFmul_above; try done; try lia; try (by apply slack_factor_above).
    unfold F64.prec. lia. }
  replace (1 * c * 1) with c in H3 by lia.
  apply (conversion_above F32.prec F32.emax); try done.
Qed.

Lemma F32_format : 0 < F32.prec ∧ F32.prec ≤ F32.emax ∧ 3 ≤ F32.emax.
Proof. by vm_compute. Qed.

Lemma F64_format : 0 < F64.prec ∧ F64.prec ≤ F64.emax ∧ 3 ≤ F64.emax.
Proof. by vm_compute. Qed.

(** an [int] below 2^24 goes to [float] and back unchanged *)
Lemma to_int_of_int (n : Z) :
  0 ≤ n < 2 ^ 24 → to_int (F32.of_int n) = Some n.
Proof.
  intros Hn. destruct F32_format as (H1 & H2 & H3).
  destruct n as [|n|n]; [done| |lia].
  destruct (binary_round_exact F32.prec F32.emax H1 H2 H3 false n)
    as (m & e & Hr & Hv); [unfold F32.prec; lia|].
  unfold F32.of_int. simpl. rewrite Hr. simpl.
  rewrite shiftl_int_part, Hv.
  assert (2 ^ 24 < 2 ^ 31) by (by vm_compute).
  destruct (Z.leb_spec INT_MIN (Z.pos n)) as [_|Hmin];
    [|unfold INT_MIN in Hmin; lia].
  destruct (Z.leb_spec (Z.pos n) INT_MAX) as [_|Hmax];
    [done|unfold INT_MAX in Hmax; lia].
Qed.

Lemma decimal_not_nan (x d : float) : decimal x = Some d → d ≠ S754_nan.
Proof.
  destruct F32_format as (H1 & H2 & H3).
  unfold decimal. destruct (to_int x) as [n|] eqn:Hn; simpl; [|done].
  intros [= <-].
  pose proof (binary_normalize_not_nan F32.prec F32.emax H1 H2 H3 n 0 false)
    as Hy. fold (F32.of_int n) in Hy.
  destruct x as [sx|sx| |sx mx ex]; try done;
    destruct (F32.of_int n) as [sy|sy| |sy my ey]; try done.
  - simpl. by destruct sx, sy.
  - unfold F32.sub, SFsub.
    apply (binary_normalize_not_nan F32.prec F32.emax H1 H2 H3).
Qed.

(** ** The order of the comparisons *)

Lemma SFleb_key (a b : float) :
  a ≠ S754_nan → b ≠ S754_nan →
  (SFleb a b = true ↔ lex_le (key a) (key b)).
Proof.
  intros Ha Hb. unfold SFleb, lex_le.
  destruct a as [sa|[]| |[] ma ea], b as [sb|[]| |[] mb eb]; try done;
    simpl; try (split; [intros _; lia | done]);
    try (split; [done | intros H; exfalso; lia]).
  - change (Pos.compare_cont Eq ma mb) with (Pos.compare ma mb).
    destruct (Z.compare_spec ea eb), (Pos.compare_spec ma mb); simpl;
      split; try done; try lia.
  - change (Pos.compare_cont Eq ma mb) with (Pos.compare ma mb).
    destruct (Z.compare_spec ea eb), (Pos.compare_spec ma mb); simpl;
      split; try done; try lia.
Qed.

Lemma fge_trans (a b c : float) :
  fge a b = true → fge b c = true → fge a c = true.
Proof.
  unfold fge. intros Hab Hbc.
  assert (a ≠ S754_nan ∧ b ≠ S754_nan ∧ c ≠ S754_nan) as (Ha & Hb & Hc).
  { repeat split; intros ->;
      try (by destruct a as [|[]| |[]]); try (by destruct b as [|[]| |[]]);
      try (by destruct c as [|[]| |[]]). }
  apply SFleb_key in Hab, Hbc; try done. apply SFleb_key; try done.
  unfold lex_le in *. lia.
Qed.

Lemma fge_total (a b : float) :
  a ≠ S754_nan → b ≠ S754_nan → fge a b = false → fge b a = true.
Proof.
  unfold fge. intros Ha Hb Hab. apply SFleb_key; try done.
  destruct (SFleb b a) eqn:Hba; [done|].
  assert (¬ lex_le (key b) (key a)) as Hn
    by (intros H; apply SFleb_key in H; congruence).
  unfold lex_le in *. lia.
Qed.

Lemma fge_refl (a : float) : a ≠ S754_nan → fge a a = true.
Proof.
  intros Ha. unfold fge. apply SFleb_key; try done. unfold lex_le. lia.
Qed.

(** ** Columns of a table *)

Lemma column_length {A : Type} (j : nat) (m : list (list A)) (xs : list A) :
  column j m = Some xs → length xs = length m.
Proof.
  revert xs. induction m as [|row m IH]; intros xs; simpl.
  - by intros [= <-].
  - destruct (row !! j); simpl; [|done].
    destruct (column j m) as [xs'|] eqn:Hc; simpl; [|done].
    intros [= <-]. simpl. f_equal. by apply IH.
Qed.

Lemma column_set_entry {A : Type} (i j : nat) (x : A) (m : list (list A))
    (xs : list A) :
  column j m = Some xs →
  column j (set_entry i j x m) = Some (<[i := x]> xs).
Proof.
  revert i xs. induction m as [|row m IH]; intros i xs; simpl.
  - by intros [= <-].
  - destruct (row !! j) as [y|] eqn:Hy; simpl; [|done].
    destruct (column j m) as [xs'|] eqn:Hc; simpl; [|done].
    intros [= <-]. destruct i as [|i]; simpl.
    + rewrite list_lookup_insert_eq by (by eapply lookup_lt_Some).
      simpl. fold (column j m). by rewrite Hc.
    + rewrite Hy. simpl. fold (set_entry i j x m).
      fold (column j (set_entry i j x m)). by rewrite (IH i xs').
Qed.

Lemma column_set_entry_ne {A : Type} (i j j' : nat) (x : A)
    (m : list (list A)) :
  j ≠ j' → column j' (set_entry i j x m) = column j' m.
Proof.
  intros Hne. revert i. induction m as [|row m IH]; intros i; simpl; [done|].
  destruct i as [|i]; simpl.
  - by rewrite list_lookup_insert_ne.
  - fold (set_entry i j x m). fold (column j' (set_entry i j x m)).
    fold (column j' m). by rewrite IH.
Qed.

Lemma column_map {A B : Type} (f : A → B) (j : nat) (m : list (list A)) :
  column j (map (map f) m) = map f <$> column j m.
Proof.
  induction m as [|row m IH]; simpl; [done|].
  fold (column j (map (map f) m)). fold (column j m). rewrite IH.
  change (map f row !! j) with ((f <$> row) !! j). rewrite list_lookup_fmap.
  destruct (row !! j); simpl; [|done]. by destruct (column j m).
Qed.

(** ** One day of the first output *)

Lemma to_int_insert (xs : list float) :
  ∀ (fs : list Z) (c : nat) (x : float) (n : Z),
    mapM to_int xs = Some fs → to_int x = Some n →
    mapM to_int (<[c := x]> xs) = Some (<[c := n]> fs).
Proof.
  induction xs as [|x0 xs IH]; intros fs c x n; simpl.
  - by intros [= <-].
  - destruct (to_int x0) as [n0|] eqn:H0; simpl; [|done].
    destruct (mapM to_int xs) as [fs'|] eqn:Hfs; simpl; [|done].
    intros [= <-] Hx. destruct c as [|c]; simpl.
    + by rewrite Hx, Hfs.
    + rewrite H0. simpl. by rewrite (IH fs' c x n).
Qed.

Lemma to_int_lookup (xs : list float) (fs : list Z) (c : nat) (x : float) :
  mapM to_int xs = Some fs → xs !! c = Some x →
  ∃ n, to_int x = Some n ∧ fs !! c = Some n.
Proof.
  revert fs c. induction xs as [|x0 xs IH]; intros fs c; simpl; [done|].
  destruct (to_int x0) as [n0|] eqn:H0; simpl; [|done].
  destruct (mapM to_int xs) as [fs'|] eqn:Hfs; simpl; [|done].
  intros [= <-]. destruct c as [|c]; simpl.
  - intros [= <-]. eauto.
  - by apply IH.
Qed.

Lemma total_insert (fs : list Z) (c : nat) (n n' : Z) :
  fs !! c = Some n → total (<[c := n']> fs) = total fs + (n' - n).
Proof.
  revert c. induction fs as [|f fs IH]; intros c; [done|].
  destruct c as [|c]; simpl.
  - intros [= <-]. lia.
  - intros Hc. rewrite (IH c Hc). lia.
Qed.

Lemma choose_entry (r : nat) (xs : list float) (c : nat) (x : float) :
  choose r xs = Some (c, x) →
  ∃ x0 n, xs !! c = Some x0 ∧ to_int x0 = Some n ∧ x = F32.of_int (n + 1).
Proof.
  unfold choose. destruct (indexHighestDecimal xs) as [idx|]; simpl; [|done].
  destruct (decide (idx = [])) as [|Hne]; [done|].
  destruct (idx !! _) as [c'|]; simpl; [|done].
  destruct (xs !! c') as [x0|] eqn:Hx0; simpl; [|done].
  destruct (to_int x0) as [n|] eqn:Hn; simpl; [|done].
  intros [= <- <-]. eauto.
Qed.

Lemma raised_refl (fs : list Z) : raised 0 fs fs.
Proof. split; [|lia]. induction fs; constructor; [lia|done]. Qed.

Lemma raised_trans (k1 k2 : Z) (fs1 fs2 fs3 : list Z) :
  raised k1 fs1 fs2 → raised k2 fs2 fs3 → raised (k1 + k2) fs1 fs3.
Proof.
  intros [H1 S1] [H2 S2]. split; [|lia].
  clear S1 S2. revert fs3 H2.
  induction H1 as [|a b l1 l2 Hab _ IH]; intros fs3 H2.
  - by apply Forall2_nil_inv_l in H2 as ->.
  - apply Forall2_cons_inv_l in H2 as (c & l3 & Hbc & H2 & ->).
    constructor; [lia|by apply IH].
Qed.

Lemma raised_insert (fs : list Z) (c : nat) (n : Z) :
  fs !! c = Some n → raised 1 fs (<[c := n + 1]> fs).
Proof.
  intros Hc. split; [|rewrite (total_insert _ _ _ _ Hc); lia].
  revert c Hc. induction fs as [|f fs IH]; intros c Hc; [done|].
  destruct c as [|c]; simpl in *.
  - injection Hc as ->. constructor; [lia|]. apply raised_refl.
  - constructor; [lia|by apply IH].
Qed.

Lemma raised_bound (k : Z) (fs fs' : list Z) (c : nat) (n n' : Z) :
  raised k fs fs' → Forall (λ f, 0 ≤ f) fs →
  fs !! c = Some n → fs' !! c = Some n' → n ≤ n' ≤ n + k.
Proof.
  intros [Hle Hsum] Hpos. revert c k Hsum.
  induction Hle as [|a b l1 l2 Hab Hle IH]; intros c k Hsum Hc Hc'; [done|].
  apply Forall_cons in Hpos as [Ha Hpos]. simpl in Hsum.
  assert (total l1 ≤ total l2) as Hl.
  { clear -Hle. induction Hle; simpl; lia. }
  destruct c as [|c]; simpl in *.
  - injection Hc as ->. injection Hc' as ->. lia.
  - specialize (IH Hpos c (total l2 - total l1) ltac:(lia) Hc Hc'). lia.
Qed.

Lemma round_up_one_frame rand (j j' : nat) st st' :
  round_up_one rand j st = Some st' → j ≠ j' →
  column j' st'.1 = column j' st.1.
Proof.
  unfold round_up_one. destruct (column j st.1) as [xs|]; simpl; [|done].
  destruct (choose _ xs) as [[c x]|]; simpl; [|done].
  intros [= <-] Hne. simpl. by apply column_set_entry_ne.
Qed.

Lemma round_up_frame rand (j j' : nat) (n : nat) :
  ∀ st st', round_up rand j n st = Some st' → j ≠ j' →
            column j' st'.1 = column j' st.1.
Proof.
  induction n as [|n IH]; intros st st'; simpl.
  - by intros [= <-].
  - destruct (round_up_one rand j st) as [st1|] eqn:H1; simpl; [|done].
    intros Hn Hne. rewrite (IH _ _ Hn Hne). by eapply round_up_one_frame.
Qed.

Lemma round_day_frame rand initial slack (j j' : nat) st st' :
  round_day rand initial slack j st = Some st' → j ≠ j' →
  column j' st'.1 = column j' st.1.
Proof.
  unfold round_day. destruct (column j initial); simpl; [|done].
  destruct (column j slack) as [xs|]; simpl; [|done].
  destruct (column j st.1) as [now|]; simpl; [|done].
  destruct (numberRoundUp _ xs now); simpl; [|done]. apply round_up_frame.
Qed.

Lemma round_days_frame rand initial slack (days : list nat) :
  ∀ st st' (j : nat),
    round_days rand initial slack days st = Some st' → j ∉ days →
    column j st'.1 = column j st.1.
Proof.
  induction days as [|j0 days IH]; intros st st' j; simpl.
  - by intros [= <-].
  - destruct (round_day rand initial slack j0 st) as [st1|] eqn:H1; simpl;
      [|done].
    intros Hrest Hj. apply not_elem_of_cons in Hj as [Hne Hj].
    rewrite (IH _ _ _ Hrest Hj). eapply round_day_frame; [done|]. congruence.
Qed.

Lemma round_up_one_column rand (j : nat) st st' (xs : list float)
    (fs : list Z) :
  round_up_one rand j st = Some st' →
  column j st.1 = Some xs → mapM to_int xs = Some fs →
  Forall (λ f, 0 ≤ f ∧ f + 1 < 2 ^ 24) fs →
  ∃ xs' fs',
    column j st'.1 = Some xs' ∧ mapM to_int xs' = Some fs'
    ∧ raised 1 fs fs'.
Proof.
  unfold round_up_one. intros H Hxs Hfs Hrange. rewrite Hxs in H. simpl in H.
  destruct (choose _ xs) as [[c x]|] eqn:Hch; simpl in H; [|done].
  injection H as <-. simpl.
  destruct (choose_entry _ _ _ _ Hch) as (x0 & n & Hx0 & Hn & ->).
  destruct (to_int_lookup _ _ _ _ Hfs Hx0) as (n' & Hn' & Hc).
  assert (n' = n) as -> by congruence.
  pose proof (Forall_lookup_1 _ _ _ _ Hrange Hc) as [Hn0 Hn1].
  exists (<[c := F32.of_int (n + 1)]> xs), (<[c := n + 1]> fs).
  split; [by apply column_set_entry|].
  split; [|by apply raised_insert].
  apply to_int_insert; [done|]. apply to_int_of_int. lia.
Qed.

Lemma raised_range (k b : Z) (fs fs' : list Z) :
  raised k fs fs' → 0 ≤ k →
  Forall (λ f, 0 ≤ f ∧ f + k + b < 2 ^ 24) fs →
  Forall (λ f, 0 ≤ f ∧ f + b < 2 ^ 24) fs'.
Proof.
  intros Hr Hk Hrange. apply Forall_lookup_2. intros c n' Hc'.
  destruct Hr as [Hle Hsum].
  destruct (Forall2_lookup_r _ _ _ _ _ Hle Hc') as (n & Hc & _).
  pose proof (Forall_lookup_1 _ _ _ _ Hrange Hc) as [Hn0 Hn1].
  assert (n ≤ n' ≤ n + k); [|lia].
  eapply (raised_bound k fs fs'); try done.
  eapply Forall_impl; [exact Hrange|]. simpl. lia.
Qed.

Lemma round_up_column rand (j : nat) (n : nat) :
  ∀ st st' (xs : list float) (fs : list Z),
    round_up rand j n st = Some st' →
    column j st.1 = Some xs → mapM to_int xs = Some fs →
    Forall (λ f, 0 ≤ f ∧ f + Z.of_nat n < 2 ^ 24) fs →
    ∃ xs' fs',
      column j st'.1 = Some xs' ∧ mapM to_int xs' = Some fs'
      ∧ raised (Z.of_nat n) fs fs'.
Proof.
  induction n as [|n IH]; intros st st' xs fs; simpl.
  - intros [= <-] Hxs Hfs _. exists xs, fs.
    split; [done|]. split; [done|]. apply raised_refl.
  - destruct (round_up_one rand j st) as [st1|] eqn:H1; simpl; [|done].
    intros Hn Hxs Hfs Hrange.
    assert (Forall (λ f, 0 ≤ f ∧ f + 1 < 2 ^ 24) fs) as Hrange1.
    { eapply Forall_impl; [exact Hrange|]. simpl. lia. }
    destruct (round_up_one_column rand j st st1 xs fs H1 Hxs Hfs Hrange1)
      as (xs1 & fs1 & Hxs1 & Hfs1 & Hr1).
    assert (Forall (λ f, 0 ≤ f ∧ f + Z.of_nat n < 2 ^ 24) fs1) as Hrange'.
    { apply (raised_range 1 (Z.of_nat n) fs fs1 Hr1); [lia|].
      eapply Forall_impl; [exact Hrange|]. simpl. lia. }
    destruct (IH st1 st' xs1 fs1 Hn Hxs1 Hfs1 Hrange')
      as (xs' & fs' & Hxs' & Hfs' & Hr).
    exists xs', fs'. split; [done|]. split; [done|].
    replace (Z.of_nat (S n)) with (1 + Z.of_nat n) by lia.
    by eapply raised_trans.
Qed.

Lemma round_days_day rand initial slack (days : list nat) :
  ∀ st st' (j : nat) (cs : list Z) (xs0 xs : list float) (fs : list Z)
    (nru : Z),
    round_days rand initial slack days st = Some st' →
    NoDup days → j ∈ days →
    column j initial = Some cs → column j slack = Some xs0 →
    numberRoundUp cs xs0 xs = Some nru →
    column j st.1 = Some xs → mapM to_int xs = Some fs →
    (0 < nru → Forall (λ f, 0 ≤ f ∧ f + nru < 2 ^ 24) fs) →
    ∃ xs' fs',
      column j st'.1 = Some xs' ∧ mapM to_int xs' = Some fs'
      ∧ raised (Z.max 0 nru) fs fs'.
Proof.
  induction days as [|j0 days IH];
    intros st st' j cs xs0 xs fs nru Hrun Hnd Hj Hcs Hxs0 Hnru Hxs Hfs Hrange.
  - by apply elem_of_nil in Hj.
  - simpl in Hrun.
    destruct (round_day rand initial slack j0 st) as [st1|] eqn:H1;
      simpl in Hrun; [|done].
    apply NoDup_cons in Hnd as [Hj0 Hnd].
    destruct (decide (j = j0)) as [->|Hne].
    + unfold round_day in H1. rewrite Hcs, Hxs0 in H1. simpl in H1.
      rewrite Hxs in H1. simpl in H1. rewrite Hnru in H1. simpl in H1.
      assert (Forall (λ f, 0 ≤ f ∧ f + Z.of_nat (Z.to_nat nru) < 2 ^ 24) fs
              ∨ Z.to_nat nru = 0%nat) as [Hrange'|Hzero].
      { destruct (Z.le_gt_cases nru 0) as [Hle|Hgt]; [right; lia|left].
        eapply Forall_impl; [apply Hrange; lia|]. simpl. lia. }
      2: { rewrite Hzero in H1. injection H1 as <-.
           exists xs, fs. rewrite (round_days_frame _ _ _ _ _ _ _ Hrun Hj0).
           split; [done|]. split; [done|].
           replace (Z.max 0 nru) with 0 by lia. apply raised_refl. }
      destruct (round_up_column rand j0 _ st st1 xs fs H1 Hxs Hfs Hrange')
        as (xs' & fs' & Hxs' & Hfs' & Hr).
      exists xs', fs'. rewrite (round_days_frame _ _ _ _ _ _ _ Hrun Hj0).
      split; [done|]. split; [done|].
      by replace (Z.max 0 nru) with (Z.of_nat (Z.to_nat nru)) by lia.
    + apply elem_of_cons in Hj as [?|Hj]; [done|].
      apply (IH st1 st' j cs xs0 xs fs nru); try done.
      rewrite (round_day_frame _ _ _ _ _ _ _ H1); [done|congruence].
Qed.

Lemma sum_ints_total (xs : list float) (r : Z) :
  sum_ints xs = Some r → ∃ fs, mapM to_int xs = Some fs ∧ total fs = r.
Proof.
  revert r. induction xs as [|x xs IH]; intros r; simpl.
  - intros [= <-]. by exists [].
  - destruct (to_int x) as [n|]; simpl; [|done].
    destruct (sum_ints xs) as [r'|]; simpl; [|done].
    intros [= <-]. destruct (IH r' eq_refl) as (fs & -> & <-).
    by exists (n :: fs).
Qed.

Lemma numberRoundUp_cases (cs : list Z) (xs now : list float) (nru : Z) :
  numberRoundUp cs xs now = Some nru →
  ∃ t fs,
    to_int (sum_floats xs) = Some t ∧ mapM to_int xs = Some fs
    ∧ ((t + 1 - total fs ≠ 0 ∧ nru = t + 1 - total fs)
       ∨ (t + 1 - total fs = 0 ∧ 0 ≤ nru ≤ 1)).
Proof.
  unfold numberRoundUp.
  destruct (to_int (sum_floats xs)) as [t|]; simpl; [|done].
  destruct (sum_ints xs) as [r|] eqn:Hr; simpl; [|done].
  destruct (sum_ints_total _ _ Hr) as (fs & Hfs & <-).
  intros H. exists t, fs. split; [done|]. split; [done|].
  destruct (Z.eqb_spec (t + 1 - total fs) 0) as [Hz|Hnz].
  - right. split; [done|].
    destruct (addedOneCrew cs now) as [[]|]; simpl in H; [| |done];
      injection H as <-; lia.
  - left. by injection H as <-.
Qed.

Lemma round_days_defined rand initial slack (days : list nat) :
  ∀ st st' (j : nat),
    round_days rand initial slack days st = Some st' → j ∈ days →
    ∃ cs xs0,
      column j initial = Some cs ∧ column j slack = Some xs0
      ∧ ∃ t fs, to_int (sum_floats xs0) = Some t
                ∧ mapM to_int xs0 = Some fs.
Proof.
  induction days as [|j0 days IH]; intros st st' j Hrun Hj.
  - by apply elem_of_nil in Hj.
  - simpl in Hrun.
    destruct (round_day rand initial slack j0 st) as [st1|] eqn:H1;
      simpl in Hrun; [|done].
    apply elem_of_cons in Hj as [->|Hj]; [|by eapply IH].
    unfold round_day in H1.
    destruct (column j0 initial) as [cs|]; simpl in H1; [|done].
    destruct (column j0 slack) as [xs0|]; simpl in H1; [|done].
    destruct (column j0 st.1) as [now|]; simpl in H1; [|done].
    destruct (numberRoundUp cs xs0 now) as [nru|] eqn:Hnru; simpl in H1;
      [|done].
    destruct (numberRoundUp_cases _ _ _ _ Hnru) as (t & fs & Ht & Hfs & _).
    exists cs, xs0. split; [done|]. split; [done|]. by exists t, fs.
Qed.

Lemma total_ge_elem (fs : list Z) (c : nat) (f : Z) :
  Forall (λ f, 0 ≤ f) fs → fs !! c = Some f → f ≤ total fs.
Proof.
  intros Hpos. revert c. induction Hpos as [|g fs Hg Hpos IH]; intros c; [done|].
  assert (0 ≤ total fs) by (clear -Hpos; induction Hpos; simpl; lia).
  destruct c as [|c]; simpl.
  - intros [= <-]. lia.
  - intros Hc. specialize (IH c Hc). lia.
Qed.

(** the entries of day [j] after the roundings of the first output *)
Lemma first_output_day rand calls percentSlack numDays
    (initial : list (list Z)) final calls' (j : nat) (cs fs : list Z) (t : Z) :
  dutiesPerBasePerDay rand calls percentSlack numDays initial
    = Some (final, calls') →
  (j < numDays)%nat →
  column j initial = Some cs →
  mapM to_int (map (with_slack percentSlack) cs) = Some fs →
  Forall (λ f, 0 ≤ f) fs →
  to_int (sum_floats (map (with_slack percentSlack) cs)) = Some t →
  t < 2 ^ 23 →
  ∃ xs' fs' nru,
    column j final = Some xs' ∧ mapM to_int xs' = Some fs'
    ∧ numberRoundUp cs (map (with_slack percentSlack) cs)
        (map (with_slack percentSlack) cs) = Some nru
    ∧ raised (Z.max 0 nru) fs fs'.
Proof.
  unfold dutiesPerBasePerDay. intros Hrun Hj Hcs Hfs Hpos Ht Hsmall.
  set (slack := map (map (with_slack percentSlack)) initial) in *.
  assert (column j slack = Some (map (with_slack percentSlack) cs)) as Hxs
    by (unfold slack; by rewrite column_map, Hcs).
  assert (j ∈ seq 0 numDays) as Hin by (apply elem_of_seq; lia).
  assert (∃ nru, numberRoundUp cs (map (with_slack percentSlack) cs)
                   (map (with_slack percentSlack) cs) = Some nru)
    as [nru Hnru].
  { unfold numberRoundUp. rewrite Ht. simpl.
    assert (sum_ints (map (with_slack percentSlack) cs) = Some (total fs))
      as ->.
    { clear -Hfs. revert fs Hfs.
      induction (map (with_slack percentSlack) cs) as [|x xs IH];
        intros fs; simpl.
      - by intros [= <-].
      - destruct (to_int x) as [n|]; simpl; [|done].
        destruct (mapM to_int xs) as [fs'|]; simpl; [|done].
        intros [= <-]. by rewrite (IH fs' eq_refl). }
    simpl. destruct (_ =? 0); [|eauto].
    assert (∃ b, addedOneCrew cs (map (with_slack percentSlack) cs) = Some b)
      as [b ->]; [|simpl; eauto].
    clear -Hfs. revert fs Hfs. induction cs as [|c cs IH]; intros fs; simpl.
    - eauto.
    - destruct (to_int (with_slack percentSlack c)) as [n|]; simpl; [|done].
      destruct (mapM to_int _) as [fs'|] eqn:Hfs'; simpl; [|done].
      intros _. destruct (c <? n); [eauto|]. by apply (IH fs'). }
  destruct (round_days_day rand initial slack (seq 0 numDays)
              (slack, calls) (final, calls') j cs _ _ fs nru
              Hrun (NoDup_seq _ _) Hin Hcs Hxs Hnru Hxs Hfs)
    as (xs' & fs' & Hxs' & Hfs' & Hr).
  { intros Hnru_pos.
    destruct (numberRoundUp_cases _ _ _ _ Hnru)
      as (t' & fs'' & Ht' & Hfs'' & Hcases).
    assert (t' = t) as -> by congruence.
    assert (fs'' = fs) as -> by congruence.
    assert (2 ^ 23 + 2 < 2 ^ 24) by (by vm_compute).
    apply Forall_lookup_2. intros c f Hc.
    pose proof (Forall_lookup_1 _ _ _ _ Hpos Hc) as Hf. simpl in Hf.
    pose proof (total_ge_elem fs c f Hpos Hc). lia. }
  by exists xs', fs', nru.
Qed.

Lemma to_int_above_self (c f : Z) (x : float) :
  above c x → 0 ≤ c → to_int x = Some f → above f x.
Proof.
  destruct x as [s|s| |[] m e]; simpl; try done.
  - intros _ _ [= <-]. done.
  - intros _ _. rewrite shiftl_int_part.
    destruct (_ && _); [|done]. intros [= <-]. done.
Qed.

Lemma floors_above (percentSlack : float) (cs : list Z) :
  above 0 percentSlack → Forall (λ c, 0 ≤ c < 2 ^ 24) cs →
  ∀ fs, mapM to_int (map (with_slack percentSlack) cs) = Some fs →
        Forall2 Z.le cs fs
        ∧ Forall2 (λ x f, above f x ∧ 0 ≤ f)
            (map (with_slack percentSlack) cs) fs.
Proof.
  intros Hp. induction 1 as [|c cs Hc _ IH]; intros fs; simpl.
  - intros [= <-]. split; constructor.
  - destruct (to_int (with_slack percentSlack c)) as [f|] eqn:Hf; simpl;
      [|done].
    destruct (mapM to_int _) as [fs'|]; simpl; [|done].
    intros [= <-]. destruct (IH fs' eq_refl) as [IH1 IH2].
    pose proof (with_slack_above percentSlack c Hp Hc) as Habove.
    pose proof (to_int_above _ _ _ Habove Hf) as Hle.
    split; constructor; try done. split; [|lia].
    eapply to_int_above_self; [done| |done]. lia.
Qed.

Lemma sum_floats_capped (xs : list float) :
  ∀ (ns : list Z) (acc : float) (a : Z),
    Forall2 (λ x n, above n x ∧ 0 ≤ n) xs ns →
    above (Z.min a (2 ^ 24 - 1)) acc → 0 ≤ a →
    above (Z.min (a + total ns) (2 ^ 24 - 1)) (fold_left F32.add xs acc).
Proof.
  destruct F32_format as (H1 & H2 & H3).
  assert (0 < 2 ^ 24 - 1) as Hcap by (by vm_compute).
  induction xs as [|x xs IH]; intros ns acc a Hxs Hacc Ha.
  - apply Forall2_nil_inv_l in Hxs as ->. simpl. by rewrite Z.add_0_r.
  - apply Forall2_cons_inv_l in Hxs as (n & ns' & [Hx Hn] & Hxs & ->).
    simpl.
    replace (a + (n + total ns')) with ((a + n) + total ns') by lia.
    apply IH; [done| |lia].
    set (a' := Z.min a (2 ^ 24 - 1)) in *.
    set (n' := Z.min n (2 ^ 24 - 1 - a')).
    replace (Z.min (a + n) (2 ^ 24 - 1)) with (a' + n') by lia.
    apply SFadd_above; try done; try lia.
    + unfold F32.prec. lia.
    + apply (above_weaken n); [done|lia].
Qed.

Lemma total_le (cs fs : list Z) : Forall2 Z.le cs fs → total cs ≤ total fs.
Proof. induction 1; simpl; lia. Qed.

(** with a slack that is not negative, the float sum of a day is at least
    the sum of the entries cast to [int], which are at least the raw counts *)
Lemma day_sums (percentSlack : float) (cs fs : list Z) (t : Z) :
  fge percentSlack F32.zero = true →
  Forall (λ c, 0 ≤ c < 2 ^ 24) cs →
  mapM to_int (map (with_slack percentSlack) cs) = Some fs →
  to_int (sum_floats (map (with_slack percentSlack) cs)) = Some t →
  t < 2 ^ 23 →
  Forall2 Z.le cs fs ∧ Forall (λ f, 0 ≤ f) fs ∧ total fs ≤ t.
Proof.
  intros Hp Hcs Hfs Ht Hsmall. apply fge_zero_above in Hp.
  destruct (floors_above _ _ Hp Hcs fs Hfs) as [Hle Habove].
  split; [done|]. split.
  - clear -Habove. induction Habove as [|???? [_ ?] _ IH]; constructor; done.
  - pose proof (sum_floats_capped _ fs F32.zero 0 Habove) as Hsum.
    assert (2 ^ 23 < 2 ^ 24 - 1) by (by vm_compute).
    assert (above (Z.min (0 + total fs) (2 ^ 24 - 1))
              (sum_floats (map (with_slack percentSlack) cs))) as Hs.
    { apply Hsum; [|done]. simpl. lia. }
    pose proof (to_int_above _ _ _ Hs Ht). lia.
Qed.

(** the casts of a day that the range asks for are needed: a first output
    with a result has computed them for every day *)
Lemma first_output_day_defined rand calls percentSlack numDays
    (initial : list (list Z)) final calls' (j : nat) :
  dutiesPerBasePerDay rand calls percentSlack numDays initial
    = Some (final, calls') →
  (j < numDays)%nat →
  ∃ cs fs t,
    column j initial = Some cs
    ∧ mapM to_int (map (with_slack percentSlack) cs) = Some fs
    ∧ to_int (sum_floats (map (with_slack percentSlack) cs)) = Some t.
Proof.
  unfold dutiesPerBasePerDay. intros Hrun Hj.
  assert (j ∈ seq 0 numDays) as Hin by (apply elem_of_seq; lia).
  destruct (round_days_defined _ _ _ _ _ _ j Hrun Hin)
    as (cs & xs0 & Hcs & Hxs0 & t & fs & Ht & Hfs).
  rewrite column_map, Hcs in Hxs0. injection Hxs0 as <-.
  by exists cs, fs, t.
Qed.

(** ** The first output has a result *)

Lemma of_int_exact (n : Z) :
  0 < n < 2 ^ 24 →
  ∃ (m : positive) (k : Z),
    F32.of_int n = S754_finite false m (- k) ∧ 0 ≤ k ∧ Z.pos m = n * 2 ^ k.
Proof.
  intros Hn. destruct F32_format as (H1 & H2 & H3).
  destruct n as [|n|n]; try lia.
  unfold F32.of_int. simpl. unfold binary_round.
  pose proof (digits2_pos_bounds n) as [Hlow _].
  set (d := Z.pos (digits2_pos n)) in *.
  assert (d ≤ F32.prec) as Hd.
  { destruct (Z.le_gt_cases d F32.prec); [done|].
    assert (2 ^ F32.prec ≤ 2 ^ (d - 1)) by (apply Z.pow_le_mono_r; lia).
    unfold F32.prec in *. lia. }
  rewrite Z.add_0_r, (fexp_small F32.prec F32.emax) by lia.
  unfold shl_align. destruct (d - F32.prec - 0) as [|k|k] eqn:Hk; try lia.
  - exists n, 0. rewrite binary_round_aux_exact by lia.
    split; [done|]. split; [done|]. lia.
  - exists (Pos.iter xO n k), (Z.pos k).
    rewrite binary_round_aux_exact; try lia.
    + split; [f_equal; lia|]. split; [lia|]. apply iter_xO_pos.
    + rewrite digits2_pos_iter_xO. lia.
Qed.

(** the decimal part of a float that is not negative is zero or positive *)
Lemma decimal_nonneg (x : float) (n : Z) :
  above 0 x → to_int x = Some n → n < 2 ^ 24 →
  ∃ d, decimal x = Some d
       ∧ (fgt d F32.zero = true ∨ ∃ s, d = S754_zero s).
Proof.
  intros Hx Hn Hsmall. unfold decimal. rewrite Hn. simpl.
  eexists. split; [done|].
  destruct F32_format as (H1 & H2 & H3).
  destruct x as [s|s| |[] mx ex]; simpl in Hx, Hn; try done.
  - injection Hn as <-. right. destruct s; by eexists.
  - rewrite shiftl_int_part in Hn.
    destruct (_ && _); [|done]. injection Hn as <-.
    pose proof (int_part_nonneg (Z.pos mx) ex ltac:(lia)) as Hn0.
    destruct (Z.eq_dec (int_part (Z.pos mx) ex) 0) as [->|Hne].
    { left. done. }
    destruct (of_int_exact (int_part (Z.pos mx) ex) ltac:(lia))
      as (my & k & -> & Hk & Hmy).
    unfold F32.sub, SFsub.
    set (ez := Z.min ex (- k)).
    assert (ez ≤ ex ∧ ez ≤ - k) as [He1 He2] by (unfold ez; lia).
    clearbody ez.
    assert (Z.pos (shl_align my (- k) ez).1 ≤ Z.pos (shl_align mx ex ez).1)
      as Hle.
    { assert (Z.pos (shl_align mx ex ez).1 = Z.pos mx * 2 ^ (ex - ez)) as ->.
      { unfold shl_align. destruct (ez - ex) as [|p|p] eqn:Hp; try lia.
        - simpl. replace (ex - ez) with 0 by lia. lia.
        - simpl. rewrite iter_xO_pos. f_equal. f_equal. lia. }
      assert (Z.pos (shl_align my (- k) ez).1 = Z.pos my * 2 ^ (- k - ez)) as ->.
      { unfold shl_align. destruct (ez - - k) as [|p|p] eqn:Hp; try lia.
        - simpl. replace (- k - ez) with 0 by lia. lia.
        - simpl. rewrite iter_xO_pos. f_equal. f_equal. lia. }
      rewrite Hmy, <- Z.mul_assoc, <- Z.pow_add_r by lia.
      replace (k + (- k - ez)) with (- ez) by lia.
      replace (ex - ez) with (ex + - ez) by lia.
      apply (int_part_ge (Z.pos mx) ex _ (- ez)); lia. }
    simpl.
    destruct (Z.pos (shl_align mx ex ez).1 - Z.pos (shl_align my (- k) ez).1)
      as [|m|m] eqn:Hm; try lia.
    + right. by eexists.
    + simpl.
      pose proof (binary_round_above F32.prec F32.emax H1 H2 H3 m ez 0
                    ltac:(by vm_compute)
                    (int_part_nonneg (Z.pos m) ez ltac:(lia))) as Hab.
      assert (binary_round F32.prec F32.emax false m ez ≠ S754_nan) as Hnan.
      { apply (binary_normalize_not_nan F32.prec F32.emax H1 H2 H3
                 (Z.pos m) ez false). }
      destruct (binary_round F32.prec F32.emax false m ez) as [s|[]| |[] m' e'];
        simpl in Hab; try done.
      * right. by eexists.
      * by left.
      * by left.
Qed.

Lemma highest_step_defined (k : nat) (x : float) (st : list nat * float) :
  is_Some (to_int x) →
  ∃ st', highest_step k x st = Some st'
         ∧ (st'.1 = [k] ∨ st'.1 = st.1 ++ [k] ∨ st' = st).
Proof.
  intros [n Hn]. unfold highest_step, decimal. rewrite Hn. simpl.
  destruct (fgt _ _); [eexists; split; [done|]; by left|].
  destruct (_ && _); eexists; (split; [done|]); auto.
Qed.

Lemma highest_step_first (k : nat) (x : float) (n : Z) :
  above 0 x → to_int x = Some n → n < 2 ^ 24 →
  ∃ d, highest_step k x ([], F32.zero) = Some ([k], d).
Proof.
  intros Hx Hn Hsmall.
  destruct (decimal_nonneg x n Hx Hn Hsmall) as (d & Hd & Hcases).
  unfold highest_step. rewrite Hd. simpl.
  destruct Hcases as [->|[s ->]]; [by eexists|].
  exists F32.zero. by destruct s.
Qed.

Lemma highest_scan_defined (xs : list float) :
  ∀ (k : nat) (st : list nat * float),
    Forall (λ x, is_Some (to_int x)) xs →
    st.1 ≠ [] → Forall (λ i, i < k)%nat st.1 →
    ∃ st', highest_scan k xs st = Some st'
           ∧ st'.1 ≠ [] ∧ Forall (λ i, i < k + length xs)%nat st'.1.
Proof.
  induction xs as [|x xs IH]; intros k st Hxs Hne Hlt.
  - exists st. split; [done|]. split; [done|].
    eapply Forall_impl; [exact Hlt|]. simpl. lia.
  - apply Forall_cons in Hxs as [Hx Hxs]. simpl.
    destruct (highest_step_defined k x st Hx) as (st1 & -> & Hcases). simpl.
    destruct (IH (S k) st1 Hxs) as (st' & Hscan & Hne' & Hlt').
    + destruct Hcases as [->|[->| ->]]; try done. by destruct st.1.
    + destruct Hcases as [->|[->| ->]].
      * repeat constructor.
      * apply Forall_app. split; [|repeat constructor].
        eapply Forall_impl; [exact Hlt|]. simpl. lia.
      * eapply Forall_impl; [exact Hlt|]. simpl. lia.
    + exists st'. split; [done|]. split; [done|].
      eapply Forall_impl; [exact Hlt'|]. simpl. lia.
Qed.

Lemma choose_defined (r : nat) (xs : list float) :
  xs ≠ [] → roundable xs → is_Some (choose r xs).
Proof.
  intros Hne Hxs. destruct xs as [|x xs]; [done|].
  apply Forall_cons in Hxs as [(Hx & n & Hn & Hsmall) Hxs].
  unfold choose, indexHighestDecimal. simpl.
  destruct (highest_step_first 0 x n Hx Hn Hsmall) as (d & ->). simpl.
  destruct (highest_scan_defined xs 1 ([0%nat], d)) as (st' & -> & Hne' & Hlt).
  - eapply Forall_impl; [exact Hxs|]. simpl. intros y (_ & m & -> & _). eauto.
  - done.
  - repeat constructor.
  - simpl. destruct (decide (st'.1 = [])) as [|_]; [done|].
    assert (r `mod` length st'.1 < length st'.1)%nat as Hmod.
    { apply Nat.mod_upper_bound. by destruct st'.1. }
    destruct (lookup_lt_is_Some_2 _ _ Hmod) as [c Hc]. rewrite Hc. simpl.
    pose proof (Forall_lookup_1 _ _ _ _ Hlt Hc) as Hc'. simpl in Hc'.
    destruct (lookup_lt_is_Some_2 (x :: xs) c ltac:(simpl; lia)) as [y Hy].
    rewrite Hy. simpl.
    assert (roundable (x :: xs)) as Hall by (constructor; eauto).
    destruct (Forall_lookup_1 _ _ _ _ Hall Hy) as (_ & m & -> & _).
    simpl. eauto.
Qed.

Lemma round_up_one_total rand (j : nat) st (xs : list float) :
  column j st.1 = Some xs → xs ≠ [] → roundable xs →
  ∃ st' (c : nat) (x0 : float) (n : Z),
    round_up_one rand j st = Some st'
    ∧ xs !! c = Some x0 ∧ to_int x0 = Some n
    ∧ column j st'.1 = Some (<[c := F32.of_int (n + 1)]> xs).
Proof.
  intros Hxs Hne Hok. unfold round_up_one. rewrite Hxs. simpl.
  destruct (choose_defined (rand st.2) xs Hne Hok) as [[c x] Hch].
  rewrite Hch. simpl.
  destruct (choose_entry _ _ _ _ Hch) as (x0 & n & Hx0 & Hn & ->).
  eexists _, c, x0, n. split; [done|]. split; [done|]. split; [done|].
  simpl. by apply column_set_entry.
Qed.

Lemma roundable_floors (xs : list float) (fs : list Z) (b : Z) :
  mapM to_int xs = Some fs → Forall (above 0) xs →
  Forall (λ f, 0 ≤ f ∧ f + b < 2 ^ 24) fs → 0 ≤ b →
  roundable xs.
Proof.
  intros Hfs Hab Hrange Hb. apply Forall_lookup_2. intros c x Hx.
  destruct (to_int_lookup _ _ _ _ Hfs Hx) as (n & Hn & Hc).
  pose proof (Forall_lookup_1 _ _ _ _ Hrange Hc) as [_ Hlt]. simpl in Hlt.
  split; [by eapply Forall_lookup_1|]. exists n. split; [done|lia].
Qed.

Lemma round_up_total rand (j : nat) (n : nat) :
  ∀ st (xs : list float) (fs : list Z),
    column j st.1 = Some xs → xs ≠ [] →
    mapM to_int xs = Some fs → Forall (above 0) xs →
    Forall (λ f, 0 ≤ f ∧ f + Z.of_nat n < 2 ^ 24) fs →
    is_Some (round_up rand j n st).
Proof.
  induction n as [|n IH]; intros st xs fs Hxs Hne Hfs Hab Hrange; simpl.
  - eauto.
  - assert (roundable xs) as Hok
      by (eapply (roundable_floors _ _ (Z.of_nat (S n))); try done; lia).
    destruct (round_up_one_total rand j st xs Hxs Hne Hok)
      as (st1 & c & x0 & m & H1 & Hx0 & Hm & Hxs1).
    rewrite H1. simpl.
    destruct (to_int_lookup _ _ _ _ Hfs Hx0) as (m' & Hm' & Hc).
    assert (m' = m) as -> by congruence.
    pose proof (Forall_lookup_1 _ _ _ _ Hrange Hc) as [Hm0 Hm1].
    simpl in Hm0, Hm1.
    assert (Forall (λ f, 0 ≤ f ∧ f + 1 < 2 ^ 24) fs) as Hrange1.
    { eapply Forall_impl; [exact Hrange|]. simpl. lia. }
    destruct (round_up_one_column rand j st st1 xs fs H1 Hxs Hfs Hrange1)
      as (xs1 & fs1 & Hxs1' & Hfs1 & Hr1).
    assert (xs1 = <[c := F32.of_int (m + 1)]> xs) as -> by congruence.
    apply (IH st1 (<[c := F32.of_int (m + 1)]> xs) fs1); try done.
    + intros Hnil. apply Hne. apply nil_length_inv.
      by rewrite <- (length_insert xs c (F32.of_int (m + 1))), Hnil.
    + apply Forall_insert; [done|].
      destruct F32_format as (H1' & H2' & H3').
      apply (above_weaken (m + 1)); [|lia].
      apply (of_int_above F32.prec F32.emax); try done.
      unfold F32.prec. lia.
    + apply (raised_range 1 (Z.of_nat n) fs fs1 Hr1); [lia|].
      eapply Forall_impl; [exact Hrange|]. simpl. lia.
Qed.

Lemma sum_ints_floors (xs : list float) (fs : list Z) :
  mapM to_int xs = Some fs → sum_ints xs = Some (total fs).
Proof.
  revert fs. induction xs as [|x xs IH]; intros fs; simpl.
  - by intros [= <-].
  - destruct (to_int x) as [n|]; simpl; [|done].
    destruct (mapM to_int xs) as [fs'|]; simpl; [|done].
    intros [= <-]. by rewrite (IH fs' eq_refl).
Qed.

Lemma addedOneCrew_defined (cs : list Z) :
  ∀ (xs : list float), Forall (λ x, is_Some (to_int x)) xs →
                       is_Some (addedOneCrew cs xs).
Proof.
  induction cs as [|c cs IH]; intros xs Hxs; simpl; [eauto|].
  destruct Hxs as [|x xs [n Hn] Hxs]; [eauto|].
  rewrite Hn. simpl. destruct (c <? n); [eauto|]. by apply IH.
Qed.

Lemma floors_defined (xs : list float) (fs : list Z) :
  mapM to_int xs = Some fs → Forall (λ x, is_Some (to_int x)) xs.
Proof.
  intros Hfs. apply Forall_lookup_2. intros c x Hx.
  destruct (to_int_lookup _ _ _ _ Hfs Hx) as (n & Hn & _). eauto.
Qed.

Lemma numberRoundUp_defined (cs : list Z) (xs : list float) (fs : list Z)
    (t : Z) :
  mapM to_int xs = Some fs → to_int (sum_floats xs) = Some t →
  is_Some (numberRoundUp cs xs xs).
Proof.
  intros Hfs Ht. unfold numberRoundUp.
  rewrite Ht, (sum_ints_floors _ _ Hfs). simpl.
  destruct (_ =? 0); [|eauto].
  destruct (addedOneCrew_defined cs xs (floors_defined _ _ Hfs)) as [b ->].
  simpl. eauto.
Qed.

Lemma day_range (cs : list Z) (xs now : list float) (fs : list Z)
    (t nru : Z) :
  numberRoundUp cs xs now = Some nru →
  mapM to_int xs = Some fs → Forall (λ f, 0 ≤ f) fs →
  to_int (sum_floats xs) = Some t → t < 2 ^ 23 →
  0 < nru → Forall (λ f, 0 ≤ f ∧ f + nru < 2 ^ 24) fs.
Proof.
  intros Hnru Hfs Hpos Ht Hsmall Hnru_pos.
  destruct (numberRoundUp_cases _ _ _ _ Hnru)
    as (t' & fs' & Ht' & Hfs' & Hcases).
  assert (t' = t) as -> by congruence.
  assert (fs' = fs) as -> by congruence.
  assert (2 ^ 23 + 2 < 2 ^ 24) by (by vm_compute).
  apply Forall_lookup_2. intros c f Hc.
  pose proof (Forall_lookup_1 _ _ _ _ Hpos Hc) as Hf. simpl in Hf.
  pose proof (total_ge_elem fs c f Hpos Hc). lia.
Qed.

Lemma round_days_total rand percentSlack initial slack (days : list nat) :
  fge percentSlack F32.zero = true →
  ∀ st,
    NoDup days →
    (∀ j, j ∈ days →
       ∃ cs, column j initial = Some cs
             ∧ column j slack = Some (map (with_slack percentSlack) cs)
             ∧ column j st.1 = Some (map (with_slack percentSlack) cs)
             ∧ day_in_range percentSlack cs) →
    is_Some (round_days rand initial slack days st).
Proof.
  intros Hp. induction days as [|j0 days IH]; intros st Hnd Hdays; simpl.
  - eauto.
  - apply NoDup_cons in Hnd as [Hj0 Hnd].
    destruct (Hdays j0 ltac:(left)) 
      as (cs & Hcs & Hxs0 & Hxs & Hne & Hrange & [fs Hfs] & t & Ht & Hsmall).
    set (xs := map (with_slack percentSlack) cs) in *.
    destruct (numberRoundUp_defined cs xs fs t Hfs Ht) as [nru Hnru].
    destruct (day_sums _ _ _ _ Hp Hrange Hfs Ht Hsmall) as (Hle & Hpos & Hsum).
    assert (is_Some (round_day rand initial slack j0 st)) as [st1 H1].
    { unfold round_day. rewrite Hcs, Hxs0. simpl. rewrite Hxs. simpl.
      rewrite Hnru. simpl.
      apply (round_up_total rand j0 _ st xs fs); try done.
      - unfold xs. by destruct cs.
      - unfold xs. apply Forall_forall. intros x Hx.
        apply list_elem_of_fmap in Hx as (c & -> & Hc).
        apply (above_weaken c).
        + apply with_slack_above; [by apply fge_zero_above|].
          by eapply (proj1 (Forall_forall _ _) Hrange).
        + by eapply (proj1 (Forall_forall _ _) Hrange).
      - destruct (Z.le_gt_cases nru 0) as [Hneg|Hpos'].
        + assert (2 ^ 23 < 2 ^ 24) by (by vm_compute).
          apply Forall_lookup_2. intros c f Hc.
          pose proof (Forall_lookup_1 _ _ _ _ Hpos Hc) as Hf. simpl in Hf.
          pose proof (total_ge_elem fs c f Hpos Hc). lia.
        + eapply Forall_impl;
            [apply (day_range cs xs xs fs t nru); try done; lia|].
          simpl. lia. }
    rewrite H1. simpl. apply IH; [done|].
    intros j Hj. destruct (Hdays j ltac:(by right)) as (cs' & ? & ? & ? & ?).
    exists cs'. split; [done|]. split; [done|]. split; [|done].
    rewrite (round_day_frame _ _ _ _ _ _ _ H1); [done|].
    intros ->. done.
Qed.

(** Within the range the first output has a result, whatever the random
    source. *)
Lemma first_output_total rand calls percentSlack numDays
    (initial : list (list Z)) :
  fge percentSlack F32.zero = true →
  (∀ j, (j < numDays)%nat →
     ∃ cs, column j initial = Some cs ∧ day_in_range percentSlack cs) →
  is_Some (dutiesPerBasePerDay rand calls percentSlack numDays initial).
Proof.
  intros Hp Hdays. unfold dutiesPerBasePerDay.
  apply (round_days_total rand percentSlack); [done|apply NoDup_seq|].
  intros j Hj. apply elem_of_seq in Hj.
  destruct (Hdays j ltac:(lia)) as (cs & Hcs & Hok).
  exists cs. simpl. rewrite column_map, Hcs. done.
Qed.

(** ** The totals of the first output *)

(** with a single highest decimal part the random source has no say *)
Lemma choose_single (r : nat) (xs : list float) (c : nat) :
  indexHighestDecimal xs = Some [c] → choose r xs = choose 0 xs.
Proof.
  unfold choose. intros ->. cbn [mbind option_bind].
  change (length [c]) with 1%nat. by rewrite !Nat.mod_1_r.
Qed.

Lemma round_up_one_single rand (j : nat) st (xs : list float) (c : nat)
    (x : float) :
  column j st.1 = Some xs → indexHighestDecimal xs = Some [c] →
  choose 0 xs = Some (c, x) →
  round_up_one rand j st = Some (set_entry c j x st.1, S st.2).
Proof.
  intros Hxs Hidx Hch. unfold round_up_one. rewrite Hxs. simpl.
  by rewrite (choose_single _ _ c Hidx), Hch.
Qed.

(** 8 and 2 duties with 10% of slack give 9 and 3, whatever the random
    source: two roundings, the first for the decimal part 0.8 and the second
    for 0.2 *)
Lemma eight_and_two_with_ten_percent rand calls :
  dutiesPerBasePerDay rand calls Sample.ten_percent 1 Sample.duties_8_2
  = Some (Sample.rounded_8_2, S (S calls)).
Proof.
  unfold dutiesPerBasePerDay, round_days. cbn [seq foldl].
  unfold round_day.
  change (column 0 Sample.duties_8_2) with (Some [8; 2]).
  cbn [mbind option_bind].
  set (slack := map (map (with_slack Sample.ten_percent)) Sample.duties_8_2).
  vm_compute in slack. subst slack.
  set (xs := [S754_finite false 9227469 (-20); S754_finite false 9227469 (-22)]).
  change (column 0 _) with (Some xs). cbn [mbind option_bind fst].
  change (numberRoundUp [8; 2] xs xs) with (Some 2).
  cbn [mbind option_bind]. change (Z.to_nat 2) with 2%nat.
  cbn [round_up].
  rewrite (round_up_one_single rand 0 _ xs 0 (F32.of_int 9)) by reflexivity.
  cbn [mbind option_bind].
  rewrite (round_up_one_single rand 0 _ [F32.of_int 9; S754_finite false 9227469 (-22)] 1
             (F32.of_int 3)) by reflexivity.
  reflexivity.
Qed.

(** the total that C1 gives and the total of the program: with 10 duties at
    one base and none at the other and 10% of slack, the first base has 11
    after scaling, so that the specified total is 11; the program
    allocates 12. *)
Lemma day_total_differs_from_specified_target :
  target_as_specified [10; 0] (map (with_slack Sample.ten_percent) [10; 0])
  = Some 11
  ∧ (dutiesPerBasePerDay Sample.no_rand 0 Sample.ten_percent 1
       Sample.duties_10_0
     ≫= λ r, mapM (mapM to_int) r.1) = Some [[12]; [0]].
Proof. split; reflexivity. Qed.

(** a day of a sample is in range: [cs] are its counts, [fs] the integer
    parts of the counts with slack and [t] that of their float sum *)
Ltac sample_day_of cs fs t :=
  let j := fresh "j" in
  let Hj := fresh "Hj" in
  intros j Hj; exists cs; split;
  [ destruct j; [reflexivity|lia]
  | split; [done|]; split; [repeat constructor; vm_compute; congruence|];
    split; [exists fs; vm_compute; reflexivity|];
    exists t; split; [vm_compute; reflexivity|reflexivity] ].

(** the days of the sample with 8 and 2 duties are in range *)
Ltac sample_day := sample_day_of [8; 2] [8; 2] 11.

(** C1. What the program allocates on a day: for a slack that is not
    negative and days in range, the first output has a result whatever the
    random source, and the entries of every day, cast to [int], add up to
    the integer part of the float sum of the counts with slack plus one.
    [numberRoundUp] is at least 1 when line 292 tests it against 0, so
    that the branch of lines 292-307 is never taken: the total of the
    program is the total of the specification when no base has more than
    its raw count after scaling, and one more than it otherwise. *)
Theorem first_output_day_total rand calls percentSlack numDays
    (initial : list (list Z)) :
  fge percentSlack F32.zero = true →
  (∀ j, (j < numDays)%nat →
     ∃ cs, column j initial = Some cs ∧ day_in_range percentSlack cs) →
  ∃ final calls',
    dutiesPerBasePerDay rand calls percentSlack numDays initial
      = Some (final, calls')
    ∧ ∀ (j : nat) (cs : list Z) (t : Z),
        (j < numDays)%nat → column j initial = Some cs →
        to_int (sum_floats (map (with_slack percentSlack) cs)) = Some t →
        ∃ (xs' : list float) (fs' fs : list Z) (nru : Z),
          column j final = Some xs' ∧ mapM to_int xs' = Some fs'
          ∧ total fs' = t + 1
          ∧ numberRoundUp cs (map (with_slack percentSlack) cs)
              (map (with_slack percentSlack) cs) = Some nru
          ∧ 1 ≤ nru
          ∧ mapM to_int (map (with_slack percentSlack) cs) = Some fs
          ∧ target_as_specified cs (map (with_slack percentSlack) cs)
            = Some (if existsb (λ cf : Z * Z, cf.1 <? cf.2) (zip cs fs)
                    then total fs' - 1 else total fs').
Proof.
  intros Hp Hdays.
  destruct (first_output_total rand calls _ _ _ Hp Hdays)
    as [[final calls'] Hrun].
  exists final, calls'. split; [done|]. intros j cs t Hj Hcs Ht.
  destruct (Hdays j Hj)
    as (cs' & Hcs' & _ & Hrange & [fs Hfs] & t' & Ht' & Hsmall).
  assert (cs' = cs) as -> by congruence.
  assert (t' = t) as -> by congruence.
  destruct (day_sums _ _ _ _ Hp Hrange Hfs Ht Hsmall) as (_ & Hpos & Hsum).
  destruct (first_output_day _ _ _ _ _ _ _ j cs fs t Hrun Hj Hcs Hfs Hpos Ht
              Hsmall) as (xs' & fs' & nru & Hxs' & Hfs' & Hnru & [_ Hr]).
  destruct (numberRoundUp_cases _ _ _ _ Hnru)
    as (t'' & fs'' & Ht'' & Hfs'' & Hc).
  assert (t'' = t) as -> by congruence.
  assert (fs'' = fs) as -> by congruence.
  assert (total fs' = t + 1) as Htotal by lia.
  exists xs', fs', fs, nru. split; [done|]. split; [done|]. split; [done|].
  split; [done|]. split; [lia|]. split; [done|].
  unfold target_as_specified. rewrite Ht, Hfs. cbn [mbind option_bind].
  destruct (existsb _ _); f_equal; lia.
Qed.

Lemma first_output_day_total_witness :
  ∃ final calls' (xs' : list float) (fs' : list Z),
    dutiesPerBasePerDay Sample.no_rand 0 Sample.ten_percent 1
      Sample.duties_10_0 = Some (final, calls')
    ∧ column 0 final = Some xs' ∧ mapM to_int xs' = Some fs'
    ∧ total fs' = 12
    ∧ target_as_specified [10; 0] (map (with_slack Sample.ten_percent) [10; 0])
      = Some (total fs' - 1).
Proof.
  destruct (first_output_day_total Sample.no_rand 0 Sample.ten_percent 1
              Sample.duties_10_0) as (final & calls' & Hrun & Hday).
  - reflexivity.
  - sample_day_of [10; 0] [11; 0] 11.
  - destruct (Hday 0%nat [10; 0] 11)
      as (xs' & fs' & fs & nru & Hxs' & Hfs' & Htotal & _ & _ & Hfs & Hspec).
    + lia.
    + reflexivity.
    + vm_compute. reflexivity.
    + exists final, calls', xs', fs'. split; [exact Hrun|].
      split; [exact Hxs'|]. split; [exact Hfs'|]. split; [exact Htotal|].
      vm_compute in Hfs. injection Hfs as <-. exact Hspec.
Defined.

(** C4 as stated fails for the second output: all the duties of the period
    are on day 1 (10 of them), and the flat averages allocate 3 + 3 on every
    day, fewer than the duties of day 1. *)
Lemma flat_averages_below_duties_of_a_day :
  ∃ avgs ns,
    rounded_averages Sample.ten_percent Sample.half_to_main 2
      Sample.duties_one_day = Some avgs
    ∧ mapM to_int avgs = Some ns
    ∧ column 0 Sample.duties_one_day = Some [10; 0]
    ∧ total ns < total [10; 0].
Proof.
  exists [F32.of_int 3; F32.of_int 3], [3; 3]. repeat split; reflexivity.
Qed.

(** C4, amended. In the first output, for a slack that is not negative
    and days in range, the entries of every day add up to more than the
    duties of that day: at least one more. *)
Theorem first_output_day_exceeds_duties rand calls percentSlack numDays
    (initial : list (list Z)) :
  fge percentSlack F32.zero = true →
  (∀ j, (j < numDays)%nat →
     ∃ cs, column j initial = Some cs ∧ day_in_range percentSlack cs) →
  ∃ final calls',
    dutiesPerBasePerDay rand calls percentSlack numDays initial
      = Some (final, calls')
    ∧ ∀ (j : nat) (cs : list Z),
        (j < numDays)%nat → column j initial = Some cs →
        ∃ xs' fs',
          column j final = Some xs' ∧ mapM to_int xs' = Some fs'
          ∧ total cs + 1 ≤ total fs'.
Proof.
  intros Hp Hdays.
  destruct (first_output_total rand calls _ _ _ Hp Hdays)
    as [[final calls'] Hrun].
  exists final, calls'. split; [done|]. intros j cs Hj Hcs.
  destruct (Hdays j Hj)
    as (cs' & Hcs' & _ & Hrange & [fs Hfs] & t & Ht & Hsmall).
  assert (cs' = cs) as -> by congruence.
  destruct (day_sums _ _ _ _ Hp Hrange Hfs Ht Hsmall) as (Hle & Hpos & Hsum).
  destruct (first_output_day _ _ _ _ _ _ _ j cs fs t Hrun Hj Hcs Hfs Hpos Ht
              Hsmall) as (xs' & fs' & nru & Hxs' & Hfs' & Hnru & [_ Hr]).
  exists xs', fs'. split; [done|]. split; [done|].
  destruct (numberRoundUp_cases _ _ _ _ Hnru)
    as (t' & fs'' & Ht' & Hfs'' & Hc).
  assert (t' = t) as -> by congruence.
  assert (fs'' = fs) as -> by congruence.
  pose proof (total_le _ _ Hle). lia.
Qed.

Lemma first_output_day_exceeds_duties_witness :
  ∃ final calls',
    dutiesPerBasePerDay Sample.no_rand 0 Sample.ten_percent 1
      Sample.duties_8_2 = Some (final, calls')
    ∧ ∀ (j : nat) (cs : list Z),
        (j < 1)%nat → column j Sample.duties_8_2 = Some cs →
        ∃ xs' fs',
          column j final = Some xs' ∧ mapM to_int xs' = Some fs'
          ∧ total cs + 1 ≤ total fs'.
Proof.
  apply (first_output_day_exceeds_duties Sample.no_rand 0 Sample.ten_percent 1
           Sample.duties_8_2).
  - reflexivity.
  - sample_day.
Defined.

(** C5 as stated fails: with 300000 duties at one base, 8 at each of 24
    others and 212% of slack, the floor of the specification for the first
    base is 936000; the program computes [2.12] as a [float], finds
    935999 for this base, rounds the 24 others up and leaves it at 935999.
    The day is in the range of the theorems on the first output. *)
Lemma float_floor_below_the_floor_as_specified :
  floor_as_specified 300000 212 = 936000
  ∧ fge Sample.percent_212 F32.zero = true
  ∧ day_in_range Sample.percent_212 (300000 :: replicate 24 8)
  ∧ (dutiesPerBasePerDay Sample.no_rand 0 Sample.percent_212 1
       Sample.duties_300000_8
     ≫= λ r, column 0 r.1 ≫= mapM to_int)
    = Some (935999 :: replicate 24 25).
Proof.
  split; [reflexivity|]. split; [reflexivity|]. split.
  - split; [done|]. split; [repeat constructor; vm_compute; congruence|].
    split; [exists (935999 :: replicate 24 24); vm_compute; reflexivity|].
    exists 936598. split; [vm_compute; reflexivity|reflexivity].
  - vm_compute. reflexivity.
Qed.

(** for an integer percentage up to 100 and a count up to 500, the integer
    part of the count with slack is the floor of the specification *)
Lemma floor_agrees_small (percent raw : Z) :
  0 ≤ percent ≤ 100 → 0 ≤ raw ≤ 500 →
  to_int (with_slack (F32.of_int percent) raw)
  = Some (floor_as_specified raw percent).
Proof.
  intros Hp Hr.
  assert (forallb (λ p, forallb (floor_agrees p) (seqZ 0 501)) (seqZ 0 101)
          = true) as Hall by (vm_compute; reflexivity).
  rewrite forallb_forall in Hall.
  assert (In percent (seqZ 0 101)) as Hin1
    by (apply list_elem_of_In, elem_of_seqZ; lia).
  pose proof (Hall percent Hin1) as Hrow. rewrite forallb_forall in Hrow.
  assert (In raw (seqZ 0 501)) as Hin2
    by (apply list_elem_of_In, elem_of_seqZ; lia).
  pose proof (Hrow raw Hin2) as Hag. unfold floor_agrees in Hag.
  destruct (to_int _) as [f|]; [|done].
  apply Z.eqb_eq in Hag. by rewrite Hag.
Qed.

(** C5, amended. In the first output, for a slack that is not negative and
    days in range, the entry of every base and day, cast to [int], is at
    least the integer part of the count with slack as the program computes
    it in [float], which is at least the raw count: the roundings only add.
    For an integer percentage up to 100 and a count up to 500 this integer
    part is the floor of the specification. *)
Theorem first_output_keeps_floors rand calls percentSlack numDays
    (initial : list (list Z)) :
  fge percentSlack F32.zero = true →
  (∀ j, (j < numDays)%nat →
     ∃ cs, column j initial = Some cs ∧ day_in_range percentSlack cs) →
  (∃ final calls',
     dutiesPerBasePerDay rand calls percentSlack numDays initial
       = Some (final, calls')
     ∧ ∀ (j : nat) (cs fs : list Z),
         (j < numDays)%nat → column j initial = Some cs →
         mapM to_int (map (with_slack percentSlack) cs) = Some fs →
         ∃ xs' fs',
           column j final = Some xs' ∧ mapM to_int xs' = Some fs'
           ∧ ∀ (base : nat) (f : Z),
               fs !! base = Some f →
               ∃ c f', cs !! base = Some c ∧ fs' !! base = Some f'
                       ∧ c ≤ f ∧ f ≤ f')
  ∧ ∀ percent raw : Z,
      0 ≤ percent ≤ 100 → 0 ≤ raw ≤ 500 →
      to_int (with_slack (F32.of_int percent) raw)
      = Some (floor_as_specified raw percent).
Proof.
  intros Hp Hdays. split; [|apply floor_agrees_small].
  destruct (first_output_total rand calls _ _ _ Hp Hdays)
    as [[final calls'] Hrun].
  exists final, calls'. split; [done|]. intros j cs fs Hj Hcs Hfs.
  destruct (Hdays j Hj)
    as (cs' & Hcs' & _ & Hrange & _ & t & Ht & Hsmall).
  assert (cs' = cs) as -> by congruence.
  destruct (day_sums _ _ _ _ Hp Hrange Hfs Ht Hsmall) as (Hraw & Hpos & _).
  destruct (first_output_day _ _ _ _ _ _ _ j cs fs t Hrun Hj Hcs Hfs Hpos Ht
              Hsmall) as (xs' & fs' & nru & Hxs' & Hfs' & _ & [Hle _]).
  exists xs', fs'. split; [done|]. split; [done|].
  intros base f Hf.
  destruct (Forall2_lookup_l _ _ _ _ _ Hle Hf) as (f' & Hf' & Hff).
  destruct (Forall2_lookup_r _ _ _ _ _ Hraw Hf) as (c & Hc & Hcf).
  by exists c, f'.
Qed.

Lemma first_output_keeps_floors_witness :
  ∃ final calls' (xs' : list float) (fs' : list Z),
    dutiesPerBasePerDay Sample.no_rand 0 Sample.ten_percent 1
      Sample.duties_8_2 = Some (final, calls')
    ∧ column 0 final = Some xs' ∧ mapM to_int xs' = Some fs'
    ∧ (∃ c f', [8; 2] !! 1%nat = Some c ∧ fs' !! 1%nat = Some f'
               ∧ c ≤ 2 ∧ 2 ≤ f')
    ∧ to_int (with_slack Sample.ten_percent 8)
      = Some (floor_as_specified 8 10).
Proof.
  destruct (first_output_keeps_floors Sample.no_rand 0 Sample.ten_percent 1
              Sample.duties_8_2) as [(final & calls' & Hrun & Hday) Hfloor].
  - reflexivity.
  - sample_day.
  - destruct (Hday 0%nat [8; 2] [8; 2])
      as (xs' & fs' & Hxs' & Hfs' & Hbase).
    + lia.
    + reflexivity.
    + vm_compute. reflexivity.
    + exists final, calls', xs', fs'. split; [exact Hrun|].
      split; [exact Hxs'|]. split; [exact Hfs'|].
      split; [exact (Hbase 1%nat 2 eq_refl)|].
      apply (Hfloor 10 8); lia.
Defined.

(** ** The second output has a result *)

Lemma best_scan_defined (avgs : list float) :
  ∀ (j : nat) (st : nat * float),
    Forall (λ x, is_Some (to_int x)) avgs →
    ∃ st', best_scan j avgs st = Some st'
           ∧ (st'.1 = st.1 ∨ (j ≤ st'.1 < j + length avgs)%nat).
Proof.
  induction avgs as [|x avgs IH]; intros j st Hok; simpl.
  - exists st. split; [done|]. by left.
  - apply Forall_cons in Hok as [[n Hn] Hok].
    unfold decimal. rewrite Hn. cbn [mbind option_bind].
    set (d := F32.sub x (F32.of_int n)).
    destruct (IH (S j) (if fge d st.2 then (j, d) else st) Hok)
      as (st' & Hst' & Hcases).
    exists st'. split; [done|].
    destruct (fge d st.2); simpl in Hcases; lia.
Qed.

Lemma round_best_defined (avgs : list float) :
  avgs ≠ [] → Forall (λ x, is_Some (to_int x)) avgs →
  is_Some (round_best avgs).
Proof.
  intros Hne Hok. unfold round_best, best_index.
  destruct (best_scan_defined avgs 0 (0%nat, F32.zero) Hok)
    as ([index d] & -> & Hcases). simpl in *.
  assert (index < length avgs)%nat as Hlt.
  { destruct avgs; [done|]. simpl in *. lia. }
  destruct (lookup_lt_is_Some_2 _ _ Hlt) as [x Hx]. rewrite Hx. simpl.
  destruct (Forall_lookup_1 _ _ _ _ Hok Hx) as [n ->]. simpl. eauto.
Qed.

(** one rounding of the second output adds one to one of the averages *)
Lemma round_best_floors (avgs avgs' : list float) (fs : list Z) :
  round_best avgs = Some avgs' → mapM to_int avgs = Some fs →
  Forall (λ f, 0 ≤ f ∧ f + 1 < 2 ^ 24) fs →
  ∃ fs', mapM to_int avgs' = Some fs' ∧ raised 1 fs fs'
         ∧ length avgs' = length avgs.
Proof.
  unfold round_best. intros H Hfs Hrange.
  destruct (best_index avgs) as [index|]; simpl in H; [|done].
  destruct (avgs !! index) as [x|] eqn:Hx; simpl in H; [|done].
  destruct (to_int x) as [n|] eqn:Hn; simpl in H; [|done].
  injection H as <-.
  destruct (to_int_lookup _ _ _ _ Hfs Hx) as (n' & Hn' & Hc).
  assert (n' = n) as -> by congruence.
  pose proof (Forall_lookup_1 _ _ _ _ Hrange Hc) as [Hn0 Hn1].
  simpl in Hn0, Hn1.
  exists (<[index := n + 1]> fs). split; [|split].
  - apply to_int_insert; [done|]. apply to_int_of_int. lia.
  - by apply raised_insert.
  - by rewrite length_insert.
Qed.

Lemma round_best_n_total (k : nat) :
  ∀ (avgs : list float) (fs : list Z),
    avgs ≠ [] → mapM to_int avgs = Some fs →
    Forall (λ f, 0 ≤ f ∧ f + Z.of_nat k < 2 ^ 24) fs →
    ∃ avgs' fs',
      round_best_n k avgs = Some avgs' ∧ mapM to_int avgs' = Some fs'
      ∧ raised (Z.of_nat k) fs fs' ∧ length avgs' = length avgs.
Proof.
  induction k as [|k IH]; intros avgs fs Hne Hfs Hrange; simpl.
  - exists avgs, fs. split; [done|]. split; [done|].
    split; [apply raised_refl|done].
  - destruct (round_best_defined avgs Hne (floors_defined _ _ Hfs))
      as [avgs1 H1].
    rewrite H1. simpl.
    destruct (round_best_floors avgs avgs1 fs H1 Hfs) as (fs1 & Hfs1 & Hr1 & Hl1).
    { eapply Forall_impl; [exact Hrange|]. simpl. lia. }
    destruct (IH avgs1 fs1) as (avgs' & fs' & Hn & Hfs' & Hr & Hl); [|done| |].
    + intros ->. destruct avgs; done.
    + apply (raised_range 1 (Z.of_nat k) fs fs1 Hr1); [lia|].
      eapply Forall_impl; [exact Hrange|]. simpl. lia.
    + exists avgs', fs'. split; [done|]. split; [done|]. split.
      * replace (Z.of_nat (S k)) with (1 + Z.of_nat k) by lia.
        by eapply raised_trans.
      * congruence.
Qed.

Lemma round_down_floors (avgs : list float) :
  ∀ fs, mapM to_int avgs = Some fs → round_down avgs = Some (F32.of_int <$> fs).
Proof.
  unfold round_down. induction avgs as [|x avgs IH]; intros fs; simpl.
  - by intros [= <-].
  - destruct (to_int x) as [n|]; simpl; [|done].
    destruct (mapM to_int avgs) as [fs'|]; simpl; [|done].
    intros [= <-]. by rewrite (IH fs' eq_refl).
Qed.

Lemma round_down_integers (avgs out : list float) :
  round_down avgs = Some out →
  ∃ ns, mapM to_int avgs = Some ns ∧ out = F32.of_int <$> ns.
Proof.
  unfold round_down. revert out.
  induction avgs as [|x avgs IH]; intros out; simpl.
  - intros [= <-]. by exists [].
  - destruct (to_int x) as [n|]; simpl; [|done].
    destruct (mapM _ avgs) as [out'|]; simpl; [|done].
    intros [= <-]. destruct (IH out' eq_refl) as (ns & -> & ->).
    by exists (n :: ns).
Qed.

(** the averages of the second output are [int] values, whatever the
    period *)
Lemma rounded_averages_integers percentSlack percentMainBase numDays
    (initial : list (list Z)) (avgs : list float) :
  rounded_averages percentSlack percentMainBase numDays initial = Some avgs →
  ∃ ns : list Z, avgs = F32.of_int <$> ns.
Proof.
  unfold rounded_averages. intros H.
  destruct (numberRoundedUp _ _) as [n|]; cbn [mbind option_bind] in H;
    [|done].
  destruct (round_best_n _ _) as [avgs'|]; cbn [mbind option_bind] in H;
    [|done].
  destruct (round_down_integers _ _ H) as (ns & _ & ->). by exists ns.
Qed.

Lemma averages_loop_length percentSlack numDays initial :
  ∀ st i,
    length (averages (averages_loop percentSlack numDays st i initial))
    = (length (averages st) + length initial)%nat.
Proof.
  induction initial as [|row rows IH]; intros st i; simpl; [lia|].
  rewrite IH. simpl. rewrite length_app. simpl. lia.
Qed.

Lemma distribute_length percentMainBase numBases st :
  length (distribute percentMainBase numBases st) = length (averages st).
Proof. unfold distribute. by rewrite length_imap. Qed.

(** In range the second output has its vector of averages: one entry per
    base, the integer parts of the distributed averages with the roundings
    added. *)
Lemma rounded_averages_total percentSlack percentMainBase numDays
    (initial : list (list Z)) :
  period_in_range percentSlack percentMainBase numDays initial →
  ∃ avgs, rounded_averages percentSlack percentMainBase numDays initial
          = Some avgs
          ∧ length avgs = length initial.
Proof.
  intros (Hne & r & fs & Hr & Hfs & Hpos & Hsmall).
  unfold rounded_averages, numberRoundedUp.
  set (st := averages_loop percentSlack numDays averages_init 0 initial) in *.
  set (avgs := distribute percentMainBase (length initial) st) in *.
  rewrite Hr, (sum_ints_floors _ _ Hfs). simpl.
  assert (length avgs = length initial) as Hlen.
  { unfold avgs, st. rewrite distribute_length, averages_loop_length. done. }
  assert (∃ avgs' fs', round_best_n (Z.to_nat (r - total fs)) avgs = Some avgs'
                       ∧ mapM to_int avgs' = Some fs'
                       ∧ length avgs' = length avgs)
    as (avgs' & fs' & -> & Hfs' & Hl).
  { destruct (Z.le_gt_cases (r - total fs) 0) as [Hle|Hgt].
    - replace (Z.to_nat (r - total fs)) with 0%nat by lia. by exists avgs, fs.
    - destruct (round_best_n_total (Z.to_nat (r - total fs)) avgs fs)
        as (avgs' & fs' & Hn & Hfs' & _ & Hl); [|done| |by exists avgs', fs'].
      + intros Hnil. rewrite Hnil in Hlen. by destruct initial.
      + apply Forall_lookup_2. intros c f Hc.
        pose proof (Forall_lookup_1 _ _ _ _ Hpos Hc) as Hf. simpl in Hf.
        pose proof (total_ge_elem fs c f Hpos Hc). lia. }
  simpl. rewrite (round_down_floors _ _ Hfs').
  eexists. split; [done|]. rewrite length_fmap.
  apply length_mapM in Hfs'. congruence.
Qed.

(** ** The base that is rounded up in the second output *)

Lemma best_scan_spec (avgs : list float) :
  ∀ (j : nat) (st st' : nat * float),
    best_scan j avgs st = Some st' → st.2 ≠ S754_nan →
    ∃ ds,
      mapM decimal avgs = Some ds
      ∧ st'.2 ≠ S754_nan
      ∧ fge st'.2 st.2 = true
      ∧ (∀ k d', ds !! k = Some d' → fge st'.2 d' = true)
      ∧ ((st' = st ∧ ∀ k d', ds !! k = Some d' → fge d' st.2 = false)
         ∨ (∃ k : nat,
              st'.1 = (j + k)%nat ∧ ds !! k = Some st'.2
              ∧ ∀ k' d', (k < k')%nat → ds !! k' = Some d' →
                  fge d' st'.2 = false)).
Proof.
  induction avgs as [|x avgs IH]; intros j st st' Hscan Hst.
  - injection Hscan as <-. exists []. repeat split; try done.
    + by apply fge_refl.
    + left. split; [done|]. intros k d' Hk. done.
  - simpl in Hscan. destruct (decimal x) as [d|] eqn:Hd; simpl in Hscan; [|done].
    pose proof (decimal_not_nan _ _ Hd) as Hdn.
    destruct (fge d st.2) eqn:Hge.
    + destruct (IH (S j) (j, d) st' Hscan Hdn)
        as (ds & Hds & Hn' & Hge' & Hmax & Hlast).
      exists (d :: ds). simpl in *. rewrite Hd, Hds. simpl.
      repeat split; try done.
      * by apply fge_trans with d.
      * intros [|k] d' Hk; simpl in Hk; [by injection Hk as <-|by eapply Hmax].
      * right. destruct Hlast as [[-> Hlow]|(k & Hidx & Hk & Hlow)].
        -- exists 0%nat. simpl. split; [lia|]. split; [done|].
           intros [|k'] d' Hlt Hk'; [lia|]. by eapply Hlow.
        -- exists (S k). simpl. split; [lia|]. split; [done|].
           intros [|k'] d' Hlt Hk'; [lia|]. eapply (Hlow k'); [lia|done].
    + destruct (IH (S j) st st' Hscan Hst)
        as (ds & Hds & Hn' & Hge' & Hmax & Hlast).
      exists (d :: ds). simpl in *. rewrite Hd, Hds. simpl.
      repeat split; try done.
      * intros [|k] d' Hk; simpl in Hk; [|by eapply Hmax].
        injection Hk as <-. apply fge_trans with st.2; [done|].
        by apply fge_total.
      * destruct Hlast as [[-> Hlow]|(k & Hidx & Hk & Hlow)].
        -- left. split; [done|]. intros [|k] d' Hk; simpl in Hk;
             [by injection Hk as <-|by eapply Hlow].
        -- right. exists (S k). simpl. split; [lia|]. split; [done|].
           intros [|k'] d' Hlt Hk'; [lia|]. eapply (Hlow k'); [lia|done].
Qed.

(** C2, amended. Every increment of the second output goes to the base
    that [best_index] returns, a function of the averages alone (no random
    choice): it is the last base, in base order, among those whose decimal
    part is the greatest; a later base with an equal decimal part replaces
    an earlier one, since the scan compares with [>=].  The increment has a
    result as soon as there is a base and every average has an integer
    part. *)
Theorem round_best_takes_last_highest (avgs : list float) :
  avgs ≠ [] → Forall (λ x, is_Some (to_int x)) avgs →
  ∃ (avgs' : list float) (index : nat) (x : float) (n : Z) (ds : list float),
    round_best avgs = Some avgs'
    ∧ best_index avgs = Some index
    ∧ avgs !! index = Some x ∧ to_int x = Some n
    ∧ avgs' = <[index := F32.of_int (n + 1)]> avgs
    ∧ mapM decimal avgs = Some ds
    ∧ ((∃ d, ds !! index = Some d
             ∧ fge d F32.zero = true
             ∧ (∀ k d', ds !! k = Some d' → fge d d' = true)
             ∧ (∀ k d', (index < k)%nat → ds !! k = Some d' →
                  fge d' d = false))
       ∨ (index = 0%nat
          ∧ ∀ k d', ds !! k = Some d' → fge d' F32.zero = false)).
Proof.
  intros Hne Hok. destruct (round_best_defined avgs Hne Hok) as [avgs' H].
  pose proof H as Hrun. unfold round_best, best_index in H.
  destruct (best_scan 0 avgs (0%nat, F32.zero)) as [[index d]|] eqn:Hscan;
    simpl in H; [|done].
  destruct (avgs !! index) as [x|] eqn:Hx; simpl in H; [|done].
  destruct (to_int x) as [n|] eqn:Hn; simpl in H; [|done].
  injection H as <-.
  destruct (best_scan_spec avgs 0 (0%nat, F32.zero) (index, d) Hscan)
    as (ds & Hds & _ & Hge & Hmax & Hlast); [done|].
  exists (<[index := F32.of_int (n + 1)]> avgs), index, x, n, ds.
  simpl in *. split; [done|].
  split; [by unfold best_index; rewrite Hscan|]. repeat split; try done.
  destruct Hlast as [[[= -> ->] Hlow]|(k & -> & Hk & Hlow)].
  - right. done.
  - left. exists d. done.
Qed.

(** C2 as stated fails: of the two bases that tie for the greatest decimal
    part (bases 1 and 2), the scan returns the last one, base 2, and not the
    first one. *)
Lemma tie_goes_to_the_last_base :
  let avgs := distribute Sample.half_to_main 3
                (averages_loop F32.zero 1 averages_init 0 Sample.duties_7_2_2) in
  best_index avgs = Some 2%nat
  ∧ (mapM decimal avgs ≫= first_highest) = Some 1%nat.
Proof. split; reflexivity. Qed.

Lemma round_best_takes_last_highest_witness :
  ∃ (avgs' : list float) (index : nat) (x : float) (n : Z),
    round_best [F32.of_int 5; F32.of_int 2; F32.of_int 2] = Some avgs'
    ∧ best_index [F32.of_int 5; F32.of_int 2; F32.of_int 2] = Some index
    ∧ [F32.of_int 5; F32.of_int 2; F32.of_int 2] !! index = Some x
    ∧ to_int x = Some n.
Proof.
  destruct (round_best_takes_last_highest
              [F32.of_int 5; F32.of_int 2; F32.of_int 2])
    as (avgs' & index & x & n & ds & H0 & H1 & H2 & H3 & _).
  - done.
  - repeat (apply Forall_cons; split; [eexists; vm_compute; reflexivity|]).
    apply Forall_nil. done.
  - exists avgs', index, x, n. split; [exact H0|]. split; [exact H1|].
    split; [exact H2 | exact H3].
Defined.

(** ** The second output is flat over the period *)

Lemma rows_B_lookup (numDays : nat) (avgs : list float) (d : nat)
    (r : nat * list cell) :
  rows_B numDays avgs !! d = Some r → r = (S d, FloatCell <$> avgs).
Proof.
  unfold rows_B. rewrite list_lookup_fmap.
  destruct (seq 0 numDays !! d) as [i|] eqn:Hi; simpl; [|done].
  apply lookup_seq in Hi as [-> _]. by intros [= <-].
Qed.

Lemma second_output_written percentSlack percentMainBase inst baseNames
    initial st (avgs : list float) :
  rounded_averages percentSlack percentMainBase (dayFiles inst) initial
    = Some avgs →
  output_opens inst = true →
  ∃ st' t,
    second_output percentSlack percentMainBase inst baseNames initial st
      = Some st'
    ∧ dayRows t = rows_B (dayFiles inst) avgs
    ∧ header t = baseNames
    ∧ written st' = written st ++ [(name inst, t)]
    ∧ cout st' = cout st ∧ instanceNb st' = instanceNb st.
Proof.
  unfold second_output. intros -> ->. simpl.
  eexists _, (Build_table _ _ _). by repeat split.
Qed.

(** the sample period: one base with 3, 0 and 3 duties, 10% of slack, all
    of it to the main base *)
Ltac sample_period_of r fs :=
  split; [done|]; exists r, fs;
  split; [vm_compute; reflexivity|];
  split; [vm_compute; reflexivity|];
  split; [repeat constructor; lia|reflexivity].

Ltac sample_period := sample_period_of 3 [2].

(** C6. In range the second output writes its table, and every day row of
    it holds the same entries: the entry of a base on day [d1] is its entry
    on day [d2], and every row is the one vector [averages], with one entry
    per base, each of them the value of an [int] (line 495). *)
Theorem second_output_flat percentSlack percentMainBase inst baseNames
    initial st :
  period_in_range percentSlack percentMainBase (dayFiles inst) initial →
  output_opens inst = true →
  ∃ st' avgs t,
    second_output percentSlack percentMainBase inst baseNames initial st
      = Some st'
    ∧ written st' = written st ++ [(name inst, t)]
    ∧ rounded_averages percentSlack percentMainBase (dayFiles inst) initial
        = Some avgs
    ∧ length avgs = length initial
    ∧ (∃ ns : list Z, avgs = F32.of_int <$> ns)
    ∧ length (dayRows t) = dayFiles inst
    ∧ (∀ d r, dayRows t !! d = Some r → r.2 = FloatCell <$> avgs)
    ∧ (∀ d1 d2 r1 r2 (base : nat),
         dayRows t !! d1 = Some r1 → dayRows t !! d2 = Some r2 →
         r1.2 !! base = r2.2 !! base).
Proof.
  intros Hrange Ho.
  destruct (rounded_averages_total _ _ _ _ Hrange) as (avgs & Havgs & Hlen).
  destruct (second_output_written _ _ _ baseNames _ st _ Havgs Ho)
    as (st' & t & Hrun & Hrows & _ & Hw & _).
  exists st', avgs, t. split; [done|]. split; [done|]. split; [done|].
  split; [done|]. split; [by eapply rounded_averages_integers|].
  split; [|split].
  - rewrite Hrows. unfold rows_B. by rewrite length_fmap, length_seq.
  - intros d r Hr. rewrite Hrows in Hr. by apply rows_B_lookup in Hr as ->.
  - intros d1 d2 r1 r2 base H1 H2. rewrite Hrows in H1, H2.
    apply rows_B_lookup in H1 as ->. by apply rows_B_lookup in H2 as ->.
Qed.

Lemma second_output_flat_witness :
  ∃ st' t (ns : list Z),
    second_output Sample.ten_percent Sample.half_to_main Sample.three_bases
      ["BASE1"; "BASE2"; "BASE3"] Sample.duties_7_2_2 start = Some st'
    ∧ written st' = [(name Sample.three_bases, t)]
    ∧ rounded_averages Sample.ten_percent Sample.half_to_main 1
        Sample.duties_7_2_2 = Some (F32.of_int <$> ns)
    ∧ length ns = 3%nat
    ∧ length (dayRows t) = 1%nat
    ∧ (∀ d r, dayRows t !! d = Some r
              → r.2 = FloatCell <$> (F32.of_int <$> ns)).
Proof.
  destruct (second_output_flat Sample.ten_percent Sample.half_to_main
              Sample.three_bases ["BASE1"; "BASE2"; "BASE3"]
              Sample.duties_7_2_2 start)
    as (st' & avgs & t & Hrun & Hw & Havgs & Hbases & (ns & ->) & Hlen
        & Hrows & _).
  - sample_period_of 13 [6; 3; 3].
  - reflexivity.
  - exists st', t, ns. split; [exact Hrun|]. split; [exact Hw|].
    split; [exact Havgs|]. rewrite length_fmap in Hbases.
    split; [exact Hbases|]. split; [exact Hlen | exact Hrows].
Defined.

(** every row of the table of the first output holds the entries of its
    day, cast to [int] *)
Lemma rows_A_day (numDays : nat) (final : list (list float))
    (rows : list (nat * list cell)) (j : nat) :
  rows_A numDays final = Some rows → (j < numDays)%nat →
  ∃ xs fs,
    column j final = Some xs ∧ mapM to_int xs = Some fs
    ∧ rows !! j = Some (S j, IntCell <$> fs).
Proof.
  unfold rows_A. intros Hrows Hj.
  assert (seq 0 numDays !! j = Some j) as Hseq by (apply lookup_seq; lia).
  rewrite mapM_Some in Hrows.
  destruct (Forall2_lookup_l _ _ _ _ _ Hrows Hseq) as (r & Hr & Hj').
  destruct (column j final) as [xs|]; simpl in Hj'; [|done].
  destruct (mapM to_int xs) as [fs|] eqn:Hfs; simpl in Hj'; [|done].
  injection Hj' as <-. by exists xs, fs.
Qed.

(** ** The main base when no base has a duty *)

Lemma averages_loop_no_main percentSlack numDays initial :
  Forall (λ row, period_sum row = 0) initial →
  ∀ st i,
    mainBaseIndex st = -1 → mainBaseAvailability st = 0 →
    mainBaseIndex (averages_loop percentSlack numDays st i initial) = -1.
Proof.
  induction 1 as [|row rows Hrow _ IH]; intros st i Hm Ha; simpl; [done|].
  apply IH; simpl; rewrite Ha, Hrow; simpl; done.
Qed.

Lemma distribute_no_main percentMainBase numBases st :
  mainBaseIndex st = -1 →
  distribute percentMainBase numBases st
  = replicate (length (averages st))
      (other_share percentMainBase (sumAverages st) numBases).
Proof.
  intros Hm. unfold distribute. rewrite Hm.
  generalize (other_share percentMainBase (sumAverages st) numBases) as o.
  generalize (main_share percentMainBase (sumAverages st)) as m.
  intros m o.
  assert (∀ (l : list float) (f : nat → float → float),
    (∀ i x, f i x = o) → imap f l = replicate (length l) o) as Haux.
  { induction l as [|x l IH]; intros f Hf; simpl; [done|].
    rewrite Hf. f_equal. apply IH. intros i y. apply Hf. }
  apply Haux. intros i _.
  destruct (Z.eqb_spec (Z.of_nat i) (-1)); [lia|done].
Qed.

(** C10. When the total of every base over the period is zero, no base
    becomes the main base ([mainBaseIndex] keeps its initial -1, since a base
    is selected only on a total strictly greater than the initial 0), and
    every base is given the share of the other bases,
    [sumAverages*(1-percentMainBase/100)/(baseNames.size()-1)]. *)
Theorem no_duty_no_main_base percentSlack percentMainBase numDays
    (initial : list (list Z)) :
  Forall (λ row, period_sum row = 0) initial →
  let st := averages_loop percentSlack numDays averages_init 0 initial in
  let share := other_share percentMainBase (sumAverages st) (length initial) in
  mainBaseIndex st = -1
  ∧ distribute percentMainBase (length initial) st
    = replicate (length initial) share
  ∧ (∀ i : nat, (i < length initial)%nat →
       distribute percentMainBase (length initial) st !! i = Some share).
Proof.
  intros Hzero st share.
  assert (mainBaseIndex st = -1) as Hm
    by (by apply averages_loop_no_main).
  assert (distribute percentMainBase (length initial) st
          = replicate (length initial) share) as Hd.
  { rewrite (distribute_no_main _ _ _ Hm). unfold st.
    by rewrite averages_loop_length. }
  split; [done|]. split; [done|].
  intros i Hi. rewrite Hd. by apply lookup_replicate_2.
Qed.

Lemma no_duty_no_main_base_witness :
  let initial := [[0; 0]; [0; 0]; [0; 0]] in
  let st := averages_loop Sample.ten_percent 2 averages_init 0 initial in
  mainBaseIndex st = -1
  ∧ distribute Sample.half_to_main 3 st
    = replicate 3 (other_share Sample.half_to_main (sumAverages st) 3).
Proof.
  intros initial st.
  destruct (no_duty_no_main_base Sample.ten_percent Sample.half_to_main 2
              initial) as (H1 & H2 & _).
  - repeat constructor.
  - split; [exact H1 | exact H2].
Defined.

(** ** The loop over the instances *)

Lemma main_loop_missing_registry rand percentSlack percentMainBase instances
    inst fuel :
  listOfBases inst = None →
  ∀ st,
    instances !! instanceNb st = Some inst →
    main_loop rand percentSlack percentMainBase instances fuel st
    = Running {| instanceNb := instanceNb st;
                 cout := cout st ++ replicate fuel (ListOfBasesNotFound (name inst));
                 written := written st; calls := calls st |}.
Proof.
  intros Hnone. induction fuel as [|fuel IH]; intros st Hinst.
  - pose proof (lookup_lt_Some _ _ _ Hinst) as Hlt.
    apply Nat.ltb_lt in Hlt. simpl. rewrite Hlt.
    destruct st; simpl. by rewrite app_nil_r.
  - pose proof (lookup_lt_Some _ _ _ Hinst) as Hlt.
    apply Nat.ltb_lt in Hlt. simpl. rewrite Hlt.
    unfold main_step. rewrite Hinst. simpl. rewrite Hnone.
    rewrite IH by done. simpl. by rewrite <- app_assoc.
Qed.

(** C9, evaluated on a batch whose first instance has no [listOfBases.csv]:
    whatever the number of iterations, the loop is still running on that
    first instance, having written the error once per iteration; [main]
    never returns, and the second instance is never reached. *)
Theorem missing_registry_never_ends rand percentSlack percentMainBase fuel :
  main rand percentSlack percentMainBase
    [Sample.no_registry; Sample.one_base] fuel
  = Running {| instanceNb := 0;
               cout := replicate fuel (ListOfBasesNotFound "no_registry");
               written := []; calls := 0 |}.
Proof.
  unfold main. by rewrite (main_loop_missing_registry _ _ _ _ Sample.no_registry).
Qed.

(** The sibling path: an instance without [solution_0] is reported once and
    the loop goes on to the next instance. *)
Lemma missing_solution_is_skipped :
  ∃ t,
    main Sample.no_rand Sample.ten_percent Sample.all_to_main
      [Sample.no_solution; Sample.one_base] 2
    = Returned {| instanceNb := 2; cout := [SolutionNotFound "no_solution"];
                  written := [("one_base", t)]; calls := 0 |}.
Proof. eexists. vm_compute. reflexivity. Qed.

(** ** The second output on an instance with a single base *)

(** C8 as stated fails: an instance with one base given to the second
    output is not skipped and nothing is logged; its table is written. *)
Lemma single_base_is_processed :
  ∃ t,
    main Sample.no_rand Sample.ten_percent Sample.all_to_main
      [Sample.one_base] 1
    = Returned {| instanceNb := 1; cout := [];
                  written := [("one_base", t)]; calls := 0 |}
    ∧ dayRows t = rows_B 3 [F32.of_int 3].
Proof. eexists. vm_compute. split; reflexivity. Qed.

(** C8, amended. The second output has no check on the number of bases: on
    an instance with one base, in range, it writes the table and logs
    nothing, as for any instance.  When the total of that base over the
    period is positive it is the main base and its average is
    [sumAverages*percentMainBase/100.]: the quotient by
    [baseNames.size()-1], which is 0 here, is not computed. *)
Theorem single_base_second_output percentSlack percentMainBase inst
    (b : string) (row : list Z) st :
  0 < period_sum row →
  output_opens inst = true →
  period_in_range percentSlack percentMainBase (dayFiles inst) [row] →
  let sums := averages_loop percentSlack (dayFiles inst) averages_init 0 [row] in
  mainBaseIndex sums = 0
  ∧ distribute percentMainBase 1 sums
    = [main_share percentMainBase (sumAverages sums)]
  ∧ ∃ st' t,
      second_output percentSlack percentMainBase inst [b] [row] st = Some st'
      ∧ cout st' = cout st
      ∧ written st' = written st ++ [(name inst, t)].
Proof.
  intros Hpos Ho Hrange sums.
  destruct (rounded_averages_total _ _ _ _ Hrange) as (avgs & Havgs & _).
  destruct (second_output_written _ _ _ [b] _ st _ Havgs Ho)
    as (st' & t & Hrun & _ & _ & Hw & Hc & _).
  assert (mainBaseIndex sums = 0) as Hm.
  { unfold sums. simpl. apply Z.ltb_lt in Hpos. by rewrite Hpos. }
  split; [done|]. split; [|by exists st', t].
  unfold distribute. rewrite Hm. reflexivity.
Qed.

Lemma single_base_second_output_witness :
  let sums := averages_loop Sample.ten_percent 3 averages_init 0 [[3; 0; 3]] in
  mainBaseIndex sums = 0
  ∧ distribute Sample.all_to_main 1 sums
    = [main_share Sample.all_to_main (sumAverages sums)]
  ∧ ∃ st' t,
      second_output Sample.ten_percent Sample.all_to_main Sample.one_base
        ["BASE1"] [[3; 0; 3]] start = Some st'
      ∧ cout st' = cout start
      ∧ written st' = written start ++ [(name Sample.one_base, t)].
Proof.
  apply (single_base_second_output Sample.ten_percent Sample.all_to_main
           Sample.one_base "BASE1" [3; 0; 3] start).
  - reflexivity.
  - reflexivity.
  - sample_period.
Defined.

(** * Further properties

    Properties of the code that the sections above leave out: the counting
    of the duties, the loop over the instances, the edges of the two
    outputs, and the reading of the input files. *)

(** ** The base of an employee *)

Lemma find_base_None (b : string) (names : list string) :
  find_base b names = None ↔ b ∉ names.
Proof.
  induction names as [|x names IH]; simpl.
  - split; [intros _; apply not_elem_of_nil|done].
  - destruct (String.eqb_spec b x) as [->|Hne].
    + split; [done|]. intros H. exfalso. apply H. left.
    + rewrite not_elem_of_cons. destruct (find_base b names); simpl.
      * split; [done|]. intros [_ H]. by apply IH in H.
      * split; [|done]. intros _. split; [done|]. by apply IH.
Qed.

Lemma find_base_Some (b : string) (names : list string) (i : nat) :
  find_base b names = Some i
  ↔ names !! i = Some b ∧ ∀ k, (k < i)%nat → names !! k ≠ Some b.
Proof.
  revert i. induction names as [|x names IH]; intros i; simpl.
  - split; [done|]. by intros [? _].
  - destruct (String.eqb_spec b x) as [->|Hne].
    + split.
      * intros [= <-]. split; [done|]. intros k Hk. lia.
      * intros [Hi Hfirst]. destruct i as [|i]; [done|].
        exfalso. by apply (Hfirst 0%nat); [lia|].
    + destruct i as [|i]; simpl.
      * split.
        -- by destruct (find_base b names).
        -- intros [[= ->] _]. done.
      * pose proof (IH i) as IHi. clear IH.
        assert ((∀ k : nat, (k < S i)%nat → (x :: names) !! k ≠ Some b)
                ↔ (∀ k : nat, (k < i)%nat → names !! k ≠ Some b)) as Hk.
        { split.
          - intros H k Hlt. apply (H (S k)). lia.
          - intros H [|k] Hlt; simpl; [congruence|]. apply H. lia. }
        destruct (find_base b names) as [i'|]; simpl.
        -- split.
           ++ intros [= ->]. destruct (proj1 IHi eq_refl) as [Hi Hfirst].
              split; [done|]. by apply Hk.
           ++ intros [Hi Hfirst]. f_equal.
              assert (Some i' = Some i) as [= ->]; [|done].
              apply IHi. split; [done|]. by apply Hk.
        -- split; [done|]. intros [Hi Hfirst]. exfalso.
           assert (None = Some i) as [=].
           apply IHi. split; [done|]. by apply Hk.
Qed.

(** ** The table counts the events *)

Lemma count_employee_counted baseNames emp (duties duties' : list (list Z))
    (evs : list (nat * Z)) :
  count_employee baseNames emp duties = Some (duties', evs) →
  ∃ (b : nat) (days : list Z),
    evs = (λ d, (b, d)) <$> days
    ∧ StronglySorted Z.lt days
    ∧ Forall (λ d, 1 ≤ d ∧ is_Some (entry duties b (Z.to_nat (d - 1)))) days
    ∧ ∀ i j,
        entry duties' i j = (λ c, c + occurrences i j evs) <$> entry duties i j.
Proof.
  unfold count_employee. intros H.
  destruct (substr _ 1 _) as [base|]; cbn [mbind option_bind] in H; [|done].
  destruct (substr_from _ 1) as [sched|]; cbn [mbind option_bind] in H;
    [|done].
  destruct (find_base base baseNames) as [b|].
  - destruct (tasks_loop _ b _) as [st|] eqn:Hloop;
      cbn [mbind option_bind] in H; [|done].
    injection H as <- <-.
    destruct (tasks_loop_counted _ _ _ _ Hloop) as (new & Hc); [simpl; lia|].
    destruct Hc as (He & _ & Hr & Hs & Hi & Ht). simpl in *.
    rewrite app_nil_r in He. rewrite He.
    exists b, (rev new). split; [done|]. split; [|split].
    + clear -Hs. induction Hs as [|d new Hs IH Hd]; simpl; [constructor|].
      apply StronglySorted_app_2; [|done|repeat constructor].
      intros d1 d2 H1 H2. apply list_elem_of_singleton in H2 as ->.
      apply (proj1 (elem_of_rev _ _)) in H1.
      by apply (proj1 (Forall_forall _ _) Hd).
    + apply Forall_forall. intros d Hd. apply (proj1 (elem_of_rev _ _)) in Hd. split.
      * pose proof (proj1 (Forall_forall _ _) Hr d Hd). simpl in *. lia.
      * by apply (proj1 (Forall_forall _ _) Hi d Hd).
    + intros i j. rewrite Ht. rewrite <- (occurrences_rev i j (_ <$> new)).
      by rewrite map_rev.
  - injection H as <- <-. exists 0%nat, []. split; [done|].
    split; [constructor|]. split; [constructor|]. intros i j.
    destruct (entry duties i j); simpl; [f_equal|done].
    rewrite occurrences_nil. lia.
Qed.

Lemma increasing_NoDup (days : list Z) : StronglySorted Z.lt days → NoDup days.
Proof.
  induction 1 as [|d days _ IH Hd]; constructor; [|done].
  intros Hin. pose proof (proj1 (Forall_forall _ _) Hd d Hin). lia.
Qed.

Lemma count_duties_counted baseNames (emps : list employee) :
  ∀ (duties duties' : list (list Z)) (evs : list (nat * Z)),
    count_duties baseNames emps duties = Some (duties', evs) →
    (∀ i j,
       entry duties' i j = (λ c, c + occurrences i j evs) <$> entry duties i j)
    ∧ Forall (λ ev, 1 ≤ ev.2
                    ∧ is_Some (entry duties ev.1 (Z.to_nat (ev.2 - 1)))) evs.
Proof.
  induction emps as [|emp emps IH]; intros duties duties' evs H; simpl in H.
  - injection H as <- <-. split; [|constructor]. intros i j.
    destruct (entry duties i j); simpl; [f_equal|done].
    rewrite occurrences_nil. lia.
  - destruct (count_employee baseNames emp duties) as [[duties1 evs1]|] eqn:H1;
      cbn [mbind option_bind] in H; [|done].
    destruct (count_duties baseNames emps duties1) as [[duties2 evs2]|] eqn:H2;
      cbn [mbind option_bind] in H; [|done].
    injection H as <- <-.
    destruct (count_employee_counted _ _ _ _ _ H1)
      as (b & days & -> & _ & Hdays & Ht1).
    destruct (IH _ _ _ H2) as (Ht2 & Hr2).
    split.
    + intros i j. rewrite Ht2, Ht1, occurrences_app.
      destruct (entry duties i j); simpl; [f_equal; lia|done].
    + apply Forall_app. split.
      * apply Forall_fmap. eapply Forall_impl; [exact Hdays|]. done.
      * eapply Forall_impl; [exact Hr2|]. simpl. intros ev [? Hs].
        split; [done|]. rewrite Ht1 in Hs. by rewrite fmap_is_Some in Hs.
Qed.

Lemma entry_zero_duties (numBases numDays i j : nat) :
  entry (zero_duties numBases numDays) i j
  = if bool_decide (i < numBases ∧ j < numDays)%nat then Some 0 else None.
Proof.
  unfold entry, zero_duties.
  destruct (decide (i < numBases)%nat) as [Hi|Hi].
  - rewrite lookup_replicate_2 by done. simpl.
    destruct (decide (j < numDays)%nat) as [Hj|Hj].
    + rewrite lookup_replicate_2 by done. by rewrite bool_decide_eq_true_2.
    + rewrite bool_decide_eq_false_2 by (intros [_ ?]; done).
      apply lookup_replicate_None. lia.
  - rewrite bool_decide_eq_false_2 by (intros [? _]; done).
    assert (replicate numBases (replicate numDays 0) !! i = None) as ->
      by (apply lookup_replicate_None; lia).
    done.
Qed.

(** X1. The table of the duties is the count of the events: starting from
    the zeros of lines 128-135, the entry of base [i] and of the day of index
    [j] is the number of duties counted for this base on day [j + 1], and
    every duty counted is for a base of the list and a day of the period. *)
Theorem duties_count_the_events baseNames (emps : list employee)
    (numDays : nat) (duties : list (list Z)) (evs : list (nat * Z)) :
  count_duties baseNames emps (zero_duties (length baseNames) numDays)
  = Some (duties, evs) →
  (∀ i j, (i < length baseNames)%nat → (j < numDays)%nat →
     entry duties i j = Some (occurrences i j evs))
  ∧ Forall (λ ev, (ev.1 < length baseNames)%nat
                  ∧ 1 ≤ ev.2 ≤ Z.of_nat numDays) evs.
Proof.
  intros H. destruct (count_duties_counted _ _ _ _ _ H) as [Ht Hr]. split.
  - intros i j Hi Hj. rewrite Ht, entry_zero_duties.
    rewrite bool_decide_eq_true_2 by done. simpl. f_equal; lia.
  - eapply Forall_impl; [exact Hr|]. simpl. intros [b d] [Hd Hs]. simpl in *.
    rewrite entry_zero_duties in Hs.
    destruct (bool_decide_reflect (b < length baseNames ∧ Z.to_nat (d - 1) < numDays)%nat)
      as [[? ?]|]; [|by destruct Hs]. lia.
Qed.

Lemma duties_count_the_events_witness :
  ∃ duties evs,
    count_duties ["BASE1"] Sample.crew (zero_duties 1 3) = Some (duties, evs)
    ∧ entry duties 0 0 = Some (occurrences 0 0 evs)
    ∧ entry duties 0 2 = Some 3.
Proof.
  destruct (count_duties ["BASE1"] Sample.crew (zero_duties 1 3))
    as [[duties evs]|] eqn:H; [|vm_compute in H; discriminate].
  exists duties, evs. split; [reflexivity|].
  destruct (duties_count_the_events ["BASE1"] Sample.crew 3 duties evs H)
    as [Ht _].
  split; [apply Ht; simpl; lia|].
  vm_compute in H. injection H as <- <-. reflexivity.
Defined.

(** X2. An employee is counted at most once per day, and only at the base
    of the employee: the days counted increase strictly along the schedule,
    and an entry of the table is raised by one when its base and day are
    counted and left as it is otherwise. *)
Theorem employee_counts_each_day_once baseNames (emp : employee)
    (duties duties' : list (list Z)) (evs : list (nat * Z)) :
  count_employee baseNames emp duties = Some (duties', evs) →
  ∃ (b : nat) (days : list Z),
    evs = (λ d, (b, d)) <$> days
    ∧ StronglySorted Z.lt days
    ∧ Forall (λ d, 1 ≤ d) days
    ∧ ∀ i j c,
        entry duties i j = Some c →
        entry duties' i j
        = Some (if bool_decide ((i, Z.of_nat j + 1) ∈ evs) then c + 1 else c).
Proof.
  intros H.
  destruct (count_employee_counted _ _ _ _ _ H)
    as (b & days & -> & Hs & Hdays & Ht).
  exists b, days. split; [done|]. split; [done|]. split.
  - eapply Forall_impl; [exact Hdays|]. simpl. tauto.
  - intros i j c Hc. rewrite Ht, Hc. simpl. f_equal.
    rewrite occurrences_NoDup.
    + destruct (bool_decide _); lia.
    + apply NoDup_fmap_2; [|by apply increasing_NoDup].
      intros d1 d2 [= ->]. done.
Qed.

Lemma employee_counts_each_day_once_witness :
  ∃ (b : nat) (days : list Z),
    [(1%nat, 1); (1%nat, 3)] = (λ d, (b, d)) <$> days
    ∧ StronglySorted Z.lt days.
Proof.
  destruct (employee_counts_each_day_once ["BASE0"; "BASE1"]
              Sample.out_of_order (zero_duties 2 3)
              [[0; 0; 0]; [1; 0; 1]] [(1%nat, 1); (1%nat, 3)])
    as (b & days & H1 & H2 & _).
  - vm_compute. reflexivity.
  - exists b, days. split; [exact H1 | exact H2].
Defined.

(** ** A schedule and the length of the period *)

Lemma tasks_loop_events (b : nat) :
  ∀ (tasks : list string) (task : string) (days : list (option Z))
    (fuel : nat) (st st' : tasks_state),
    Forall2 task_of_day (task :: tasks) days →
    schedule st = schedule_of task tasks →
    tasks_loop fuel b st = Some st' →
    rev (events st') = rev (events st) ++ emitted (day st) (airleg_days days).
Proof.
  assert (∀ (d : option Z) (days : list (option Z)) (st st1 : tasks_state),
    match d with Some d => count_day b d st | None => Some st end = Some st1 →
    rev (events st) ++ emitted (day st) (airleg_days (d :: days))
    = rev (events st1) ++ emitted (day st1) (airleg_days days)) as Hone.
  { intros [d|] days st st1 H; unfold airleg_days; simpl.
    - destruct (count_day_cases _ _ _ _ H) as [(Hlt & Hd & He & _)|[Hge Heq]].
      + apply Z.ltb_lt in Hlt. rewrite Hlt, Hd, He. simpl.
        by rewrite <- app_assoc.
      + subst st1. destruct (Z.ltb_spec (day st) d); [lia|done].
    - by injection H as <-. }
  induction tasks as [|task' tasks IH];
    intros task days fuel st st' Htasks Hsched Hloop;
    (destruct fuel as [|fuel]; [done|]);
    apply Forall2_cons_inv_l in Htasks
      as (d & days' & (Hdash & Hd) & Htasks & ->);
    cbn [tasks_loop] in Hloop.
  - apply Forall2_nil_inv_l in Htasks as ->.
    rewrite (tasks_step_last _ _ task) in Hloop by done.
    rewrite (count_task_day _ _ _ _ Hd) in Hloop.
    destruct (match d with Some d => count_day b d st | None => Some st end)
      as [st1|] eqn:H1; cbn [mbind option_bind] in Hloop; [|done].
    injection Hloop as <-. rewrite (Hone d [] st st1 H1).
    unfold airleg_days. simpl. by rewrite app_nil_r.
  - rewrite (tasks_step_next _ _ task (schedule_of task' tasks)) in Hloop
      by done.
    rewrite (count_task_day _ _ _ _ Hd) in Hloop.
    set (st0 := {| schedule := schedule_of task' tasks; day := day st;
                   initialDutiesPerBasePerDay := initialDutiesPerBasePerDay st;
                   events := events st |}) in *.
    destruct (match d with Some d => count_day b d st0 | None => Some st0 end)
      as [st1|] eqn:H1; cbn [mbind option_bind] in Hloop; [|done].
    rewrite (IH task' days' fuel st1 st' Htasks) by
      (first [done | destruct d as [d|];
                     [by rewrite (count_day_schedule _ _ _ _ H1)
                     |by injection H1 as <-]]).
    by rewrite <- (Hone d days' st0 st1 H1).
Qed.

Lemma emitted_bound (n : Z) (days : list Z) :
  ∀ m, m ≤ n → Forall (λ d, d ≤ n) (emitted m days) →
       Forall (λ d, d ≤ n) days.
Proof.
  induction days as [|d days IH]; intros m Hm H; [constructor|].
  simpl in H. destruct (Z.ltb_spec m d).
  - apply Forall_cons in H as [Hd H]. constructor; [done|]. by apply (IH d).
  - constructor; [lia|]. by apply (IH m).
Qed.

(** X3. The loop over the tasks of a schedule of airlegs has a result exactly
    when every day that the running maximum keeps is a day of the period: a
    day kept that is greater than the number of days is a write outside
    the vector of the base. *)
Theorem schedule_within_the_period (b : nat) (duties : list (list Z))
    (row : list Z) (task : string) (tasks : list string)
    (days : list (option Z)) :
  Forall2 task_of_day (task :: tasks) days →
  duties !! b = Some row →
  is_Some (tasks_loop (S (String.length (schedule_of task tasks))) b
             {| schedule := schedule_of task tasks; day := 0;
                initialDutiesPerBasePerDay := duties; events := [] |})
  ↔ Forall (λ d, d ≤ Z.of_nat (length row)) (emitted 0 (airleg_days days)).
Proof.
  intros Htasks Hrow. split.
  - intros [st' Hloop].
    pose proof (tasks_loop_events b tasks task days _
                  {| schedule := schedule_of task tasks; day := 0;
                     initialDutiesPerBasePerDay := duties; events := [] |}
                  st' Htasks eq_refl Hloop) as Hev.
    destruct (tasks_loop_counted _ _ _ _ Hloop) as (new & Hc); [simpl; lia|].
    destruct Hc as (He & _ & Hr & _ & Hi & _). simpl in *.
    rewrite app_nil_r in He. rewrite He in Hev. rewrite <- Hev.
    apply Forall_forall. intros d Hd. apply (proj1 (elem_of_rev _ _)) in Hd.
    pose proof (proj1 (Forall_forall _ _) Hr d Hd) as Hd0.
    pose proof (proj1 (Forall_forall _ _) Hi d Hd) as [c Hc].
    simpl in Hd0. unfold entry in Hc. rewrite Hrow in Hc. simpl in Hc.
    apply lookup_lt_Some in Hc. lia.
  - intros Hdays.
    destruct (tasks_loop_schedule_of b tasks task days
                (S (String.length (schedule_of task tasks)))
                {| schedule := schedule_of task tasks; day := 0;
                   initialDutiesPerBasePerDay := duties; events := [] |} row)
      as (st' & Hloop & _);
      [done|done|simpl; lia|done|apply (emitted_bound _ _ 0); [lia|done]
      |pose proof (schedule_of_length tasks task); lia|by exists st'].
Qed.

Lemma schedule_within_the_period_witness :
  is_Some (tasks_loop (S (String.length (schedule_of "LEG_04_00959_0" [])))
             0 {| schedule := schedule_of "LEG_04_00959_0" []; day := 0;
                  initialDutiesPerBasePerDay := [[0; 0; 0]];
                  events := [] |})
  ↔ Forall (λ d, d ≤ Z.of_nat (length [0; 0; 0]))
      (emitted 0 (airleg_days [Some 4])).
Proof.
  apply (schedule_within_the_period 0 [[0; 0; 0]] [0; 0; 0]
           "LEG_04_00959_0" [] [Some 4]).
  - repeat constructor.
  - reflexivity.
Defined.

(** ** An unknown base, a short task *)

(** X4. The base of an employee is looked up from the start of the list of
    bases: the index found is that of the first base with this name (a name
    listed twice only counts at its first place), and no index is found
    exactly when the name is not in the list. *)
Theorem find_base_first (b : string) (names : list string) :
  (∀ i, find_base b names = Some i
        ↔ names !! i = Some b ∧ ∀ k, (k < i)%nat → names !! k ≠ Some b)
  ∧ (find_base b names = None ↔ b ∉ names).
Proof. split; [intros i; apply find_base_Some|apply find_base_None]. Qed.

(** X5. An employee whose base is not in the list of bases adds no duty,
    and the schedule is not read: whatever it holds, the table is left as it
    is. *)
Theorem unknown_base_adds_no_duty baseNames (emp : employee)
    (duties : list (list Z)) (base sched : string) :
  substr (baseString emp) 1 (String.length (baseString emp) - 2) = Some base →
  substr_from (line emp) 1 = Some sched →
  base ∉ baseNames →
  count_employee baseNames emp duties = Some (duties, []).
Proof.
  intros Hb Hs Hout. unfold count_employee. rewrite Hb, Hs.
  cbn [mbind option_bind].
  by rewrite (proj2 (find_base_None base baseNames) Hout).
Qed.

Lemma unknown_base_adds_no_duty_witness :
  count_employee ["BASE1"]
    {| baseString := "(BASE7)"; line := " not a schedule" |} [[0; 0; 0]]
  = Some ([[0; 0; 0]], []).
Proof.
  apply (unknown_base_adds_no_duty ["BASE1"]
           {| baseString := "(BASE7)"; line := " not a schedule" |}
           [[0; 0; 0]] "BASE7" "not a schedule").
  - reflexivity.
  - reflexivity.
  - intros H. apply list_elem_of_singleton in H. discriminate.
Defined.

(** X6. A task of fewer than four characters, other than [TDH], has no
    result: [substr(4,2)] (or [substr(4)] for [PAL]) throws
    [std::out_of_range].  An empty task, as in a schedule that is only [;],
    is such a task. *)
Theorem short_task_has_no_result (b : nat) (task : string) (st : tasks_state) :
  (String.length task < 4)%nat → task ≠ "TDH" →
  count_task b task st = None.
Proof.
  intros Hlen Hne. unfold count_task, is_airleg.
  assert (substr task 0 4 = Some task) as ->.
  { unfold substr. simpl. by rewrite substring_all by lia. }
  assert (substr task 0 3 = Some task) as H3.
  { unfold substr. simpl. by rewrite substring_all by lia. }
  rewrite H3. cbn [mbind option_bind].
  destruct (String.eqb_spec task "VACATION") as [->|_]; [simpl in Hlen; lia|].
  destruct (String.eqb_spec task "POST") as [->|_]; [simpl in Hlen; lia|].
  destruct (String.eqb_spec task "TDH") as [->|_]; [done|].
  cbn [negb andb]. unfold strip_PAL. rewrite H3. cbn [mbind option_bind].
  destruct (String.eqb task "PAL").
  - unfold substr_from, substr.
    destruct (Nat.leb_spec 4 (String.length task)); [lia|done].
  - cbn [mbind option_bind]. unfold count_leg, leg_day, substr.
    destruct (Nat.leb_spec 4 (String.length task)); [lia|done].
Qed.

Lemma short_task_has_no_result_witness :
  count_employee ["BASE1"] {| baseString := "(BASE1)"; line := " ;" |}
    [[0; 0; 0]] = None
  ∧ count_task 0 EmptyString
      {| schedule := EmptyString; day := 0;
         initialDutiesPerBasePerDay := [[0; 0; 0]]; events := [] |} = None.
Proof.
  split; [reflexivity|].
  apply short_task_has_no_result; [simpl; lia|discriminate].
Defined.

(** ** The loop over the instances: one message or one table per instance *)

Lemma generate_reports rand percentSlack percentMainBase inst baseNames
    (st st' : run_state) :
  generate rand percentSlack percentMainBase inst baseNames st = Some st' →
  instanceNb st' = instanceNb st ∧ reports st' = S (reports st).
Proof.
  unfold generate, reports. intros H.
  destruct (solution_0 inst) as [emps|].
  - destruct (count_duties _ _ _) as [[initial evs]|];
      cbn [mbind option_bind] in H; [|done].
    destruct (feq _ _).
    + unfold first_output in H.
      destruct (dutiesPerBasePerDay _ _ _ _ _) as [[final calls']|];
        cbn [mbind option_bind] in H; [|done].
      destruct (percentSlackAdded_A _ _); cbn [mbind option_bind] in H;
        [|done].
      destruct (output_opens inst).
      * destruct (rows_A _ _); cbn [mbind option_bind] in H; [|done].
        injection H as <-. simpl. rewrite length_app. simpl. lia.
      * injection H as <-. simpl. rewrite length_app. simpl. lia.
    + unfold second_output in H.
      destruct (rounded_averages _ _ _ _); cbn [mbind option_bind] in H;
        [|done].
      destruct (output_opens inst); injection H as <-; simpl;
        rewrite length_app; simpl; lia.
  - injection H as <-. simpl. rewrite length_app. simpl. lia.
Qed.

Lemma main_loop_returned rand percentSlack percentMainBase instances
    (fuel : nat) :
  ∀ st st',
    main_loop rand percentSlack percentMainBase instances fuel st
    = Returned st' →
    (instanceNb st ≤ length instances)%nat →
    instanceNb st' = length instances
    ∧ (reports st' = reports st + (length instances - instanceNb st))%nat
    ∧ ∀ k inst, (instanceNb st ≤ k)%nat → instances !! k = Some inst →
                listOfBases inst ≠ None.
Proof.
  induction fuel as [|fuel IH]; intros st st' H Hle; pose proof H as H0;
    simpl in H.
  - destruct (Nat.ltb_spec (instanceNb st) (length instances)); [done|].
    injection H as <-. split; [lia|]. split; [lia|].
    intros k inst Hk Hinst. apply lookup_lt_Some in Hinst. lia.
  - destruct (Nat.ltb_spec (instanceNb st) (length instances)) as [Hlt|Hge].
    + destruct (lookup_lt_is_Some_2 _ _ Hlt) as [inst Hinst].
      destruct (listOfBases inst) as [baseNames|] eqn:Hbases.
      * unfold main_step in H. rewrite Hinst in H.
        cbn [mbind option_bind] in H. rewrite Hbases in H.
        destruct (generate _ _ _ _ _ _) as [st1|] eqn:Hgen;
          cbn [mbind option_bind] in H; [|done].
        destruct (generate_reports _ _ _ _ _ _ _ Hgen) as [Hnb Hrep].
        destruct (IH (next_instance st1) st' H) as (Hn & Hr & Hall).
        { simpl. lia. }
        split; [done|]. split.
        -- rewrite Hr. unfold reports in *. simpl. lia.
        -- intros k inst' Hk Hinst'.
           destruct (decide (k = instanceNb st)) as [->|Hne].
           ++ assert (inst' = inst) as -> by congruence. by rewrite Hbases.
           ++ apply (Hall k); [simpl; lia|done].
      * rewrite (main_loop_missing_registry _ _ _ _ inst _ Hbases st Hinst)
          in H0. done.
    + injection H as <-. split; [lia|]. split; [lia|].
      intros k inst Hk Hinst. apply lookup_lt_Some in Hinst. lia.
Qed.

(** X7. When [main] returns, every instance of the batch has been passed
    and each one has left exactly one trace: an error message on [cout] or a
    table written. *)
Theorem one_report_per_instance rand percentSlack percentMainBase instances
    (fuel : nat) (st : run_state) :
  main rand percentSlack percentMainBase instances fuel = Returned st →
  instanceNb st = length instances
  ∧ (length (cout st) + length (written st))%nat = length instances.
Proof.
  unfold main. intros H.
  destruct (main_loop_returned _ _ _ _ _ _ _ H) as (Hn & Hr & _);
    [simpl; lia|].
  split; [done|]. unfold reports in Hr. simpl in Hr. lia.
Qed.

Lemma one_report_per_instance_witness :
  ∃ st,
    main Sample.no_rand Sample.ten_percent Sample.all_to_main
      [Sample.no_solution; Sample.one_base] 2 = Returned st
    ∧ instanceNb st = 2%nat
    ∧ (length (cout st) + length (written st))%nat = 2%nat.
Proof.
  destruct (main Sample.no_rand Sample.ten_percent Sample.all_to_main
              [Sample.no_solution; Sample.one_base] 2) as [st| |st] eqn:H;
    [|vm_compute in H; discriminate|vm_compute in H; discriminate].
  exists st. split; [reflexivity|].
  exact (one_report_per_instance _ _ _ _ _ _ H).
Defined.

(** X8. [main] does not return from a batch in which some instance has no
    [listOfBases.csv], whatever the place of the instance in the batch and
    however long the loop runs: the loop is still running, or an instance
    before it has no defined result. *)
Theorem missing_registry_anywhere rand percentSlack percentMainBase instances
    (inst : instance) (fuel : nat) :
  inst ∈ instances → listOfBases inst = None →
  main rand percentSlack percentMainBase instances fuel = NoResult
  ∨ ∃ st, main rand percentSlack percentMainBase instances fuel = Running st.
Proof.
  unfold main. intros Hin Hnone.
  destruct (main_loop rand percentSlack percentMainBase instances fuel start)
    as [st| |st] eqn:H; [|by left|right; by exists st].
  exfalso.
  destruct (main_loop_returned _ _ _ _ _ _ _ H) as (_ & _ & Hall);
    [simpl; lia|].
  apply list_elem_of_lookup in Hin as [k Hk].
  apply (Hall k inst); [simpl; lia|done|done].
Qed.

Lemma missing_registry_anywhere_witness :
  main Sample.no_rand Sample.ten_percent Sample.all_to_main
    [Sample.one_base; Sample.no_registry] 5 = NoResult
  ∨ ∃ st, main Sample.no_rand Sample.ten_percent Sample.all_to_main
            [Sample.one_base; Sample.no_registry] 5 = Running st.
Proof.
  apply (missing_registry_anywhere _ _ _ _ Sample.no_registry).
  - right. left.
  - reflexivity.
Defined.

(** X9. When every instance has its list of bases, one iteration per
    instance ends the loop: [main] returns, unless an instance has no
    defined result. *)
Theorem batch_ends rand percentSlack percentMainBase instances :
  Forall (λ inst, listOfBases inst ≠ None) instances →
  main rand percentSlack percentMainBase instances (length instances)
  = NoResult
  ∨ ∃ st, main rand percentSlack percentMainBase instances (length instances)
          = Returned st.
Proof.
  unfold main. intros Hall.
  assert (∀ fuel st0,
            (length instances ≤ instanceNb st0 + fuel)%nat →
            main_loop rand percentSlack percentMainBase instances fuel st0
            = NoResult
            ∨ ∃ st, main_loop rand percentSlack percentMainBase instances fuel
                      st0 = Returned st) as Hloop.
  { induction fuel as [|fuel IH]; intros st0 Hfuel; simpl.
    - destruct (Nat.ltb_spec (instanceNb st0) (length instances)); [lia|].
      right. by exists st0.
    - destruct (Nat.ltb_spec (instanceNb st0) (length instances)) as [Hlt|];
        [|right; by exists st0].
      destruct (lookup_lt_is_Some_2 _ _ Hlt) as [inst Hinst].
      unfold main_step. rewrite Hinst. cbn [mbind option_bind].
      pose proof (Forall_lookup_1 _ _ _ _ Hall Hinst) as Hb. simpl in Hb.
      destruct (listOfBases inst) as [baseNames|]; [|done].
      destruct (generate _ _ _ _ _ _) as [st1|] eqn:Hgen;
        cbn [mbind option_bind]; [|by left].
      destruct (generate_reports _ _ _ _ _ _ _ Hgen) as [Hnb _].
      apply IH. simpl. lia. }
  apply Hloop. simpl. lia.
Qed.

Lemma batch_ends_witness :
  main Sample.no_rand Sample.ten_percent Sample.all_to_main
    [Sample.no_solution; Sample.one_base] 2 = NoResult
  ∨ ∃ st, main Sample.no_rand Sample.ten_percent Sample.all_to_main
            [Sample.no_solution; Sample.one_base] 2 = Returned st.
Proof.
  apply (batch_ends _ _ _ [Sample.no_solution; Sample.one_base]).
  repeat constructor; discriminate.
Defined.

(** ** The second output adds up to the rounded sum *)

(** X10. In the second output the averages of the bases, once rounded, add
    up to [(int)(sumAverages + 1)], and no base has less than the integer
    part of its share (shares that are not negative, a rounded sum below
    2^24 and not below the sum of the integer parts). *)
Theorem second_output_sum percentSlack percentMainBase (numDays : nat)
    (initial : list (list Z)) (r : Z) (fs : list Z) :
  let st := averages_loop percentSlack numDays averages_init 0 initial in
  initial ≠ [] →
  roundedSumAverages (sumAverages st) = Some r →
  mapM to_int (distribute percentMainBase (length initial) st) = Some fs →
  Forall (λ f, 0 ≤ f) fs → r < 2 ^ 24 → total fs ≤ r →
  ∃ fs',
    rounded_averages percentSlack percentMainBase numDays initial
    = Some (F32.of_int <$> fs')
    ∧ total fs' = r
    ∧ Forall2 Z.le fs fs'.
Proof.
  intros st Hne Hr Hfs Hpos Hsmall Hle.
  unfold rounded_averages, numberRoundedUp. fold st.
  set (avgs := distribute percentMainBase (length initial) st) in *.
  rewrite Hr, (sum_ints_floors _ _ Hfs). cbn [mbind option_bind].
  assert (length avgs = length initial) as Hlen.
  { unfold avgs, st. rewrite distribute_length, averages_loop_length. done. }
  destruct (round_best_n_total (Z.to_nat (r - total fs)) avgs fs)
    as (avgs' & fs' & -> & Hfs' & [Hle' Hsum] & _); [|done| |].
  - intros Hnil. rewrite Hnil in Hlen. by destruct initial.
  - apply Forall_lookup_2. intros c f Hc.
    pose proof (Forall_lookup_1 _ _ _ _ Hpos Hc) as Hf. simpl in Hf.
    pose proof (total_ge_elem fs c f Hpos Hc). lia.
  - cbn [mbind option_bind]. rewrite (round_down_floors _ _ Hfs').
    exists fs'. split; [done|]. split; [lia|done].
Qed.

Lemma second_output_sum_witness :
  ∃ fs',
    rounded_averages Sample.ten_percent Sample.half_to_main 1
      Sample.duties_7_2_2 = Some (F32.of_int <$> fs')
    ∧ total fs' = 13
    ∧ Forall2 Z.le [6; 3; 3] fs'.
Proof.
  apply (second_output_sum Sample.ten_percent Sample.half_to_main 1
           Sample.duties_7_2_2 13 [6; 3; 3]).
  - done.
  - vm_compute. reflexivity.
  - vm_compute. reflexivity.
  - repeat constructor; lia.
  - reflexivity.
  - simpl. lia.
Defined.

(** ** An instance without any base *)

(** X11. With an empty list of bases neither output has a result: the first
    one, as soon as the period has a day, takes [rand()] modulo 0 for the
    base to round up, and the second one increments [averages[0]] in an
    empty vector. *)
Theorem no_base_no_result rand (calls : nat) percentSlack percentMainBase
    (numDays : nat) :
  dutiesPerBasePerDay rand calls percentSlack (S numDays) [] = None
  ∧ rounded_averages percentSlack percentMainBase numDays [] = None.
Proof. split; reflexivity. Qed.

(** ** A day without any duty *)

Lemma round_up_calls rand (j : nat) (n : nat) :
  ∀ st st', round_up rand j n st = Some st' → st'.2 = (st.2 + n)%nat.
Proof.
  induction n as [|n IH]; intros st st' H; simpl in H.
  - injection H as <-. lia.
  - destruct (round_up_one rand j st) as [st1|] eqn:H1; simpl in H; [|done].
    rewrite (IH _ _ H). unfold round_up_one in H1.
    destruct (column j st.1); simpl in H1; [|done].
    destruct (choose _ _) as [[c x]|]; simpl in H1; [|done].
    injection H1 as <-. simpl. lia.
Qed.

Lemma round_day_calls rand initial slack (j : nat) st st' :
  round_day rand initial slack j st = Some st' → (st.2 ≤ st'.2)%nat.
Proof.
  unfold round_day. intros H.
  destruct (column j initial); simpl in H; [|done].
  destruct (column j slack); simpl in H; [|done].
  destruct (column j st.1); simpl in H; [|done].
  destruct (numberRoundUp _ _ _); simpl in H; [|done].
  rewrite (round_up_calls _ _ _ _ _ H). lia.
Qed.

Lemma round_days_calls rand initial slack (days : list nat) :
  ∀ st st', round_days rand initial slack days st = Some st' →
            (st.2 ≤ st'.2)%nat.
Proof.
  induction days as [|j days IH]; intros st st' H; simpl in H.
  - injection H as <-. lia.
  - destruct (round_day rand initial slack j st) as [st1|] eqn:H1; simpl in H;
      [|done].
    pose proof (round_day_calls _ _ _ _ _ _ H1). pose proof (IH _ _ H). lia.
Qed.

(** the iteration of the loop over the days that rounds day [j] *)
Lemma round_days_split rand initial slack (days : list nat) :
  ∀ st st' (j : nat),
    round_days rand initial slack days st = Some st' →
    NoDup days → j ∈ days →
    ∃ st1 st2,
      column j st1.1 = column j st.1
      ∧ round_day rand initial slack j st1 = Some st2
      ∧ column j st'.1 = column j st2.1
      ∧ (st.2 ≤ st1.2)%nat ∧ (st2.2 ≤ st'.2)%nat.
Proof.
  induction days as [|j0 days IH]; intros st st' j Hrun Hnd Hj.
  - by apply elem_of_nil in Hj.
  - simpl in Hrun.
    destruct (round_day rand initial slack j0 st) as [st1|] eqn:H1;
      simpl in Hrun; [|done].
    apply NoDup_cons in Hnd as [Hj0 Hnd].
    destruct (decide (j = j0)) as [->|Hne].
    + exists st, st1. split; [done|]. split; [done|].
      split; [by eapply round_days_frame|]. split; [lia|].
      by eapply round_days_calls.
    + apply elem_of_cons in Hj as [?|Hj]; [done|].
      destruct (IH st1 st' j Hrun Hnd Hj) as (st2 & st3 & Hc & Hd & Hc' & ? & ?).
      exists st2, st3. split; [|split; [done|]].
      * rewrite Hc. eapply round_day_frame; [done|congruence].
      * split; [done|]. pose proof (round_day_calls _ _ _ _ _ _ H1). lia.
Qed.

Lemma with_slack_zero (percentSlack : float) :
  is_Some (to_int (with_slack percentSlack 0)) →
  ∃ s, with_slack percentSlack 0 = S754_zero s.
Proof.
  unfold with_slack.
  change (F64.mul F64.one (F64.of_int 0)) with (S754_zero false).
  destruct (F64.add _ _) as [s|s| |s m e]; simpl; intros [n Hn];
    try done; eauto.
Qed.

Lemma sum_floats_zeros (zs : list float) :
  Forall (λ z, ∃ s, z = S754_zero s) zs → sum_floats zs = F32.zero.
Proof.
  unfold sum_floats. induction 1 as [|z zs [s ->] _ IH]; [done|].
  simpl. by destruct s.
Qed.

Lemma highest_scan_zeros (s : bool) (n : nat) :
  ∀ (k : nat) (idx : list nat),
    highest_scan k (replicate n (S754_zero s)) (idx, F32.zero)
    = Some (idx ++ seq k n, F32.zero).
Proof.
  induction n as [|n IH]; intros k idx; simpl.
  - by rewrite app_nil_r.
  - assert (highest_step k (S754_zero s) (idx, F32.zero)
            = Some (idx ++ [k], F32.zero)) as ->
      by (destruct s; vm_compute; reflexivity).
    simpl. rewrite IH. by rewrite <- app_assoc.
Qed.

Lemma choose_zeros (r : nat) (s : bool) (n : nat) :
  (0 < n)%nat →
  choose r (replicate n (S754_zero s)) = Some ((r `mod` n)%nat, F32.of_int 1).
Proof.
  intros Hn. unfold choose, indexHighestDecimal.
  rewrite highest_scan_zeros. simpl.
  destruct (decide (seq 0 n = [])) as [Hnil|_].
  { destruct n; [lia|done]. }
  rewrite length_seq.
  assert (r `mod` n < n)%nat as Hlt by (apply Nat.mod_upper_bound; lia).
  rewrite lookup_seq_lt by done. simpl.
  rewrite lookup_replicate_2 by done. simpl. done.
Qed.

(** X12. A day on which no base has a duty still gets one crew: the first
    output rounds up exactly one entry of the day, that of the base
    [rand() % baseNames.size()] for the value of [rand()] drawn for the day,
    and the other bases stay at 0. *)
Theorem day_without_duty rand (calls : nat) percentSlack (numDays : nat)
    (initial : list (list Z)) final (calls' : nat) (j : nat) :
  dutiesPerBasePerDay rand calls percentSlack numDays initial
  = Some (final, calls') →
  (j < numDays)%nat → initial ≠ [] →
  column j initial = Some (replicate (length initial) 0) →
  ∃ (c : nat) (xs' : list float),
    (calls ≤ c < calls')%nat
    ∧ column j final = Some xs'
    ∧ mapM to_int xs'
      = Some (<[(rand c `mod` length initial)%nat := 1]>
                (replicate (length initial) 0)).
Proof.
  intros Hrun Hj Hne Hcs.
  set (n := length initial) in *.
  assert (0 < n)%nat as Hn by (unfold n; destruct initial; [done|simpl; lia]).
  destruct (first_output_day_defined _ _ _ _ _ _ _ j Hrun Hj)
    as (cs & fs & t & Hcs' & Hfs & _).
  assert (cs = replicate n 0) as -> by congruence.
  destruct (with_slack_zero percentSlack) as [s Hz].
  { destruct n as [|n']; [lia|]. simpl in Hfs.
    destruct (to_int (with_slack percentSlack 0)); [eauto|done]. }
  unfold dutiesPerBasePerDay in Hrun.
  set (slack := map (map (with_slack percentSlack)) initial) in *.
  assert (column j slack = Some (replicate n (S754_zero s))) as Hslack.
  { unfold slack. rewrite column_map, Hcs. simpl. f_equal.
    clear -Hz. induction n as [|n IH]; simpl; [done|]. by rewrite Hz, IH. }
  destruct (round_days_split _ _ _ _ _ _ j Hrun) as
    (st1 & st2 & Hc1 & Hday & Hc2 & Hle1 & Hle2).
  { apply NoDup_seq. }
  { apply elem_of_seq. lia. }
  simpl in Hc1, Hle1, Hc2, Hle2. rewrite Hslack in Hc1.
  unfold round_day in Hday. rewrite Hcs, Hslack, Hc1 in Hday.
  cbn [mbind option_bind] in Hday.
  assert (numberRoundUp (replicate n 0) (replicate n (S754_zero s))
            (replicate n (S754_zero s)) = Some 1) as Hnru.
  { unfold numberRoundUp. rewrite sum_floats_zeros.
    - assert (mapM to_int (replicate n (S754_zero s)) = Some (replicate n 0))
        as Hfl.
      { clear. induction n as [|n IH]; simpl; [done|]. by rewrite IH. }
      rewrite (sum_ints_floors _ _ Hfl). simpl.
      replace (total (replicate n 0)) with 0; [done|].
      clear. induction n as [|n IH]; simpl; lia.
    - apply Forall_replicate. eauto. }
  rewrite Hnru in Hday. cbn [mbind option_bind] in Hday.
  change (Z.to_nat 1) with 1%nat in Hday. cbn [round_up] in Hday.
  unfold round_up_one in Hday. rewrite Hc1 in Hday.
  cbn [mbind option_bind] in Hday. rewrite choose_zeros in Hday by done.
  cbn [mbind option_bind] in Hday. injection Hday as <-.
  simpl in Hc2, Hle2.
  exists st1.2. eexists. split; [lia|]. split.
  - rewrite Hc2. by apply column_set_entry.
  - apply to_int_insert; [|reflexivity].
    clear. induction n as [|n IH]; simpl; [done|]. by rewrite IH.
Qed.

Lemma day_without_duty_witness :
  ∃ (c : nat) (xs' : list float),
    (0 ≤ c < 1)%nat
    ∧ column 0 [[F32.of_int 1]; [S754_zero false]] = Some xs'
    ∧ mapM to_int xs'
      = Some (<[(Sample.no_rand c `mod` 2)%nat := 1]> (replicate 2 0)).
Proof.
  apply (day_without_duty Sample.no_rand 0 Sample.ten_percent 1 [[0]; [0]]
           [[F32.of_int 1]; [S754_zero false]] 1 0).
  - vm_compute. reflexivity.
  - lia.
  - done.
  - reflexivity.
Defined.

(** ** A period without days *)

Lemma average_no_day (sum : Z) : not_finite (average 0 sum).
Proof.
  unfold average. change (F64.of_int (Z.of_nat 0)) with (S754_zero false).
  by destruct (F64.mul _ _).
Qed.

Lemma mul_not_finite prec emax (x y : float) :
  not_finite x → not_finite (SFmul prec emax x y).
Proof. by destruct x, y. Qed.

Lemma add_not_finite prec emax (x y : float) :
  not_finite y → not_finite (SFadd prec emax x y).
Proof.
  destruct x as [s|s| |s m e], y as [s'|s'| |s' m' e']; try done.
  by destruct s, s'.
Qed.

Lemma add_not_finite_l prec emax (x : float) (m : positive) (e : Z) :
  not_finite x → not_finite (SFadd prec emax x (S754_finite false m e)).
Proof. by destruct x. Qed.

Lemma of_double_not_finite (x : float) : not_finite x → not_finite (F32.of_double x).
Proof. by destruct x. Qed.

Lemma averages_step_no_day percentSlack st (i : nat) (row : list Z) :
  not_finite (sumAverages (averages_step percentSlack 0 st i row)).
Proof.
  simpl. apply of_double_not_finite, add_not_finite.
  unfold average_with_slack. apply mul_not_finite, average_no_day.
Qed.

Lemma averages_loop_no_day percentSlack (initial : list (list Z)) :
  ∀ st (i : nat),
    initial ≠ [] ∨ not_finite (sumAverages st) →
    not_finite (sumAverages (averages_loop percentSlack 0 st i initial)).
Proof.
  induction initial as [|row rows IH]; intros st i H; simpl.
  - by destruct H.
  - apply IH. right. apply averages_step_no_day.
Qed.

(** X13. With a period of no day (no [day_1.csv] in the folder) the second
    output has no result: the averages are quotients by 0, their sum is an
    infinity or a NaN, and [int roundedSumAverages = sumAverages+1] casts
    it to [int]. *)
Theorem second_output_without_days percentSlack percentMainBase
    (initial : list (list Z)) :
  rounded_averages percentSlack percentMainBase 0 initial = None.
Proof.
  destruct initial as [|row rows]; [reflexivity|].
  unfold rounded_averages, numberRoundedUp, roundedSumAverages.
  assert (not_finite (sumAverages (averages_loop percentSlack 0 averages_init
                                     0 (row :: rows)))) as Hs
    by (by apply averages_loop_no_day; left).
  set (st := averages_loop percentSlack 0 averages_init 0 (row :: rows)) in *.
  assert (to_int (F32.add (sumAverages st) (F32.of_int 1)) = None) as ->;
    [|done].
  by destruct (sumAverages st).
Qed.

Lemma concat_replicate_nil {A : Type} (n : nat) :
  concat (replicate n ([] : list A)) = [].
Proof. induction n as [|n IH]; simpl; done. Qed.

Lemma map_replicate_nil {A B : Type} (f : A → B) (n : nat) :
  map (map f) (replicate n []) = replicate n [].
Proof. induction n as [|n IH]; simpl; [done|]. by rewrite IH. Qed.

(** X14. With a period of no day the first output draws no random number and
    writes a table that has its header and no row; the percentage of slack
    of its comment line is 0/0, a NaN. *)
Theorem first_output_without_days rand percentSlack inst
    (baseNames : list string) (n : nat) (st : run_state) :
  dayFiles inst = 0%nat → output_opens inst = true →
  first_output rand percentSlack inst baseNames (zero_duties n 0) st
  = Some (write (name inst)
            {| slackAdded := S754_nan; header := baseNames; dayRows := [] |}
            (calls st) st).
Proof.
  intros Hdays Hopen. unfold first_output, dutiesPerBasePerDay.
  rewrite Hdays, Hopen. unfold zero_duties. simpl.
  unfold percentSlackAdded_A.
  rewrite map_replicate_nil, !concat_replicate_nil. reflexivity.
Qed.

Lemma first_output_without_days_witness :
  first_output Sample.no_rand Sample.ten_percent
    {| name := "empty"; listOfBases := Some ["BASE1"]; dayFiles := 0;
       solution_0 := Some []; output_opens := true |}
    ["BASE1"] (zero_duties 1 0) start
  = Some {| instanceNb := 0; cout := [];
            written := [("empty", {| slackAdded := S754_nan;
                                     header := ["BASE1"]; dayRows := [] |})];
            calls := 0 |}.
Proof.
  apply (first_output_without_days Sample.no_rand Sample.ten_percent
           {| name := "empty"; listOfBases := Some ["BASE1"]; dayFiles := 0;
              solution_0 := Some []; output_opens := true |} ["BASE1"] 1 start);
    reflexivity.
Defined.

(** ** The main base *)

Lemma averages_step_main_base percentSlack (numDays : nat)
    (seen : list (list Z)) (row : list Z) (st : averages_state) :
  main_base_of seen st →
  main_base_of (seen ++ [row])
    (averages_step percentSlack numDays st (length seen) row).
Proof.
  intros Hst. unfold main_base_of. simpl.
  destruct (Z.ltb_spec (mainBaseAvailability st) (period_sum row)) as [Hlt|Hge].
  - right. exists (length seen), row.
    split; [done|]. split; [by rewrite lookup_app_r, Nat.sub_diag|].
    split; [done|].
    destruct Hst as [(_ & Ha & Hall)|(i & row0 & _ & Hi & Ha & Hpos & Hall & _)].
    + split; [lia|]. split.
      * apply Forall_app. split; [|repeat constructor; lia].
        eapply Forall_impl; [exact Hall|]. simpl. lia.
      * intros k row' Hk Hrow'. rewrite lookup_app_l in Hrow' by done.
        pose proof (Forall_lookup_1 _ _ _ _ Hall Hrow'). simpl in *. lia.
    + split; [lia|]. split.
      * apply Forall_app. split; [|repeat constructor; lia].
        eapply Forall_impl; [exact Hall|]. simpl. lia.
      * intros k row' Hk Hrow'. rewrite lookup_app_l in Hrow' by done.
        pose proof (Forall_lookup_1 _ _ _ _ Hall Hrow'). simpl in *. lia.
  - destruct Hst as [(Hi & Ha & Hall)|(i & row0 & Hi & Hrow0 & Ha & Hpos & Hall & Hfirst)].
    + left. split; [done|]. split; [done|].
      apply Forall_app. split; [done|]. repeat constructor. lia.
    + right. exists i, row0. split; [done|].
      split; [by apply lookup_app_l_Some|]. split; [done|]. split; [done|].
      split.
      * apply Forall_app. split; [done|]. repeat constructor. lia.
      * intros k row' Hk Hrow'. apply (Hfirst k); [done|].
        apply lookup_lt_Some in Hrow0.
        by rewrite lookup_app_l in Hrow' by lia.
Qed.

Lemma averages_loop_main_base percentSlack (numDays : nat)
    (rows : list (list Z)) :
  ∀ (seen : list (list Z)) (st : averages_state),
    main_base_of seen st →
    main_base_of (seen ++ rows)
      (averages_loop percentSlack numDays st (length seen) rows).
Proof.
  induction rows as [|row rows IH]; intros seen st Hst; simpl.
  - by rewrite app_nil_r.
  - replace (seen ++ row :: rows) with ((seen ++ [row]) ++ rows)
      by (by rewrite <- app_assoc).
    replace (S (length seen)) with (length (seen ++ [row]))
      by (rewrite length_app; simpl; lia).
    apply IH. by apply averages_step_main_base.
Qed.

(** X15. The main base of the second output is the first base, in base
    order, whose total over the period is the greatest, provided this total
    is positive; when no base has a positive total there is no main base
    ([mainBaseIndex] stays at -1). *)
Theorem main_base_is_the_first_greatest percentSlack (numDays : nat)
    (initial : list (list Z)) :
  let st := averages_loop percentSlack numDays averages_init 0 initial in
  (mainBaseIndex st = -1 ∧ Forall (λ row, period_sum row ≤ 0) initial)
  ∨ ∃ (i : nat) (row : list Z),
      mainBaseIndex st = Z.of_nat i
      ∧ initial !! i = Some row
      ∧ 0 < period_sum row
      ∧ Forall (λ row', period_sum row' ≤ period_sum row) initial
      ∧ ∀ (k : nat) (row' : list Z),
          (k < i)%nat → initial !! k = Some row' →
          period_sum row' < period_sum row.
Proof.
  intros st.
  destruct (averages_loop_main_base percentSlack numDays initial []
              averages_init) as [(Hi & _ & Hall)|(i & row & Hi & Hrow & _ & H)].
  - left. split; [done|]. split; [done|]. constructor.
  - left. by split.
  - right. by exists i, row.
Qed.

Example main_base_of_a_tie :
  mainBaseIndex
    (averages_loop Sample.ten_percent 1 averages_init 0 [[2]; [7]; [7]; [3]])
  = 1.
Proof. reflexivity. Qed.

(** ** The lines of a file *)

Lemma lines_getline (s : string) :
  lines s = match getline s with
            | None => []
            | Some (l, r) => l :: lines r
            end.
Proof.
  induction s as [|c s IH]; [done|].
  cbn [lines getline split_line].
  destruct (Ascii.eqb c newline); [done|].
  rewrite IH. destruct s as [|c' s']; [done|].
  cbn [getline]. by destruct (split_line (String c' s')).
Qed.

Lemma lines_line (l rest : string) :
  find newline l = None →
  lines (l +:+ String newline rest) = l :: lines rest.
Proof.
  induction l as [|c l IH]; intros Hl.
  - change (EmptyString +:+ String newline rest) with (String newline rest).
    cbn [lines]. by rewrite Ascii.eqb_refl.
  - change (String c l +:+ String newline rest)
      with (String c (l +:+ String newline rest)).
    cbn [lines]. simpl in Hl. revert Hl.
    destruct (Ascii.eqb c newline); [intros [=]|intros Hl].
    rewrite IH; [done|]. by destruct (find newline l).
Qed.

Lemma lines_unlines (ls : list string) :
  Forall (λ l, find newline l = None) ls → lines (unlines ls) = ls.
Proof.
  induction 1 as [|l ls Hl _ IH]; [done|].
  cbn [unlines]. by rewrite lines_line, IH.
Qed.

(** ** The list of the bases *)

Lemma find_spaces (c : ascii) (k : nat) :
  c ≠ " "%char → find c (spaces k) = None.
Proof.
  intros Hc. induction k as [|k IH]; [done|]. cbn [find spaces]. rewrite IH.
  destruct (Ascii.eqb_spec " " c); [congruence|reflexivity].
Qed.

Lemma find_first_not_of_spaces (k : nat) :
  find_first_not_of " " (spaces k) = None.
Proof. induction k as [|k IH]; [done|]. simpl. by rewrite IH. Qed.

Lemma find_first_not_of_comma (a b : string) :
  is_Some (find_first_not_of " " (a +:+ String "," b)).
Proof.
  induction a as [|c a IH].
  - change (EmptyString +:+ String "," b) with (String "," b). simpl. eauto.
  - change (String c a +:+ String "," b) with (String c (a +:+ String "," b)).
    cbn [find_first_not_of]. destruct (Ascii.eqb c " "); [|eauto].
    destruct IH as [n ->]. simpl. eauto.
Qed.

Lemma atoi_flag (flag : ascii) :
  negb (atoi (String flag EmptyString) =? 0) = is_base flag.
Proof. destruct flag as [[] [] [] [] [] [] [] []]; reflexivity. Qed.

Lemma baseName_line_blank (k : nat) (baseNames : list string) :
  baseName_line (spaces k) baseNames = Some baseNames.
Proof. unfold baseName_line. by rewrite find_first_not_of_spaces. Qed.

Lemma baseName_line_airport (name : string) (flag : ascii)
    (baseNames : list string) :
  find " " name = None → find "," name = None →
  baseName_line (name +:+ " , " +:+ String flag EmptyString) baseNames
  = Some (if is_base flag then baseNames ++ [name] else baseNames).
Proof.
  intros Hsp Hco. unfold baseName_line.
  set (line := name +:+ " , " +:+ String flag EmptyString).
  assert (line = (name +:+ " ") +:+ String "," (String " " (String flag EmptyString)))
    as Hline1 by (unfold line; by rewrite !append_assoc).
  destruct (find_first_not_of_comma (name +:+ " ")
              (String " " (String flag EmptyString))) as [n Hn].
  rewrite Hline1 at 1. rewrite Hn.
  assert (find " " line = Some (String.length name)) as ->.
  { unfold line. rewrite find_append by done. simpl. f_equal. lia. }
  assert (find "," line = Some (String.length name + 1)%nat) as ->.
  { unfold line. rewrite find_append by done. simpl. f_equal. }
  cbn [default from_option]. unfold id.
  assert (substr line 0 (String.length name) = Some name) as ->
    by (unfold line; by apply substr_prefix).
  cbn [mbind option_bind].
  assert (substr line (String.length name + 1 + 2) 1
          = Some (String flag EmptyString)) as ->.
  { unfold substr, line. rewrite !length_append. simpl.
    destruct (Nat.leb_spec (String.length name + 1 + 2)
                (String.length name + 4)); [|lia].
    f_equal. rewrite <- append_assoc.
    replace (String.length name + 1 + 2)%nat
      with (String.length (name +:+ " , "))
      by (rewrite length_append; simpl; lia).
    by rewrite substring_skip. }
  cbn [mbind option_bind]. by rewrite atoi_flag.
Qed.

Lemma baseName_loop_rows (rows : list registry_row) :
  Forall row_ok rows →
  ∀ baseNames,
    baseName_loop (row_text <$> rows) baseNames
    = Some (baseNames ++ bases_of rows).
Proof.
  induction 1 as [|r rows Hr _ IH]; intros baseNames; simpl.
  - by rewrite app_nil_r.
  - destruct r as [k|name flag]; simpl.
    + rewrite baseName_line_blank. simpl. apply IH.
    + destruct Hr as [(Hsp & Hco & _) _].
      rewrite baseName_line_airport by done. simpl.
      destruct (is_base flag); simpl; rewrite IH; [|done].
      by rewrite <- app_assoc.
Qed.

Lemma row_text_line (r : registry_row) :
  row_ok r → find newline (row_text r) = None.
Proof.
  destruct r as [k|name flag]; simpl.
  - intros _. by apply find_spaces.
  - intros [(_ & _ & Hnl) Hflag]. rewrite find_append by done. simpl.
    destruct (Ascii.eqb_spec flag newline); [done|]. done.
Qed.

(** X16. [baseName] on a file laid out as [listOfBases.csv] is: it returns
    [true], drops the header line and the blank lines, and adds to
    [baseNames], in the order of the file, the names of the airports whose
    flag is a digit from 1 to 9. *)
Theorem baseName_reads_the_bases (header : string) (rows : list registry_row)
    (baseNames : list string) :
  find newline header = None → Forall row_ok rows →
  baseName (Some (unlines (header :: (row_text <$> rows)))) baseNames
  = Some (true, baseNames ++ bases_of rows).
Proof.
  intros Hh Hrows. unfold baseName. rewrite lines_unlines.
  - simpl. by rewrite baseName_loop_rows.
  - constructor; [done|]. apply Forall_fmap.
    eapply Forall_impl; [exact Hrows|]. apply row_text_line.
Qed.

Lemma baseName_reads_the_bases_witness :
  baseName
    (Some (unlines ("airport , base"
                    :: (row_text <$> [Airport "YUL" "1"; Blank 3;
                                      Airport "YQB" "0"; Airport "YVR" "1"]))))
    []
  = Some (true, ["YUL"; "YVR"]).
Proof.
  apply (baseName_reads_the_bases "airport , base"
           [Airport "YUL" "1"; Blank 3; Airport "YQB" "0"; Airport "YVR" "1"]
           []).
  - reflexivity.
  - repeat constructor; discriminate.
Defined.

Lemma baseName_line_comma_last (s : string) (baseNames : list string) :
  find "," s = None → baseName_line (s +:+ ",") baseNames = None.
Proof.
  intros Hco. unfold baseName_line.
  destruct (find_first_not_of_comma s EmptyString) as [n ->].
  assert (find "," (s +:+ ",") = Some (String.length s + 0)%nat) as ->
    by (rewrite find_append by done; reflexivity).
  unfold substr at 1. cbn [Nat.leb]. cbn [mbind option_bind].
  unfold substr. rewrite length_append. cbn [String.length].
  destruct (Nat.leb_spec (String.length s + 0 + 2) (String.length s + 1));
    [lia|done].
Qed.

Lemma baseName_loop_None (l : string) (ls : list string) :
  (∀ baseNames, baseName_line l baseNames = None) → l ∈ ls →
  ∀ baseNames, baseName_loop ls baseNames = None.
Proof.
  intros Hl. induction ls as [|l' ls IH]; intros Hin baseNames.
  - by apply elem_of_nil in Hin.
  - simpl. apply elem_of_cons in Hin as [<-|Hin].
    + by rewrite Hl.
    + destruct (baseName_line l' baseNames); simpl; [by apply IH|done].
Qed.

(** X17. A line of [listOfBases.csv], after the header, whose first comma
    is its last character leaves [baseName] without result: the field of
    the flag starts two characters after the comma, beyond the end of the
    line, and [substr] throws [std::out_of_range]. *)
Theorem comma_at_the_end_of_a_line (content s : string)
    (baseNames : list string) :
  find "," s = None → (s +:+ ",") ∈ tail (lines content) →
  baseName (Some content) baseNames = None.
Proof.
  intros Hco Hin. unfold baseName.
  rewrite (baseName_loop_None (s +:+ ",")); [done| |done].
  intros names. by apply baseName_line_comma_last.
Qed.

Lemma comma_at_the_end_of_a_line_witness :
  baseName (Some (unlines ["airport , base"; "YUL , 1"; "YQB,"])) [] = None.
Proof.
  apply (comma_at_the_end_of_a_line _ "YQB").
  - reflexivity.
  - vm_compute. right. left.
Defined.

(** X18. A line without comma is judged by its second character
    ([find_first_of(",") + 2] wraps around to 1): when it holds no space
    either and its second character is a digit from 1 to 9, the whole line
    is taken as the name of a base. *)
Theorem line_without_comma (a f : ascii) (rest : string)
    (baseNames : list string) :
  find "," (String a (String f rest)) = None →
  find " " (String a (String f rest)) = None →
  baseName_line (String a (String f rest)) baseNames
  = Some (if is_base f then baseNames ++ [String a (String f rest)]
          else baseNames).
Proof.
  intros Hco Hsp. unfold baseName_line. rewrite Hco, Hsp.
  cbn [find_first_not_of]. cbn [find] in Hsp.
  destruct (Ascii.eqb a " "); [done|].
  cbn [default from_option]. unfold id.
  assert (substr (String a (String f rest)) 0
            (String.length (String a (String f rest)))
          = Some (String a (String f rest))) as ->.
  { unfold substr. simpl. by rewrite substring_all. }
  cbn [mbind option_bind].
  assert (substr (String a (String f rest)) 1 1 = Some (String f EmptyString))
    as ->.
  { unfold substr. simpl. by destruct rest. }
  cbn [mbind option_bind]. by rewrite atoi_flag.
Qed.

Lemma line_without_comma_witness :
  baseName_line "A1" ["YUL"] = Some ["YUL"; "A1"].
Proof.
  apply (line_without_comma "A" "1" EmptyString ["YUL"]); reflexivity.
Defined.

(** ** The names of the instances *)

Lemma skip_to_app (marker : string) (pre rest : list string) :
  marker ∉ pre → skip_to marker (pre ++ marker :: rest) = rest.
Proof.
  induction pre as [|l pre IH]; intros Hout; simpl.
  - by rewrite String.eqb_refl.
  - apply not_elem_of_cons in Hout as [Hne Hout].
    destruct (String.eqb_spec l marker); [congruence|]. by apply IH.
Qed.

Lemma skip_to_absent (marker : string) (ls : list string) :
  marker ∉ ls → skip_to marker ls = [].
Proof.
  induction ls as [|l ls IH]; intros Hout; simpl; [done|].
  apply not_elem_of_cons in Hout as [Hne Hout].
  destruct (String.eqb_spec l marker); [congruence|]. by apply IH.
Qed.

Lemma names_until_empty_app (names rest : list string) :
  EmptyString ∉ names →
  (rest = [] ∨ ∃ rest', rest = EmptyString :: rest') →
  names_until_empty (names ++ rest) = names.
Proof.
  induction names as [|l names IH]; intros Hout Hrest; simpl.
  - by destruct Hrest as [->|[rest' ->]].
  - apply not_elem_of_cons in Hout as [Hne Hout].
    destruct (String.eqb_spec l EmptyString); [congruence|].
    by rewrite IH.
Qed.

(** X19. The names of the instances are the lines of the parameter file
    that follow the first line [instances], up to the next empty line or to
    the end of the file; without a line [instances] there is no instance. *)
Theorem instanceNames_of_params (pre names post : list string) :
  "instances" ∉ pre → EmptyString ∉ names →
  Forall (λ l, find newline l = None) (pre ++ names ++ post) →
  instanceNames (unlines (pre ++ "instances" :: names ++ EmptyString :: post))
  = names
  ∧ instanceNames (unlines (pre ++ "instances" :: names)) = names
  ∧ instanceNames (unlines pre) = [].
Proof.
  intros Hpre Hnames Hlines. unfold instanceNames.
  apply Forall_app in Hlines as [Hl1 Hl23].
  apply Forall_app in Hl23 as [Hl2 Hl3].
  split; [|split].
  - rewrite lines_unlines.
    + rewrite skip_to_app by done. apply names_until_empty_app; eauto.
    + apply Forall_app. split; [done|]. constructor; [done|].
      apply Forall_app. split; [done|]. by constructor.
  - rewrite lines_unlines.
    + rewrite skip_to_app by done.
      rewrite <- (app_nil_r names) at 1.
      apply names_until_empty_app; eauto.
    + apply Forall_app. split; [done|]. by constructor.
  - rewrite lines_unlines by done. by rewrite skip_to_absent.
Qed.

Lemma instanceNames_of_params_witness :
  instanceNames
    (unlines (["seed 1"] ++ "instances" :: ["inst/a"; "inst/b"]
              ++ EmptyString :: ["crew_availability_constrains.cpp"]))
  = ["inst/a"; "inst/b"].
Proof.
  apply (instanceNames_of_params ["seed 1"] ["inst/a"; "inst/b"]
           ["crew_availability_constrains.cpp"]).
  - intros H. apply list_elem_of_singleton in H. discriminate.
  - intros H. repeat (apply elem_of_cons in H as [H|H]; [discriminate|]).
    by apply elem_of_nil in H.
  - repeat constructor.
Defined.

(** ** Reading [solution_0] *)

Lemma split_line_line (l rest : string) :
  find newline l = None → split_line (l +:+ String newline rest) = (l, rest).
Proof.
  induction l as [|c l IH]; intros Hl.
  - change (EmptyString +:+ String newline rest) with (String newline rest).
    cbn [split_line]. by rewrite Ascii.eqb_refl.
  - change (String c l +:+ String newline rest)
      with (String c (l +:+ String newline rest)).
    cbn [split_line]. cbn [find] in Hl. revert Hl.
    destruct (Ascii.eqb c newline); [intros [=]|intros Hl].
    rewrite IH; [done|]. by destruct (find newline l).
Qed.

Lemma getline_line (l rest : string) :
  find newline l = None →
  getline (l +:+ String newline rest) = Some (l, rest).
Proof.
  intros Hl. rewrite <- (split_line_line l rest Hl).
  by destruct l.
Qed.

Lemma skip_line_unlines (h : string) (ls : list string) :
  find newline h = None → skip_line (unlines (h :: ls)) = unlines ls.
Proof.
  intros Hh. unfold skip_line. cbn [unlines]. by rewrite getline_line.
Qed.

Lemma split_word_space (s : string) :
  match s with
  | EmptyString => True
  | String c _ => is_space c = true
  end →
  split_word s = (EmptyString, s).
Proof. destruct s as [|c s]; [done|]. cbn [split_word]. by intros ->. Qed.

Lemma split_word_word (w rest : string) :
  no_space w = true → split_word rest = (EmptyString, rest) →
  split_word (w +:+ rest) = (w, rest).
Proof.
  intros Hw Hrest. induction w as [|c w IH].
  - by change (EmptyString +:+ rest) with rest.
  - change (String c w +:+ rest) with (String c (w +:+ rest)).
    cbn [split_word]. cbn [no_space] in Hw.
    apply andb_true_iff in Hw as [Hc Hw].
    apply negb_true_iff in Hc. rewrite Hc. by rewrite IH.
Qed.

Lemma read_word_word (w rest : string) :
  word w → split_word rest = (EmptyString, rest) →
  read_word (w +:+ rest) = Some (w, rest).
Proof.
  intros [Hne Hw] Hrest. unfold read_word.
  destruct w as [|c w]; [done|].
  change (String c w +:+ rest) with (String c (w +:+ rest)).
  cbn [skipws]. pose proof Hw as Hw'. cbn [no_space] in Hw'.
  apply andb_true_iff in Hw' as [Hc _]. apply negb_true_iff in Hc.
  rewrite Hc.
  change (String c (w +:+ rest)) with (String c w +:+ rest).
  by rewrite split_word_word.
Qed.

Lemma read_word_skip (c : ascii) (s : string) :
  is_space c = true → read_word (String c s) = read_word s.
Proof. intros Hc. unfold read_word. cbn [skipws]. by rewrite Hc. Qed.

Lemma record_text_stream (rec : string * employee) (rest : string) :
  record_text rec +:+ String newline rest
  = "schedule"
    +:+ String " "
          ("1" +:+ String " "
             (rec.1 +:+ String " "
                (baseString rec.2
                 +:+ String " "
                       (":" +:+ (line rec.2 +:+ String newline rest))))).
Proof.
  unfold record_text.
  rewrite !append_assoc. reflexivity.
Qed.

Lemma read_record_text (rec : string * employee) (rest : string) :
  record_ok rec →
  read_record (record_text rec +:+ String newline rest)
  = Some (baseString rec.2, line rec.2 +:+ String newline rest).
Proof.
  intros (Hid & Hbase & Hnl & Hline). rewrite record_text_stream.
  unfold read_record.
  rewrite (read_word_word "schedule") by (by split).
  cbn [mbind option_bind]. rewrite read_word_skip by done.
  rewrite (read_word_word "1") by (by split).
  cbn [mbind option_bind]. rewrite read_word_skip by done.
  rewrite (read_word_word rec.1) by done.
  cbn [mbind option_bind]. rewrite read_word_skip by done.
  rewrite (read_word_word (baseString rec.2)) by done.
  cbn [mbind option_bind]. rewrite read_word_skip by done.
  rewrite (read_word_word ":"); [done|by split|].
  apply split_word_space. destruct (line rec.2); [done|].
  by change (String a s +:+ String newline rest)
       with (String a (s +:+ String newline rest)).
Qed.

Lemma solution_body_record (baseNames : list string) (emp : employee)
    (rest previous : string) (duties : list (list Z)) :
  find newline (line emp) = None →
  match count_employee baseNames emp duties with
  | Some (duties', evs) =>
      ∃ previous',
        solution_body baseNames (baseString emp)
          (line emp +:+ String newline rest) previous duties
        = Some (rest, previous', duties', evs)
  | None =>
      solution_body baseNames (baseString emp)
        (line emp +:+ String newline rest) previous duties = None
  end.
Proof.
  intros Hnl. unfold solution_body, count_employee.
  rewrite getline_line by done.
  destruct (substr (baseString emp) 1 _) as [base|];
    cbn [mbind option_bind]; [|done].
  destruct (substr_from (line emp) 1) as [sched|];
    cbn [mbind option_bind]; [|done].
  destruct (find_base base baseNames) as [b|]; [|eauto].
  destruct (tasks_loop _ b _) as [st|]; cbn [mbind option_bind]; [eauto|done].
Qed.

Lemma solution_loop_records (baseNames : list string)
    (recs : list (string * employee)) :
  Forall record_ok recs →
  ∀ (fuel : nat) (previous : string) (duties : list (list Z)),
    (length recs < fuel)%nat →
    solution_loop fuel baseNames (unlines (record_text <$> recs)) previous
      duties
    = count_duties baseNames (snd <$> recs) duties.
Proof.
  induction 1 as [|rec recs Hrec _ IH]; intros fuel previous duties Hfuel;
    (destruct fuel as [|fuel]; [simpl in Hfuel; lia|]).
  - reflexivity.
  - cbn [fmap list_fmap unlines solution_loop count_duties].
    rewrite read_record_text by done.
    pose proof (solution_body_record baseNames rec.2
                  (unlines (record_text <$> recs)) previous duties
                  (proj1 (proj2 (proj2 Hrec)))) as Hbody.
    destruct (count_employee baseNames rec.2 duties) as [[duties1 evs1]|].
    + destruct Hbody as [previous' ->]. cbn [mbind option_bind].
      rewrite IH by (simpl in Hfuel; lia). done.
    + by rewrite Hbody.
Qed.

(** X20. On a file [solution_0] laid out as the comment of lines 150-159
    says (two lines that are not used, then one line
    [schedule 1 EMP (BASE) : tasks] per employee), the loop that reads the
    file counts what the records of the employees give: the base between
    the parentheses and the text after the fifth word. *)
Theorem solution_0_is_read_by_records (baseNames : list string)
    (h1 h2 : string) (recs : list (string * employee))
    (duties : list (list Z)) :
  find newline h1 = None → find newline h2 = None →
  Forall record_ok recs →
  count_solution baseNames (unlines (h1 :: h2 :: (record_text <$> recs)))
    duties
  = count_duties baseNames (snd <$> recs) duties.
Proof.
  intros H1 H2 Hrecs. unfold count_solution.
  rewrite !skip_line_unlines by done.
  apply solution_loop_records; [done|].
  assert (∀ ls : list string, (length ls ≤ String.length (unlines ls))%nat)
    as Hlen.
  { induction ls as [|l ls IHl]; simpl; [lia|].
    rewrite length_append. simpl. lia. }
  specialize (Hlen (record_text <$> recs)). rewrite length_fmap in Hlen. lia.
Qed.

Lemma solution_0_is_read_by_records_witness :
  count_solution ["BASE1"]
    (unlines ("Solution" :: "Schedules"
              :: (record_text <$> [("EMP001", Sample.out_of_order)])))
    (zero_duties 1 3)
  = count_duties ["BASE1"] [Sample.out_of_order] (zero_duties 1 3).
Proof.
  apply (solution_0_is_read_by_records ["BASE1"] "Solution" "Schedules"
           [("EMP001", Sample.out_of_order)] (zero_duties 1 3)).
  - reflexivity.
  - reflexivity.
  - repeat constructor; discriminate.
Defined.

(** *** [S (length stream)] iterations are enough *)

Lemma skipws_length (s : string) :
  (String.length (skipws s) ≤ String.length s)%nat.
Proof.
  induction s as [|c s IH]; simpl; [lia|].
  destruct (is_space c); simpl; lia.
Qed.

Lemma split_word_length (s w r : string) :
  split_word s = (w, r) →
  (String.length w + String.length r = String.length s)%nat.
Proof.
  revert w r. induction s as [|c s IH]; intros w r; simpl.
  - intros [= <- <-]. done.
  - destruct (is_space c).
    + intros [= <- <-]. simpl. lia.
    + destruct (split_word s) as [w' r'] eqn:Hs. intros [= <- <-].
      specialize (IH w' r' eq_refl). simpl. lia.
Qed.

Lemma skipws_head (s : string) (c : ascii) (s' : string) :
  skipws s = String c s' → is_space c = false.
Proof.
  induction s as [|a s IH]; simpl; [done|].
  destruct (is_space a) eqn:Ha; [done|]. by intros [= <- <-].
Qed.

Lemma read_word_shorter (s w r : string) :
  read_word s = Some (w, r) → (String.length r < String.length s)%nat.
Proof.
  unfold read_word. pose proof (skipws_length s) as Hlen.
  destruct (skipws s) as [|c s'] eqn:Hs; [done|].
  pose proof (skipws_head _ _ _ Hs) as Hc.
  cbn [split_word]. rewrite Hc.
  destruct (split_word s') as [w' r'] eqn:Hw. intros [= <- <-].
  apply split_word_length in Hw. simpl in Hlen. lia.
Qed.

Lemma read_record_shorter (s b r : string) :
  read_record s = Some (b, r) → (String.length r < String.length s)%nat.
Proof.
  unfold read_record. intros H.
  destruct (read_word s) as [[w1 s1]|] eqn:H1; cbn [mbind option_bind] in H;
    [|done].
  destruct (read_word s1) as [[w2 s2]|] eqn:H2; cbn [mbind option_bind] in H;
    [|done].
  destruct (read_word s2) as [[w3 s3]|] eqn:H3; cbn [mbind option_bind] in H;
    [|done].
  destruct (read_word s3) as [[w4 s4]|] eqn:H4; cbn [mbind option_bind] in H;
    [|done].
  destruct (read_word s4) as [[w5 s5]|] eqn:H5; cbn [mbind option_bind] in H;
    [|done].
  injection H as <- <-.
  apply read_word_shorter in H1, H2, H3, H4, H5. lia.
Qed.

Lemma split_line_length (s l r : string) :
  split_line s = (l, r) → (String.length r ≤ String.length s)%nat.
Proof.
  revert l r. induction s as [|c s IH]; intros l r; simpl.
  - intros [= <- <-]. done.
  - destruct (Ascii.eqb c newline).
    + intros [= <- <-]. lia.
    + destruct (split_line s) as [l' r'] eqn:Hs. intros [= <- <-].
      specialize (IH l' r' eq_refl). lia.
Qed.

Lemma solution_body_shorter (baseNames : list string)
    (baseString rest previous : string) (duties : list (list Z))
    (rest' previous' : string) (duties' : list (list Z))
    (evs : list (nat * Z)) :
  solution_body baseNames baseString rest previous duties
  = Some (rest', previous', duties', evs) →
  (String.length rest' ≤ String.length rest)%nat.
Proof.
  unfold solution_body. intros H.
  destruct (substr baseString 1 _); cbn [mbind option_bind] in H; [|done].
  assert (∃ text r, (match getline rest with
                     | Some (l, r) => (l, r)
                     | None => (previous, rest)
                     end) = (text, r)
                    ∧ (String.length r ≤ String.length rest)%nat)
    as (text & r & Hg & Hr).
  { unfold getline. destruct rest as [|c rest0]; [by eexists _, _|].
    destruct (split_line (String c rest0)) as [l r] eqn:Hs.
    exists l, r. split; [done|]. by eapply split_line_length. }
  rewrite Hg in H.
  destruct (substr_from text 1); cbn [mbind option_bind] in H; [|done].
  destruct (find_base _ _).
  - destruct (tasks_loop _ _ _); cbn [mbind option_bind] in H; [|done].
    by injection H as <- _ _ _.
  - by injection H as <- _ _ _.
Qed.

Lemma solution_loop_fuel (baseNames : list string) (n : nat) :
  ∀ (stream previous : string) (duties : list (list Z)) (fuel : nat),
    (String.length stream ≤ n)%nat → (String.length stream < fuel)%nat →
    solution_loop fuel baseNames stream previous duties
    = solution_loop (S (String.length stream)) baseNames stream previous
        duties.
Proof.
  induction n as [|n IH]; intros stream previous duties fuel Hn Hfuel;
    (destruct fuel as [|fuel]; [lia|]); cbn [solution_loop];
    destruct (read_record stream) as [[b rest]|] eqn:Hrec; try done;
    apply read_record_shorter in Hrec; [lia|].
  destruct (solution_body baseNames b rest previous duties)
    as [[[[rest' previous'] duties1] evs1]|] eqn:Hbody;
    cbn [mbind option_bind]; [|done].
  apply solution_body_shorter in Hbody.
  rewrite (IH rest' previous' duties1 fuel) by lia.
  by rewrite (IH rest' previous' duties1 (String.length stream)) by lia.
Qed.

(** ** The number of days *)

Lemma count_days_from (opens : string → bool) (instanceName : string)
    (fuel : nat) :
  ∀ (m n : nat),
    count_days fuel opens instanceName m = Some n
    ↔ (m ≤ n < m + fuel)%nat
      ∧ (∀ k, (m < k ≤ n)%nat → opens (dayFileName instanceName k) = true)
      ∧ opens (dayFileName instanceName (n + 1)) = false.
Proof.
  induction fuel as [|fuel IH]; intros m n; simpl.
  - split; [done|]. intros [? _]. lia.
  - destruct (opens (dayFileName instanceName (m + 1))) eqn:Hm.
    + rewrite IH. split.
      * intros (Hn & Hall & Hend). split; [lia|]. split; [|done].
        intros k Hk. destruct (decide (k = (m + 1)%nat)) as [->|]; [done|].
        apply Hall. lia.
      * intros (Hn & Hall & Hend).
        assert (n ≠ m) by (intros ->; congruence).
        split; [lia|]. split; [|done]. intros k Hk. apply Hall. lia.
    + split.
      * intros [= <-]. split; [lia|]. split; [|done]. intros k Hk. lia.
      * intros (Hn & Hall & Hend). f_equal.
        destruct (decide (m = n)) as [|Hne]; [done|].
        rewrite Hall in Hm by lia. done.
Qed.

(** X21. The number of days of the period is the number of the last file of
    the run [day_1.csv], [day_2.csv], ... that can be opened without a gap:
    the loop returns [n] exactly when the files of the days 1 to [n] open
    and that of day [n + 1] does not, whatever files of later days exist. *)
Theorem numDays_stops_at_the_first_gap (opens : string → bool)
    (instanceName : string) (fuel n : nat) :
  count_days fuel opens instanceName 0 = Some n
  ↔ (n < fuel)%nat
    ∧ (∀ k, (1 ≤ k ≤ n)%nat → opens (dayFileName instanceName k) = true)
    ∧ opens (dayFileName instanceName (n + 1)) = false.
Proof.
  rewrite count_days_from. split.
  - intros (Hn & Hall & Hend). split; [lia|]. split; [|done].
    intros k Hk. apply Hall. lia.
  - intros (Hn & Hall & Hend). split; [lia|]. split; [|done].
    intros k Hk. apply Hall. lia.
Qed.

Example days_after_a_gap_are_not_counted :
  count_days 10
    (λ f, bool_decide (f ∈ ["inst/day_1.csv"; "inst/day_2.csv";
                            "inst/day_4.csv"]))
    "inst" 0
  = Some 2%nat.
Proof. reflexivity. Qed.

(** ** The loops over the text of [solution_0] end *)

(** X22. The loop over the tasks of a schedule ends whatever the schedule
    holds: every iteration that goes on takes at least four characters off
    [schedule], so that after [n] such iterations, with [4 * n] at most
    [schedule.length()], the next iteration throws or is the last one
    ([next] is false); this is then the outcome of the loop. *)
Theorem tasks_loop_ends (baseIndex : nat) (st : tasks_state) :
  ∃ (n : nat) (st_n : tasks_state),
    (4 * n ≤ String.length (schedule st))%nat
    ∧ tasks_after n baseIndex st = Some st_n
    ∧ ((tasks_step baseIndex st_n = None
        ∧ ∀ fuel, (n < fuel)%nat → tasks_loop fuel baseIndex st = None)
       ∨ ∃ st',
           tasks_step baseIndex st_n = Some (st', false)
           ∧ ∀ fuel, (n < fuel)%nat →
               tasks_loop fuel baseIndex st = Some st').
Proof.
  remember (String.length (schedule st)) as m eqn:Hm. revert st Hm.
  induction m as [m IH] using lt_wf_ind. intros st ->.
  destruct (tasks_step baseIndex st) as [[st1 []]|] eqn:Hstep.
  - pose proof (tasks_step_shorter _ _ _ Hstep) as Hshort.
    destruct (IH (String.length (schedule st1)) ltac:(lia) st1 eq_refl)
      as (n & st_n & Hn & Hafter & Hlast).
    exists (S n), st_n. split; [lia|]. split; [simpl; by rewrite Hstep|].
    destruct Hlast as [[Hthrow Hloop]|(st' & Hend & Hloop)].
    + left. split; [done|]. intros [|fuel] Hfuel; [lia|]. simpl.
      rewrite Hstep. apply Hloop. lia.
    + right. exists st'. split; [done|]. intros [|fuel] Hfuel; [lia|].
      simpl. rewrite Hstep. apply Hloop. lia.
  - exists 0%nat, st. split; [lia|]. split; [done|]. right. exists st1.
    split; [done|]. intros [|fuel] Hfuel; [lia|]. simpl. by rewrite Hstep.
  - exists 0%nat, st. split; [lia|]. split; [done|]. left.
    split; [done|]. intros [|fuel] Hfuel; [lia|]. simpl. by rewrite Hstep.
Qed.

(** X23. The loop that reads the schedules of [solution_0] ends whatever
    the file holds: every iteration takes the five words of a record off
    the stream, so that after [n] records read and counted, with [n] at
    most the number of characters of the stream, either no record is left,
    and the loop ends with the table and the events of these [n] records,
    or the body throws on the next record (the loop over the tasks inside
    the body never needs more than the [schedule.length() + 1] iterations
    that the body gives it). *)
Theorem solution_loop_ends (baseNames : list string)
    (stream previous : string) (duties : list (list Z)) :
  ∃ (n : nat) (stream_n previous_n : string) (duties_n : list (list Z))
    (evs_n : list (nat * Z)),
    (n ≤ String.length stream)%nat
    ∧ solution_after n baseNames stream previous duties
      = Some (stream_n, previous_n, duties_n, evs_n)
    ∧ ((read_record stream_n = None
        ∧ ∀ fuel, (n < fuel)%nat →
            solution_loop fuel baseNames stream previous duties
            = Some (duties_n, evs_n))
       ∨ ∃ baseString rest,
           read_record stream_n = Some (baseString, rest)
           ∧ solution_body baseNames baseString rest previous_n duties_n
             = None
           ∧ ∀ fuel, (n < fuel)%nat →
               solution_loop fuel baseNames stream previous duties = None).
Proof.
  remember (String.length stream) as m eqn:Hm.
  revert stream previous duties Hm.
  induction m as [m IH] using lt_wf_ind. intros stream previous duties ->.
  destruct (read_record stream) as [[b rest]|] eqn:Hrec.
  - pose proof (read_record_shorter _ _ _ Hrec) as Hshort.
    destruct (solution_body baseNames b rest previous duties)
      as [[[[rest' previous'] duties1] evs1]|] eqn:Hbody.
    + pose proof (solution_body_shorter _ _ _ _ _ _ _ _ _ Hbody) as Hshort'.
      destruct (IH (String.length rest') ltac:(lia) rest' previous' duties1
                  eq_refl)
        as (n & stream_n & previous_n & duties_n & evs_n & Hn & Hafter
            & Hlast).
      exists (S n), stream_n, previous_n, duties_n, (evs1 ++ evs_n).
      split; [lia|]. split.
      { cbn [solution_after]. rewrite Hrec. cbn [mbind option_bind].
        rewrite Hbody. cbn [mbind option_bind]. rewrite Hafter. done. }
      destruct Hlast as [[Hend Hloop]|(b' & rest0 & Hrec' & Hthrow & Hloop)].
      * left. split; [done|]. intros [|fuel] Hfuel; [lia|].
        cbn [solution_loop]. rewrite Hrec, Hbody. cbn [mbind option_bind].
        rewrite (Hloop fuel) by lia. done.
      * right. exists b', rest0. split; [done|]. split; [done|].
        intros [|fuel] Hfuel; [lia|].
        cbn [solution_loop]. rewrite Hrec, Hbody. cbn [mbind option_bind].
        rewrite (Hloop fuel) by lia. done.
    + exists 0%nat, stream, previous, duties, []. split; [lia|].
      split; [done|]. right. exists b, rest. split; [done|]. split; [done|].
      intros [|fuel] Hfuel; [lia|].
      cbn [solution_loop]. rewrite Hrec, Hbody. done.
  - exists 0%nat, stream, previous, duties, []. split; [lia|].
    split; [done|]. left. split; [done|].
    intros [|fuel] Hfuel; [lia|]. cbn [solution_loop]. by rewrite Hrec.
Qed.
